(** * Datagent: the pollution-source tracing pipeline

    A shallow embedding of [src/pollution_trace.py] (class [PollutionTracer])
    and of the preprocessing step and the analyses of [src/data_analysis.py]
    (class [DataAnalyzer]), with the properties of the pipeline proved on it.

    Conventions of the embedding.
    - A pandas [DataFrame] is a list of rows; a row is a finite map from
      column names to cells.  The frame also records which columns it has,
      so that reading an absent column raises [KeyError] as pandas does.
    - Numbers are exact rationals ([Qc]): IEEE rounding and infinities are
      not modelled.  The missing marker of pandas is the cell [NaN].
    - Python exceptions are the left summand of [result]. *)

From Stdlib Require Import QArith Qcanon Qround.
From stdpp Require Import base option list sorting gmap strings fin_maps numbers relations.

Open Scope Qc_scope.

(** ** Cells, rows, frames *)

Inductive cell : Type :=
  | Num (q : Qc)
  | Str (s : string)
  | NaN.

#[global] Instance cell_eq_dec : EqDecision cell.
Proof. solve_decision. Defined.

Abbreviation Row := (gmap string cell).

Record DataFrame : Type := mkDataFrame {
  columns : list string;
  rows : list Row
}.

(** [row[col]]: a cell that a row does not hold reads as missing. *)
Definition cell_at (r : Row) (col : string) : cell := default NaN (r !! col).

(** ** Exceptions *)

Inductive exn : Type :=
  | KeyError (col : string)
  | ValueError
  | TypeError
  | RuntimeError.

Definition result (A : Type) : Type := (exn + A)%type.

#[global] Instance result_ret : MRet result := λ A x, inr x.
#[global] Instance result_bind : MBind result := λ A B f m,
  match m with inl e => inl e | inr x => f x end.
#[global] Instance result_fmap : FMap result := λ A B f m,
  match m with inl e => inl e | inr x => inr (f x) end.

Definition raise {A : Type} (e : exn) : result A := inl e.

Fixpoint mapM_result {A B : Type} (f : A → result B) (l : list A) : result (list B) :=
  match l with
  | [] => mret []
  | x :: l' => y ← f x; ys ← mapM_result f l'; mret (y :: ys)
  end.

(** ** Column access *)

(** [df[col]] *)
Definition getitem (df : DataFrame) (col : string) : result (list cell) :=
  if bool_decide (col ∈ columns df)
  then mret (map (λ r, cell_at r col) (rows df))
  else raise (KeyError col).

(** [df[col] = values]; pandas refuses a value list of another length. *)
Definition setitem (df : DataFrame) (col : string) (values : list cell) : result DataFrame :=
  if bool_decide (length values = length (rows df))
  then mret {| columns := if bool_decide (col ∈ columns df)
                          then columns df else columns df ++ [col];
               rows := zip_with (λ r v, <[col := v]> r) (rows df) values |}
  else raise ValueError.

(** ** [pd.to_numeric(series, errors='coerce')] *)

Section ToNumeric.

(** The number grammar of pandas is library code; the embedding takes the
    parser of one text cell as a parameter. [None] means "not a number". *)
Variable parse_number : string → option Qc.

Definition coerce (v : cell) : cell :=
  match v with
  | Num q => Num q
  | Str s => match parse_number s with Some q => Num q | None => NaN end
  | NaN => NaN
  end.

Definition to_numeric (series : list cell) : list cell := map coerce series.

(** [df[col] = pd.to_numeric(df[col], errors='coerce')] *)
Definition coerce_column (df : DataFrame) (col : string) : result DataFrame :=
  series ← getitem df col;
  setitem df col (to_numeric series).

Fixpoint coerce_columns (df : DataFrame) (cols : list string) : result DataFrame :=
  match cols with
  | [] => mret df
  | col :: cols' => df' ← coerce_column df col; coerce_columns df' cols'
  end.

(** The guarded loop of [DataAnalyzer]: [if col in self.data.columns]. *)
Fixpoint coerce_present (df : DataFrame) (cols : list string) : result DataFrame :=
  match cols with
  | [] => mret df
  | col :: cols' =>
      if bool_decide (col ∈ columns df)
      then df' ← coerce_column df col; coerce_present df' cols'
      else coerce_present df cols'
  end.

End ToNumeric.

(** ** Column names of the discharge-outlet sheet *)

Definition col_lon : string := "经度".
Definition col_lat : string := "纬度".
Definition col_wastewater : string := "入河废污水量(万吨年)".
Definition col_primary : string := "入河主要污染物量（吨年）".
Definition col_ammonia : string := "氨氮入河量（吨年）".
Definition col_phosphorus : string := "总磷入河量（吨年）".
Definition col_nitrogen : string := "总氮入河量（吨年）".
Definition col_unit : string := "设置单位名称".
Definition col_outlet_type : string := "排污口类型名称".
Definition col_cluster : string := "cluster".
Definition col_total : string := "total_pollution".

Module DataAnalyzer.

Definition numeric_cols : list string :=
  ["COD（mg/L）"; "氨氮（mg/L）"; "总磷（mg/L ）"; "pH"; "流量（m3/d）"].
Definition col_geo_lon : string := "地理位置经度".
Definition col_geo_lat : string := "地理位置纬度".

Definition preprocess_data (parse_number : string → option Qc)
    (data : DataFrame) : result DataFrame :=
  data ← coerce_present parse_number data numeric_cols;
  data ← coerce_column parse_number data col_geo_lon;
  coerce_column parse_number data col_geo_lat.

End DataAnalyzer.

(** ** Numeric reads and pandas reductions *)

(** A cell read as a float: a number, or missing. Text in a numeric
    reduction is a [TypeError]. *)
Definition as_float (v : cell) : result (option Qc) :=
  match v with
  | Num q => mret (Some q)
  | NaN => mret None
  | Str _ => raise TypeError
  end.

Definition notna (v : cell) : bool :=
  match v with NaN => false | _ => true end.

Fixpoint sum_Qc (xs : list Qc) : Qc :=
  match xs with
  | [] => 0
  | x :: xs' => x + sum_Qc xs'
  end.

(** [nansum]: missing values are filled with 0, then summed
    ([skipna=True], [min_count=0]). *)
Definition nansum (xs : list (option Qc)) : Qc := sum_Qc (map (default 0) xs).

(** [series.sum()] *)
Definition series_sum (series : list cell) : result Qc :=
  nansum <$> mapM_result as_float series.

(** [series.mean()]: the mean of the values present; missing when there is
    none. *)
Definition series_mean (series : list cell) : result (option Qc) :=
  xs ← mapM_result as_float series;
  let present := omap id xs in
  mret (match present with
        | [] => None
        | _ => Some (sum_Qc present / Q2Qc (inject_Z (Z.of_nat (length present))))
        end).

(** [series.count()]: the number of cells present. *)
Definition series_count (series : list cell) : nat := length (filter (λ v, notna v = true) series).

(** [df[cols].values]: the matrix of the chosen columns, one list per row. *)
Fixpoint check_columns (df : DataFrame) (cols : list string) : result unit :=
  match cols with
  | [] => mret ()
  | col :: cols' =>
      if bool_decide (col ∈ columns df) then check_columns df cols'
      else raise (KeyError col)
  end.

Definition values (df : DataFrame) (cols : list string) : result (list (list cell)) :=
  _ ← check_columns df cols;
  mret (map (λ r, map (cell_at r) cols) (rows df)).

(** [frame.sum(axis=1)] *)
Definition sum_axis1 (matrix : list (list cell)) : result (list Qc) :=
  mapM_result series_sum matrix.

(** ** Ordering of cells, unique values, group keys *)

(** The order in which pandas sorts keys: numbers by value, text by code
    point, numbers before text, missing last. *)
Definition cell_le (x y : cell) : Prop :=
  match x, y with
  | Num a, Num b => a ≤ b
  | Num _, _ => True
  | Str s, Str t => String.le s t
  | Str _, Num _ => False
  | Str _, NaN => True
  | NaN, NaN => True
  | NaN, _ => False
  end.

#[global] Instance cell_le_dec : RelDecision cell_le.
Proof. intros [a|s|] [b|t|]; simpl; apply _. Defined.

(** [pd.unique]: the distinct values in order of first appearance. *)
Fixpoint unique (l : list cell) : list cell :=
  match l with
  | [] => []
  | x :: l' => x :: filter (λ y, y ≠ x) (unique l')
  end.

(** The keys of [groupby(col)]: distinct, missing dropped, sorted. *)
Definition group_keys (keys : list cell) : list cell :=
  merge_sort cell_le (unique (filter (λ v, notna v = true) keys)).

(** The rows of one group, in frame order. *)
Definition group_rows (df : DataFrame) (col : string) (key : cell) : list Row :=
  filter (λ r, cell_at r col = key) (rows df).

Definition column_of (rs : list Row) (col : string) : list cell :=
  map (λ r, cell_at r col) rs.

(** ** [Series.mode] *)

Definition value_count (vals : list cell) (v : cell) : nat :=
  length (filter (λ y, y = v) vals).

(** The most frequent values, in order of first appearance. *)
Definition modes_unsorted (series : list cell) : list cell :=
  let vals := filter (λ v, notna v = true) series in
  let keys := unique vals in
  let top := max_list (map (value_count vals) keys) in
  filter (λ k, value_count vals k = top) keys.

Definition is_num (v : cell) : bool := match v with Num _ => true | _ => false end.
Definition is_str (v : cell) : bool := match v with Str _ => true | _ => false end.

(** [np.sort] of an object array compares its elements with [<]; text
    against a number is a [TypeError], which [mode] catches to leave the
    modes as they are. *)
Definition sortable (l : list cell) : bool := forallb is_num l || forallb is_str l.

Definition mode (series : list cell) : list cell :=
  let modes := modes_unsorted series in
  if sortable modes then merge_sort cell_le modes else modes.

(** [lambda x: x.mode()[0] if not x.mode().empty else None] *)
Definition dominant (series : list cell) : option cell :=
  match mode series with
  | [] => None
  | m :: _ => Some m
  end.

(** ** [sort_values]

    [sort_values] is called with its default [kind='quicksort'], which
    pandas documents as not stable: the result is some arrangement of the
    rows in key order.  The embedding takes the sorting routine as an
    interface with that contract. *)

Class Quicksort : Type := {
  quicksort : ∀ {A : Type} (R : relation A) `{!RelDecision R}, list A → list A;
  quicksort_Permutation :
    ∀ {A : Type} (R : relation A) `{!RelDecision R} (l : list A),
      quicksort R l ≡ₚ l;
  quicksort_Sorted :
    ∀ {A : Type} (R : relation A) `{!RelDecision R} `{!Transitive R, !Total R}
      (l : list A), StronglySorted R (quicksort R l)
}.

(** Descending order of float keys, missing last ([na_position='last']). *)
Definition key_ge (x y : option Qc) : Prop :=
  match x, y with
  | Some a, Some b => b ≤ a
  | Some _, None => True
  | None, Some _ => False
  | None, None => True
  end.

#[global] Instance key_ge_dec : RelDecision key_ge.
Proof. intros [a|] [b|]; simpl; apply _. Defined.

Definition by_key_desc {A : Type} (x y : option Qc * A) : Prop := key_ge x.1 y.1.

#[global] Instance by_key_desc_dec {A : Type} : RelDecision (@by_key_desc A).
Proof. intros x y. unfold by_key_desc. apply _. Defined.

(** [rows.sort_values(col, ascending=False)] *)
Definition sort_values_desc `{Quicksort} (rs : list Row) (col : string) : result (list Row) :=
  keys ← mapM_result as_float (column_of rs col);
  mret (map snd (quicksort by_key_desc (zip keys rs))).

(** ** [StandardScaler]

    A standardized value is [(x - mean) / sqrt var].  To stay in the
    rationals the embedding keeps the matrix in centred form together with
    the squared scale of each column: the entry [c] of column [j] stands for
    [c / sqrt (scale2 !! j)]. *)

Record ScaledMatrix : Type := mkScaled {
  scale2 : list Qc;
  centred : list (list (option Qc))
}.

Definition Qc_of_nat (n : nat) : Qc := Q2Qc (inject_Z (Z.of_nat n)).

Definition mean_Qc (xs : list Qc) : Qc := sum_Qc xs / Qc_of_nat (length xs).

(** The population variance ([ddof = 0]). *)
Definition var_Qc (xs : list Qc) : Qc :=
  let m := mean_Qc xs in
  sum_Qc (map (λ x, (x - m) * (x - m)) xs) / Qc_of_nat (length xs).

Definition matrix_column (X : list (list (option Qc))) (j : nat) : list (option Qc) :=
  map (λ row, default None (row !! j)) X.

(** [check_array]: the matrix as floats; text does not convert. *)
Definition check_array (X : list (list cell)) : result (list (list (option Qc))) :=
  match mapM_result (mapM_result as_float) X with
  | inl _ => raise ValueError
  | inr M => mret M
  end.

(** [StandardScaler().fit_transform(X)]: missing entries are left out of the
    statistics and stay missing; an empty matrix is refused; a column of
    zero variance is scaled by 1. *)
Definition StandardScaler_fit_transform (X : list (list cell)) : result ScaledMatrix :=
  M ← check_array X;
  match M with
  | [] => raise ValueError
  | row0 :: _ =>
      let features := seq 0 (length row0) in
      let present j := omap id (matrix_column M j) in
      let mean_ := map (λ j, mean_Qc (present j)) features in
      let var_ := map (λ j, var_Qc (present j)) features in
      mret {| scale2 := map (λ v, if bool_decide (v = 0) then 1 else v) var_;
              centred := map (λ row, zip_with (λ x m, (λ x, x - m) <$> x) row mean_) M |}
  end.

(** ** [DBSCAN] *)

Section DbscanInner.

(** [dbscan_inner(is_core, neighborhoods, labels)] of scikit-learn. *)
Variable is_core : nat → bool.
Variable neighborhoods : nat → list nat.

(** [for v in neighb: if labels[v] == -1: push(stack, v)]; the head of
    the list is the back of the vector. *)
Definition push_unlabelled (labels : list Z) (neighb : list nat) (stack : list nat) : list nat :=
  foldl (λ st v, if bool_decide (labels !! v = Some (-1)%Z) then v :: st else st)
        stack neighb.

(** The depth-first [while True] loop that grows cluster [label_num]
    from the point [i]. *)
Fixpoint expand (fuel : nat) (label_num : Z) (i : nat) (labels : list Z)
    (stack : list nat) : option (list Z) :=
  match fuel with
  | O => None
  | S fuel' =>
      let '(labels1, stack1) :=
        if bool_decide (labels !! i = Some (-1)%Z) then
          let labels1 := <[i := label_num]> labels in
          if is_core i
          then (labels1, push_unlabelled labels1 (neighborhoods i) stack)
          else (labels1, stack)
        else (labels, stack) in
      match stack1 with
      | [] => Some labels1
      | v :: stack2 => expand fuel' label_num v labels1 stack2
      end
  end.

(** The outer [for i in range(labels.shape[0])] loop. *)
Fixpoint scan (fuel : nat) (idxs : list nat) (label_num : Z) (labels : list Z)
    : option (list Z) :=
  match idxs with
  | [] => Some labels
  | i :: idxs' =>
      if bool_decide (labels !! i ≠ Some (-1)%Z) || negb (is_core i)
      then scan fuel idxs' label_num labels
      else labels' ← expand fuel label_num i labels [];
           scan fuel idxs' (label_num + 1)%Z labels'
  end.

Definition dbscan_inner (n : nat) : option (list Z) :=
  scan (S (n * n)) (seq 0 n) 0%Z (replicate n (-1)%Z).

End DbscanInner.

(** Squared Euclidean distance of two rows of a scaled matrix. *)
Fixpoint sq_dist (scale2 : list Qc) (p q : list Qc) : Qc :=
  match scale2, p, q with
  | v :: vs, a :: p', b :: q' => (a - b) * (a - b) / v + sq_dist vs p' q'
  | _, _, _ => 0
  end.

(** [dist(p, q) <= eps], decided on squares. *)
Definition within (eps : Qc) (scale2 : list Qc) (p q : list Qc) : bool :=
  bool_decide (sq_dist scale2 p q ≤ eps * eps).

(** The rows of the matrix when none of its entries is missing. *)
Definition all_finite (M : list (list (option Qc))) : option (list (list Qc)) :=
  mapM (mapM id) M.

(** [radius_neighbors]: the points within [eps] of point [i], itself
    included. *)
Definition radius_neighbors (eps : Qc) (scale2 : list Qc) (pts : list (list Qc))
    (i : nat) : list nat :=
  filter (λ j, within eps scale2 (pts !!! i) (pts !!! j) = true) (seq 0 (length pts)).

(** [DBSCAN(eps, min_samples).fit_predict(X)].  The parameters are checked
    first ([eps > 0], [min_samples >= 1]), then the matrix, in which a
    missing entry is refused.  [RuntimeError] stands for the loop running
    out of the fuel of the embedding, which never happens
    (see [dbscan_inner_correct]). *)
Definition DBSCAN_fit_predict (eps : Qc) (min_samples : nat) (X : ScaledMatrix)
    : result (list Z) :=
  if bool_decide (0 < eps ∧ (1 ≤ min_samples)%nat) then
    match all_finite (centred X) with
    | None => raise ValueError
    | Some pts =>
        let neighborhoods := radius_neighbors eps (scale2 X) pts in
        let core_samples i := bool_decide (min_samples ≤ length (neighborhoods i))%nat in
        match dbscan_inner core_samples neighborhoods (length pts) with
        | Some labels => mret labels
        | None => raise RuntimeError
        end
    end
  else raise ValueError.

(** [np.unique]: the distinct labels in increasing order. *)
Definition np_unique (labels : list Z) : list Z := merge_sort Z.le (remove_dups labels).

(** ** class [PollutionTracer] *)

Module PollutionTracer.

Definition pollution_cols : list string :=
  [col_wastewater; col_primary; col_ammonia; col_phosphorus; col_nitrogen].

Definition preprocess_data (parse_number : string → option Qc)
    (data : DataFrame) : result DataFrame :=
  data ← coerce_column parse_number data col_lon;
  data ← coerce_column parse_number data col_lat;
  coerce_columns parse_number data pollution_cols.

(** A cluster label as it is stored in the [cluster] column. *)
Definition cell_of_label (l : Z) : cell := Num (Q2Qc (inject_Z l)).

(** The body of [spatial_clustering] with the two constants of the
    [DBSCAN] call as parameters.  It returns [self.data] after the
    assignment of the [cluster] column, and the label array. *)
Definition clustering (eps : Qc) (min_samples : nat) (data : DataFrame)
    : result (DataFrame * list Z) :=
  coords ← values data [col_lon; col_lat];
  coords ← StandardScaler_fit_transform coords;
  clusters ← DBSCAN_fit_predict eps min_samples coords;
  data ← setitem data col_cluster (map cell_of_label clusters);
  mret (data, clusters).

Definition eps_default : Qc := Q2Qc (3 # 10).
Definition min_samples_default : nat := 3.

Definition spatial_clustering (data : DataFrame) : result (DataFrame * list Z) :=
  clustering eps_default min_samples_default data.

(** One row of [company_stats]. [outlet_type = None] is the [None] that
    the aggregation lambda returns for an empty mode. *)
Record company_row : Type := mkCompany {
  unit_name : cell;
  total_pollution : Qc;
  wastewater : Qc;
  outlet_type : option cell
}.

Definition company_agg (data : DataFrame) (key : cell) : result company_row :=
  let g := group_rows data col_unit key in
  total ← series_sum (column_of g col_total);
  waste ← series_sum (column_of g col_wastewater);
  mret {| unit_name := key; total_pollution := total; wastewater := waste;
          outlet_type := dominant (column_of g col_outlet_type) |}.

Definition by_total_desc (a b : company_row) : Prop :=
  total_pollution b ≤ total_pollution a.

#[global] Instance by_total_desc_dec : RelDecision by_total_desc.
Proof. intros a b. unfold by_total_desc. apply _. Defined.

(** [pollution_analysis]: returns [self.data] after the assignment of the
    [total_pollution] column, and [company_stats]. *)
Definition pollution_analysis `{Quicksort} (data : DataFrame)
    : result (DataFrame * list company_row) :=
  loads ← values data [col_primary; col_ammonia; col_phosphorus; col_nitrogen];
  totals ← sum_axis1 loads;
  data ← setitem data col_total (map Num totals);
  names ← getitem data col_unit;
  _ ← check_columns data [col_total; col_wastewater; col_outlet_type];
  company_stats ← mapM_result (company_agg data) (group_keys names);
  mret (data, quicksort by_total_desc company_stats).

(** One row of [cluster_info]. *)
Record cluster_info_row : Type := mkClusterInfo {
  ci_cluster : cell;
  ci_count : nat;
  ci_total : Qc
}.

Definition cluster_info_agg (data : DataFrame) (key : cell) : result cluster_info_row :=
  let g := group_rows data col_cluster key in
  total ← series_sum (column_of g col_total);
  mret {| ci_cluster := key; ci_count := series_count (column_of g col_unit);
          ci_total := total |}.

(** [self.data.groupby('cluster').agg({unit: 'count', total: 'sum'})] *)
Definition cluster_info_table (data : DataFrame) : result (list cluster_info_row) :=
  labels ← getitem data col_cluster;
  _ ← check_columns data [col_unit; col_total];
  mapM_result (cluster_info_agg data) (group_keys labels).

(** What the report prints for one cluster of section 2.2. *)
Record cluster_detail : Type := mkDetail {
  cluster_id : Z;
  n_companies : nat;
  total_emission : Qc;
  top_companies : list (cell * cell)
}.

Definition cluster_detail_of `{Quicksort} (data : DataFrame) (cid : Z)
    : result cluster_detail :=
  let cluster_data := group_rows data col_cluster (cell_of_label cid) in
  total ← series_sum (column_of cluster_data col_total);
  sorted ← sort_values_desc cluster_data col_total;
  let top := take 5 sorted in
  mret {| cluster_id := cid; n_companies := length cluster_data;
          total_emission := total;
          top_companies := map (λ r, (cell_at r col_unit, cell_at r col_total)) top |}.

(** The loop [for cluster_id in np.unique(clusters)] with its
    [if cluster_id == -1: continue]. *)
Definition cluster_details `{Quicksort} (data : DataFrame) (clusters : list Z)
    : result (list cluster_detail) :=
  mapM_result (cluster_detail_of data)
              (filter (λ cid, cid ≠ (-1)%Z) (np_unique clusters)).

(** The centre marker that [_generate_interactive_map] puts on the map
    for one cluster. *)
Record cluster_marker : Type := mkMarker {
  cm_cluster : Z;
  center_lat : option Qc;
  center_lon : option Qc;
  cm_count : nat;
  cm_total : Qc
}.

Definition cluster_marker_of (data : DataFrame) (cid : Z) : result cluster_marker :=
  let cluster_data := group_rows data col_cluster (cell_of_label cid) in
  lat ← series_mean (column_of cluster_data col_lat);
  lon ← series_mean (column_of cluster_data col_lon);
  total ← series_sum (column_of cluster_data col_total);
  mret {| cm_cluster := cid; center_lat := lat; center_lon := lon;
          cm_count := length cluster_data; cm_total := total |}.

Definition generate_interactive_map (data : DataFrame) (clusters : list Z)
    : result (list cluster_marker) :=
  mapM_result (cluster_marker_of data)
              (filter (λ cid, cid ≠ (-1)%Z) (np_unique clusters)).

(** What [generate_trace_report] computes and hands to the report file
    and to the map; the writing itself is not modelled. *)
Record trace_report : Type := mkReport {
  top10 : list company_row;
  cluster_info : list cluster_info_row;
  details : list cluster_detail;
  markers : list cluster_marker
}.

Definition generate_trace_report `{Quicksort} (data : DataFrame)
    : result (DataFrame * trace_report) :=
  '(data, clusters) ← spatial_clustering data;
  '(data, company_stats) ← pollution_analysis data;
  info ← cluster_info_table data;
  dets ← cluster_details data clusters;
  marks ← generate_interactive_map data clusters;
  mret (data, {| top10 := take 10 company_stats; cluster_info := info;
                 details := dets; markers := marks |}).

End PollutionTracer.

(** ** Vocabulary of the statements *)

(** A row after the columns [cols] have been coerced in turn. *)
Definition coerce_cells (parse_number : string → option Qc) (cols : list string) (r : Row) : Row :=
  foldl (λ r col, <[col := coerce parse_number (cell_at r col)]> r) r cols.
#[global] Arguments coerce_cells : simpl never.

(** A load with the missing value read as 0. *)
Definition load_or_zero (v : cell) : Qc :=
  match v with Num q => q | _ => 0 end.

(** A cell of a float column: a number or missing. *)
Definition float_of (v : cell) : option Qc :=
  match v with Num q => Some q | _ => None end.

(** A column that exists and holds no text, as [preprocess_data] leaves
    the columns it coerces. *)
Definition numeric_column (data : DataFrame) (col : string) : Prop :=
  col ∈ columns data ∧ Forall (λ r : Row, is_str (cell_at r col) = false) (rows data).

#[global] Instance numeric_column_dec data col : Decision (numeric_column data col).
Proof. unfold numeric_column. apply _. Defined.

Definition load_cols : list string :=
  [col_primary; col_ammonia; col_phosphorus; col_nitrogen].

(** The frame that [pollution_analysis] leaves in [self.data]. *)
Definition row_total (r : Row) : Qc :=
  nansum (map (λ col, float_of (cell_at r col)) load_cols).

Definition with_totals (data : DataFrame) : DataFrame :=
  {| columns := if bool_decide (col_total ∈ columns data)
                then columns data else columns data ++ [col_total];
     rows := map (λ r : Row, <[col_total := Num (row_total r)]> r) (rows data) |}.

(** The aggregate of one entity, computed without the error plumbing. *)
Definition company_of (data : DataFrame) (key : cell) : PollutionTracer.company_row :=
  let g := group_rows data col_unit key in
  {| PollutionTracer.unit_name := key;
     PollutionTracer.total_pollution := nansum (map float_of (column_of g col_total));
     PollutionTracer.wastewater := nansum (map float_of (column_of g col_wastewater));
     PollutionTracer.outlet_type := dominant (column_of g col_outlet_type) |}.

(** ** Sample data for the examples *)

(** A sorting routine that meets the contract of [Quicksort]: the merge
    sort of stdpp, which like the default sort of pandas is not stable. *)
Program Definition merge_quicksort : Quicksort :=
  {| quicksort A R _ l := merge_sort R l |}.
Next Obligation. intros A R ? l. apply merge_sort_Permutation. Qed.
Next Obligation. intros A R ? ? ? l. by apply StronglySorted_merge_sort. Qed.

(** A parser for the examples: unsigned decimal integers. *)
Fixpoint digits_value (s : string) (acc : Z) : option Z :=
  match s with
  | EmptyString => Some acc
  | String c s' =>
      let n := Z.of_N (Ascii.N_of_ascii c) in
      if bool_decide (48 ≤ n ≤ 57)%Z then digits_value s' (10 * acc + (n - 48))%Z else None
  end.

Definition parse_digits (s : string) : option Qc :=
  match s with
  | EmptyString => None
  | _ => (λ z, Q2Qc (inject_Z z)) <$> digits_value s 0%Z
  end.

Definition sheet_columns : list string :=
  [col_lon; col_lat; col_wastewater; col_primary; col_ammonia; col_phosphorus;
   col_nitrogen; col_unit; col_outlet_type].

(** One row of the sheet. *)
Definition outlet (lon lat waste primary ammonia phosphorus nitrogen unit type : cell) : Row :=
  <[col_lon := lon]> (<[col_lat := lat]> (<[col_wastewater := waste]>
  (<[col_primary := primary]> (<[col_ammonia := ammonia]> (<[col_phosphorus := phosphorus]>
  (<[col_nitrogen := nitrogen]> (<[col_unit := unit]> (<[col_outlet_type := type]> ∅)))))))).

Definition num (a : Z) (b : positive) : cell := Num (Q2Qc (a # b)).

(** A raw sheet: three outlets at one place and one far away; unit "A"
    has two outlets of different types, unit "B" has no type at all. *)
Definition sample_raw : DataFrame :=
  {| columns := sheet_columns;
     rows := [
       outlet (Str "0") (Str "0") (Str "3") (num 1 1) (Str "n/a") (num 1 2) NaN (Str "A") (Str "b");
       outlet (num 0 1) (num 0 1) (num 1 1) (num 2 1) NaN (num 1 2) NaN (Str "A") (Str "a");
       outlet (num 0 1) (num 0 1) NaN (num 3 1) NaN (num 1 2) NaN (Str "B") NaN;
       outlet (Str "1") (num 1 1) (num 1 1) NaN NaN NaN (Str "-") (Str "C") (Str "a") ] |}.

(** The same sheet after [preprocess_data]. *)
Definition sample_data : DataFrame :=
  {| columns := sheet_columns;
     rows := [
       outlet (num 0 1) (num 0 1) (num 3 1) (num 1 1) NaN (num 1 2) NaN (Str "A") (Str "b");
       outlet (num 0 1) (num 0 1) (num 1 1) (num 2 1) NaN (num 1 2) NaN (Str "A") (Str "a");
       outlet (num 0 1) (num 0 1) NaN (num 3 1) NaN (num 1 2) NaN (Str "B") NaN;
       outlet (num 1 1) (num 1 1) (num 1 1) NaN NaN NaN NaN (Str "C") (Str "a") ] |}.

(** A sheet of [DataAnalyzer] with only some of its numeric columns. *)
Definition sample_analysis_raw : DataFrame :=
  {| columns := [DataAnalyzer.col_geo_lon; DataAnalyzer.col_geo_lat; "pH"];
     rows := [
       <[DataAnalyzer.col_geo_lon := Str "111"]>
         (<[DataAnalyzer.col_geo_lat := Str "north"]> (<["pH" := Str "7"]> ∅)) ] |}.

(** [m] is a statistical mode of the categories [cats]: it is present and
    no present category occurs more often. *)
Definition is_mode (cats : list cell) (m : cell) : Prop :=
  m ≠ NaN ∧ m ∈ cats ∧ ∀ v, v ≠ NaN → (value_count cats v ≤ value_count cats m)%nat.





(** Three outlets at one place, two of them with the same total load. *)
Definition sample_ties : DataFrame :=
  {| columns := sheet_columns;
     rows := [
       outlet (num 0 1) (num 0 1) (num 1 1) (num 2 1) NaN NaN NaN (Str "Z") (Str "a");
       outlet (num 0 1) (num 0 1) (num 1 1) (num 1 1) NaN NaN NaN (Str "X") (Str "a");
       outlet (num 0 1) (num 0 1) (num 1 1) NaN (num 1 1) NaN NaN (Str "Y") (Str "a") ] |}.

(** The order of the rows of a sorted cluster: descending total, missing
    totals last. *)
Definition total_desc (r1 r2 : Row) : Prop :=
  key_ge (float_of (cell_at r1 col_total)) (float_of (cell_at r2 col_total)).

#[global] Instance total_desc_dec : RelDecision total_desc.
Proof. intros r1 r2. unfold total_desc. apply _. Defined.







(** The coordinate matrix of a frame as floats. *)
Definition coords_matrix (data : DataFrame) : list (list (option Qc)) :=
  map (λ r : Row, [float_of (cell_at r col_lon); float_of (cell_at r col_lat)]) (rows data).


(** ** Vocabulary for the clustering *)

(** The number of records labelled noise, and the size of a cluster. *)
Definition noise_count (labels : list Z) : nat :=
  length (filter (λ l, l = (-1)%Z) labels).

Definition cluster_size (l : Z) (labels : list Z) : nat :=
  length (filter (λ x, x = l) labels).

Section DbscanSpec.

Variable is_core : nat → bool.
Variable neighborhoods : nat → list nat.
Variable n : nat.

(** Two core points, the second within reach of the first. *)
Definition core_adj (a b : nat) : Prop :=
  (a < n)%nat ∧ is_core a = true ∧ is_core b = true ∧ b ∈ neighborhoods a.

(** Density-connected: joined by a chain of core points. *)
Definition density_connected : relation nat := rtsc core_adj.

(** What holds of the labels once the clusters below [k] are complete. *)
Record clustering_inv (k : Z) (L : list Z) : Prop := {
  inv_length : length L = n;
  inv_range : ∀ i l, L !! i = Some l → l = (-1)%Z ∨ (0 ≤ l < k)%Z;
  inv_closed : ∀ u v l,
    is_core u = true → L !! u = Some l → l ≠ (-1)%Z → v ∈ neighborhoods u →
    ∃ l', L !! v = Some l' ∧ l' ≠ (-1)%Z ∧ (is_core v = true → l' = l);
  inv_border : ∀ p l,
    L !! p = Some l → l ≠ (-1)%Z → is_core p = false →
    ∃ c, is_core c = true ∧ p ∈ neighborhoods c ∧ L !! c = Some l;
  inv_connected : ∀ p q l,
    is_core p = true → is_core q = true → L !! p = Some l → L !! q = Some l →
    l ≠ (-1)%Z → density_connected p q
}.

(** What holds while cluster [k] grows from the seed [s]: [L0] are the
    labels when the growth started, [pending] the current point followed
    by the stack. *)
Record expand_inv (k : Z) (s : nat) (L0 L : list Z) (pending : list nat) : Prop := {
  exp_length : length L = n;
  exp_frame : ∀ i l, L0 !! i = Some l → l ≠ (-1)%Z → L !! i = Some l;
  exp_new : ∀ i, L0 !! i = Some (-1)%Z → L !! i = Some (-1)%Z ∨ L !! i = Some k;
  exp_seed : L !! s = Some k ∨ s ∈ pending;
  exp_pending : ∀ v, v ∈ pending →
    (v < n)%nat ∧ (v = s ∨ ∃ u, is_core u = true ∧ L !! u = Some k ∧ v ∈ neighborhoods u);
  exp_closed : ∀ u v,
    is_core u = true → L !! u = Some k → v ∈ neighborhoods u →
    L !! v ≠ Some (-1)%Z ∨ v ∈ pending;
  exp_border : ∀ p,
    L !! p = Some k → is_core p = false →
    ∃ c, is_core c = true ∧ p ∈ neighborhoods c ∧ L !! c = Some k;
  exp_connected : ∀ p, is_core p = true → L !! p = Some k → density_connected s p
}.

(** The labelling that [dbscan_inner] ends with. *)
Definition dbscan_labelling (L : list Z) : Prop :=
  (∃ k, (0 ≤ k)%Z ∧ clustering_inv k L)
  ∧ ∀ j, (j < n)%nat → is_core j = true → ∃ l, L !! j = Some l ∧ l ≠ (-1)%Z.

End DbscanSpec.


(** A record with both coordinates present. *)
Definition has_coords (r : Row) : Prop :=
  is_num (cell_at r col_lon) = true ∧ is_num (cell_at r col_lat) = true.

#[global] Instance has_coords_dec r : Decision (has_coords r).
Proof. unfold has_coords. apply _. Defined.

(** Two records at the same place. *)
Definition same_place (r1 r2 : Row) : Prop :=
  cell_at r1 col_lon = cell_at r2 col_lon ∧ cell_at r1 col_lat = cell_at r2 col_lat.

#[global] Instance same_place_dec r1 r2 : Decision (same_place r1 r2).
Proof. unfold same_place. apply _. Defined.

(** Eight outlets on a line: four close together, then one that the
    larger radius joins to them, then a core outlet with its two
    neighbours. *)
Definition outlet_at (lon : Z) : Row :=
  outlet (num lon 1) (num 0 1) (num 1 1) (num 1 1) NaN NaN NaN (Str "U") (Str "a").

Definition sample_line : DataFrame :=
  {| columns := sheet_columns;
     rows := map outlet_at [0; 1; 2; 3; 14; 24; 33; 34]%Z |}.

(** ** class [DataAnalyzer]: the analyses of the sheet

    The methods below also draw charts and write files; the embedding
    keeps the values they compute. They run on [self.data] as
    [preprocess_data] has left it. *)

Module DataAnalysis.

Definition col_province : string := "省".
Definition col_type : string := "排污口类型".
Definition col_feature : string := "排水特征-主要特征".
Definition col_discharge : string := "入河方式".
Definition col_name : string := "排污口名称".

(** [isnull] *)
Definition isnull (v : cell) : bool := negb (notna v).

(** One row of the frame that [missing_analysis] returns; the index is
    the column name. *)
Record missing_row : Type := mkMissing {
  field : string;
  missing_count : nat;
  missing_percent : option Qc
}.

Definition hundred : Qc := Q2Qc (100 # 1).

(** [(missing / len(self.data)) * 100]; on a frame without rows the
    quotient 0/0 is missing. *)
Definition percent_of (missing n : nat) : option Qc :=
  if bool_decide (n = 0%nat) then None
  else Some (Qc_of_nat missing / Qc_of_nat n * hundred).

Definition missing_analysis (data : DataFrame) : list missing_row :=
  map (λ col,
         let missing := length (filter (λ v, isnull v = true) (column_of (rows data) col)) in
         {| field := col; missing_count := missing;
            missing_percent := percent_of missing (length (rows data)) |})
      (columns data).

(** A marker that [generate_map] puts on the map: its location
    [[latitude, longitude]] and the three fields of its popup. *)
Record map_marker : Type := mkMapMarker {
  mm_lat : cell;
  mm_lon : cell;
  mm_name : cell;
  mm_type : cell;
  mm_feature : cell
}.

(** What [generate_map] does: it saves a map with markers, or prints the
    warning that no record has valid coordinates, or - the [except] branch -
    prints the error it caught. It never raises. *)
Inductive map_outcome : Type :=
  | MapSaved (markers : list map_marker)
  | NoValidData
  | MapFailed.

(** The rows that [dropna(subset=...)] keeps. *)
Definition dropna (rs : list Row) (subset : list string) : list Row :=
  filter (λ r : Row, forallb (λ col, notna (cell_at r col)) subset = true) rs.

Definition marker_of (r : Row) : map_marker :=
  {| mm_lat := cell_at r DataAnalyzer.col_geo_lat;
     mm_lon := cell_at r DataAnalyzer.col_geo_lon;
     mm_name := cell_at r col_name;
     mm_type := cell_at r col_type;
     mm_feature := cell_at r col_feature |}.

(** An absent column is a [KeyError], in [dropna] or in building the
    popup of the first marker, which the [except] branch catches. *)
Definition generate_map (data : DataFrame) : map_outcome :=
  if bool_decide (Forall (λ col, col ∈ columns data)
                         [DataAnalyzer.col_geo_lon; DataAnalyzer.col_geo_lat]) then
    match dropna (rows data) [DataAnalyzer.col_geo_lon; DataAnalyzer.col_geo_lat] with
    | [] => NoValidData
    | map_data =>
        if bool_decide (Forall (λ col, col ∈ columns data) [col_name; col_type; col_feature])
        then MapSaved (map marker_of map_data)
        else MapFailed
    end
  else MapFailed.

(** The linear interpolation of [np.percentile]: in the increasing list
    [x_0 <= ... <= x_(n-1)], the value at the position [h = (n-1) q],
    between [x_floor(h)] and the value after it. The empty list has
    none. *)
Definition interpolate (q : Qc) (sorted : list Qc) : option Qc :=
  let n := length sorted in
  let h := Qc_of_nat (n - 1) * q in
  let lo := Z.to_nat (Qfloor h) in
  let gamma := h - Q2Qc (inject_Z (Qfloor h)) in
  a ← sorted !! lo;
  b ← sorted !! (Nat.min (lo + 1) (n - 1));
  Some (a + (b - a) * gamma).

(** [Series.quantile(q)] with the default linear interpolation, on the
    present values of the column. A column without a present value has no
    quantile; text in the column is a [TypeError]. *)
Definition quantile (q : Qc) (series : list cell) : result (option Qc) :=
  xs ← mapM_result as_float series;
  mret (interpolate q (merge_sort Qcle (omap id xs))).

Definition quarter : Qc := Q2Qc (1 # 4).
Definition three_quarters : Qc := Q2Qc (3 # 4).
Definition one_and_half : Qc := Q2Qc (3 # 2).

(** [(x < lower) | (x > upper)]; a comparison with a missing value is
    false. *)
Definition is_outlier (lower upper : Qc) (v : cell) : bool :=
  match v with
  | Num x => bool_decide (x < lower) || bool_decide (upper < x)
  | _ => false
  end.

(** The body of the loop of [outlier_analysis] for one column. *)
Definition outlier_count (series : list cell) : result nat :=
  Q1 ← quantile quarter series;
  Q3 ← quantile three_quarters series;
  mret (match Q1, Q3 with
        | Some q1, Some q3 =>
            let IQR := q3 - q1 in
            length (filter (λ v, is_outlier (q1 - one_and_half * IQR)
                                            (q3 + one_and_half * IQR) v = true) series)
        | _, _ => 0%nat
        end).

(** The loop [for col in numeric_cols: if col in self.data.columns] that
    fills the dictionary [outliers]. *)
Fixpoint outliers_of (data : DataFrame) (cols : list string) : result (list (string * nat)) :=
  match cols with
  | [] => mret []
  | col :: cols' =>
      if bool_decide (col ∈ columns data) then
        series ← getitem data col;
        n ← outlier_count series;
        rest ← outliers_of data cols';
        mret ((col, n) :: rest)
      else outliers_of data cols'
  end.

(** [outlier_analysis]: the dictionary, as the list of its items in
    insertion order. The box plot that the method draws first is not part
    of the embedding. *)
Definition outlier_analysis (data : DataFrame) : result (list (string * nat)) :=
  outliers_of data DataAnalyzer.numeric_cols.


Definition by_count_desc (x y : cell * nat) : Prop := (y.2 ≤ x.2)%nat.

#[global] Instance by_count_desc_dec : RelDecision by_count_desc.
Proof. intros x y. unfold by_count_desc. apply _. Defined.




End DataAnalysis.

(** The columns that [DataAnalyzer.preprocess_data] coerces on a frame. *)
Definition analyzer_coerced (data : DataFrame) : list string :=
  filter (λ col, col ∈ columns data) DataAnalyzer.numeric_cols
  ++ [DataAnalyzer.col_geo_lon; DataAnalyzer.col_geo_lat].

(** Text that [to_numeric] does not read as a number. *)
Definition bad_text (parse_number : string → option Qc) (v : cell) : bool :=
  match v with
  | Str s => bool_decide (parse_number s = None)
  | _ => false
  end.

(** A record of the raw sheet whose two coordinates read as numbers. *)
Definition locatable (parse_number : string → option Qc) (r : Row) : Prop :=
  coerce parse_number (cell_at r DataAnalyzer.col_geo_lon) ≠ NaN
  ∧ coerce parse_number (cell_at r DataAnalyzer.col_geo_lat) ≠ NaN.

#[global] Instance locatable_dec parse_number r : Decision (locatable parse_number r).
Proof. unfold locatable. apply _. Defined.

(** A sheet of [DataAnalyzer] for the examples: four outlets in two
    provinces; the second has an unreadable longitude and the fourth no
    coordinates at all. *)
Definition survey_columns : list string :=
  [DataAnalysis.col_province; DataAnalysis.col_name; DataAnalysis.col_type;
   DataAnalysis.col_feature; DataAnalysis.col_discharge;
   DataAnalyzer.col_geo_lon; DataAnalyzer.col_geo_lat; "pH"].

Definition survey_outlet (province name type feature discharge lon lat ph : cell) : Row :=
  <[DataAnalysis.col_province := province]> (<[DataAnalysis.col_name := name]>
  (<[DataAnalysis.col_type := type]> (<[DataAnalysis.col_feature := feature]>
  (<[DataAnalysis.col_discharge := discharge]> (<[DataAnalyzer.col_geo_lon := lon]>
  (<[DataAnalyzer.col_geo_lat := lat]> (<["pH" := ph]> ∅))))))).

Definition sample_survey_raw : DataFrame :=
  {| columns := survey_columns;
     rows := [
       survey_outlet (Str "Hubei") (Str "P1") (Str "industry") (Str "cooling") (Str "pipe")
                     (Str "111") (Str "32") (Str "7");
       survey_outlet (Str "Hubei") (Str "P2") (Str "domestic") (Str "sewage") (Str "canal")
                     (Str "east") (Str "33") (num 8 1);
       survey_outlet (Str "Henan") (Str "P3") (Str "industry") (Str "sewage") NaN
                     (num 112 1) (num 33 1) NaN;
       survey_outlet (Str "Henan") (Str "P4") (Str "industry") (Str "sewage") (Str "pipe")
                     NaN NaN (Str "acid") ] |}.



(** A column of measurements: five readings, one of them far off, and a
    missing one. *)
Definition sample_readings : list cell :=
  [num 7 1; num 30 1; num 7 1; NaN; num 8 1; num 7 1].

(** ** Vocabulary: a change of unit and origin of the coordinates *)



(** * Properties *)

(** ** The error monad *)

Lemma bind_inr {A B : Type} (m : result A) (f : A → result B) (y : B) :
  m ≫= f = inr y ↔ ∃ x, m = inr x ∧ f x = inr y.
Proof.
  destruct m as [e|x]; simpl; split.
  - intros H; discriminate H.
  - intros (x & H & _); discriminate H.
  - intros H; exists x; auto.
  - intros (x' & H & Hf); injection H as ->; exact Hf.
Qed.

Lemma ret_bind {A B : Type} (x : A) (f : A → result B) : inr x ≫= f = f x.
Proof. reflexivity. Qed.

Lemma mret_bind {A B : Type} (x : A) (f : A → result B) : mret x ≫= f = f x.
Proof. reflexivity. Qed.

Lemma fmap_inr {A B : Type} (m : result A) (f : A → B) (y : B) :
  f <$> m = inr y ↔ ∃ x, m = inr x ∧ y = f x.
Proof.
  destruct m as [e|x]; simpl; split.
  - intros H; discriminate H.
  - intros (x & H & _); discriminate H.
  - intros H; injection H as <-; exists x; auto.
  - intros (x' & H & ->); injection H as ->; reflexivity.
Qed.

Lemma mapM_result_inr {A B : Type} (f : A → result B) (g : A → B) (l : list A) :
  (∀ x, x ∈ l → f x = inr (g x)) → mapM_result f l = inr (map g l).
Proof.
  induction l as [|x l IH]; intros Hf; simpl; [reflexivity|].
  rewrite (Hf x) by left. simpl.
  rewrite IH; [reflexivity|]. intros y Hy. apply Hf. right. exact Hy.
Qed.

Lemma mapM_result_length {A B : Type} (f : A → result B) (l : list A) (l' : list B) :
  mapM_result f l = inr l' → length l' = length l.
Proof.
  revert l'. induction l as [|x l IH]; intros l' H; simpl in H.
  - injection H as <-. reflexivity.
  - apply bind_inr in H as (y & _ & H). apply bind_inr in H as (ys & Hys & H).
    injection H as <-. simpl. f_equal. apply IH. exact Hys.
Qed.

Lemma mapM_result_lookup {A B : Type} (f : A → result B) (l : list A) (l' : list B) i x :
  mapM_result f l = inr l' → l !! i = Some x → ∃ y, l' !! i = Some y ∧ f x = inr y.
Proof.
  revert l' i. induction l as [|a l IH]; intros l' i H Hi; [discriminate Hi|].
  simpl in H. apply bind_inr in H as (y & Hy & H). apply bind_inr in H as (ys & Hys & H).
  injection H as <-. destruct i as [|i]; simpl in *.
  - injection Hi as ->. eauto.
  - eapply IH; eauto.
Qed.

(** ** Preprocessing *)

Section Preprocess.

Variable parse_number : string → option Qc.

Lemma coerce_idemp v : coerce parse_number (coerce parse_number v) = coerce parse_number v.
Proof. destruct v as [q|s|]; simpl; try reflexivity. destruct (parse_number s); reflexivity. Qed.

Lemma zip_with_map_r {A B C : Type} (f : A → B → C) (g : A → B) (l : list A) :
  zip_with f l (map g l) = map (λ x, f x (g x)) l.
Proof. induction l as [|x l IH]; simpl; [reflexivity|]. f_equal. exact IH. Qed.

Lemma coerce_column_present df col :
  col ∈ columns df →
  coerce_column parse_number df col
  = inr {| columns := columns df; rows := map (coerce_cells parse_number [col]) (rows df) |}.
Proof.
  intros Hin. unfold coerce_column, getitem, setitem, to_numeric.
  rewrite bool_decide_eq_true_2 by exact Hin. simpl.
  rewrite !length_map, bool_decide_eq_true_2 by reflexivity.
  unfold mret, result_ret. do 2 f_equal.
  rewrite map_map. apply zip_with_map_r.
Qed.

Lemma coerce_columns_present cols : ∀ df,
  Forall (λ col, col ∈ columns df) cols →
  coerce_columns parse_number df cols
  = inr {| columns := columns df; rows := map (coerce_cells parse_number cols) (rows df) |}.
Proof.
  induction cols as [|col cols IH]; intros df Hall; simpl.
  - destruct df as [cs rs]; simpl. unfold coerce_cells; simpl. by rewrite map_id.
  - apply Forall_cons in Hall as [Hcol Hall].
    rewrite (coerce_column_present _ _ Hcol). simpl.
    rewrite IH by exact Hall. simpl. by rewrite map_map.
Qed.

Lemma coerce_present_filter cols : ∀ df,
  coerce_present parse_number df cols
  = inr {| columns := columns df;
           rows := map (coerce_cells parse_number
                          (filter (λ col, col ∈ columns df) cols)) (rows df) |}.
Proof.
  induction cols as [|col cols IH]; intros df; simpl.
  - destruct df as [cs rs]; simpl. unfold coerce_cells; simpl. by rewrite map_id.
  - rewrite filter_cons. case_bool_decide as Hcol.
    + rewrite decide_True by exact Hcol.
      rewrite (coerce_column_present _ _ Hcol). simpl.
      rewrite IH. simpl. by rewrite map_map.
    + rewrite decide_False by exact Hcol. apply IH.
Qed.

Lemma coerce_cells_lookup cols : ∀ (r : Row) col,
  coerce_cells parse_number cols r !! col
  = if decide (col ∈ cols) then Some (coerce parse_number (cell_at r col)) else r !! col.
Proof.
  induction cols as [|c cols IH]; intros r col.
  - rewrite decide_False by apply not_elem_of_nil. reflexivity.
  - unfold coerce_cells in *. simpl. rewrite IH. clear IH.
    destruct (decide (col = c)) as [->|Hne].
    + rewrite (decide_True (P := c ∈ c :: cols)) by left.
      unfold cell_at at 1. rewrite lookup_insert_eq. simpl.
      destruct (decide (c ∈ cols)); [by rewrite coerce_idemp|reflexivity].
    + unfold cell_at at 1. rewrite lookup_insert_ne by done.
      destruct (decide (col ∈ cols)) as [Hin|Hnin].
      * rewrite decide_True by (by right). reflexivity.
      * rewrite decide_False by (rewrite elem_of_cons; tauto).
        reflexivity.
Qed.

End Preprocess.


(** Two column names that differ. *)
Ltac col_neq := let Hcol := fresh in intros Hcol; vm_compute in Hcol; discriminate Hcol.

(** ** Reductions on float columns *)

Lemma as_float_ok v : is_str v = false → as_float v = inr (float_of v).
Proof. destruct v; simpl; intros H; [reflexivity|discriminate H|reflexivity]. Qed.

Lemma series_sum_ok (l : list cell) :
  Forall (λ v, is_str v = false) l → series_sum l = inr (nansum (map float_of l)).
Proof.
  intros Hl. unfold series_sum.
  rewrite (mapM_result_inr as_float float_of); [reflexivity|].
  intros v Hv. apply as_float_ok. rewrite Forall_forall in Hl. by apply Hl.
Qed.

Lemma check_columns_ok df cols :
  Forall (λ col, col ∈ columns df) cols → check_columns df cols = inr ().
Proof.
  induction cols as [|col cols IH]; intros Hall; simpl; [reflexivity|].
  apply Forall_cons in Hall as [Hcol Hall].
  rewrite bool_decide_eq_true_2 by exact Hcol. by apply IH.
Qed.

Lemma values_ok df cols :
  Forall (λ col, col ∈ columns df) cols →
  values df cols = inr (map (λ r : Row, map (cell_at r) cols) (rows df)).
Proof. intros Hall. unfold values. by rewrite check_columns_ok. Qed.

Lemma getitem_ok df col :
  col ∈ columns df → getitem df col = inr (column_of (rows df) col).
Proof. intros Hin. unfold getitem. by rewrite bool_decide_eq_true_2. Qed.

Lemma setitem_map df col (f : Row → cell) :
  setitem df col (map f (rows df))
  = inr {| columns := if bool_decide (col ∈ columns df)
                      then columns df else columns df ++ [col];
           rows := map (λ r : Row, <[col := f r]> r) (rows df) |}.
Proof.
  unfold setitem. rewrite length_map, bool_decide_eq_true_2 by reflexivity.
  unfold mret, result_ret. do 2 f_equal.
  induction (rows df) as [|r rs IH]; simpl; [reflexivity|]. by rewrite IH.
Qed.

Lemma numeric_column_cell data col (r : Row) :
  numeric_column data col → r ∈ rows data → is_str (cell_at r col) = false.
Proof. intros [_ Hall] Hr. rewrite Forall_forall in Hall. by apply Hall. Qed.

(** ** [pollution_analysis] *)

Section PollutionAnalysis.

Context `{Quicksort}.
Import PollutionTracer.

Lemma columns_with_totals data col : col ∈ columns data → col ∈ columns (with_totals data).
Proof.
  intros Hin. unfold with_totals; simpl. case_bool_decide; [exact Hin|].
  apply elem_of_app. by left.
Qed.

Lemma col_total_with_totals data : col_total ∈ columns (with_totals data).
Proof.
  unfold with_totals; simpl. case_bool_decide as Hin; [exact Hin|].
  apply elem_of_app. right. by left.
Qed.

Lemma cell_at_with_totals (r : Row) col :
  col ≠ col_total → cell_at (<[col_total := Num (row_total r)]> r) col = cell_at r col.
Proof. intros Hne. unfold cell_at. by rewrite lookup_insert_ne. Qed.

Lemma group_rows_with_totals data key :
  group_rows (with_totals data) col_unit key
  = map (λ r : Row, <[col_total := Num (row_total r)]> r) (group_rows data col_unit key).
Proof.
  unfold group_rows, with_totals; simpl.
  induction (rows data) as [|r rs IH]; simpl; [reflexivity|].
  rewrite !filter_cons. rewrite cell_at_with_totals by col_neq.
  destruct (decide (cell_at r col_unit = key)); simpl; by rewrite IH.
Qed.

Lemma company_agg_ok data key :
  numeric_column data col_wastewater →
  company_agg (with_totals data) key = inr (company_of (with_totals data) key).
Proof.
  intros Hw. unfold company_agg, company_of.
  rewrite !series_sum_ok; [reflexivity| |].
  - rewrite group_rows_with_totals. unfold column_of.
    rewrite map_map. apply Forall_forall. intros v Hv.
    apply list_elem_of_fmap in Hv as (r & -> & Hr).
    unfold cell_at. rewrite lookup_insert_eq. reflexivity.
  - rewrite group_rows_with_totals. unfold column_of.
    rewrite map_map. apply Forall_forall. intros v Hv.
    apply list_elem_of_fmap in Hv as (r & -> & Hr).
    rewrite cell_at_with_totals by col_neq.
    apply (numeric_column_cell data); [exact Hw|].
    apply list_elem_of_filter in Hr. tauto.
Qed.

Lemma pollution_analysis_inr data :
  Forall (numeric_column data) (col_wastewater :: load_cols) →
  col_unit ∈ columns data → col_outlet_type ∈ columns data →
  pollution_analysis data
  = inr (with_totals data,
         quicksort by_total_desc
           (map (company_of (with_totals data))
                (group_keys (column_of (rows (with_totals data)) col_unit)))).
Proof.
  intros Hnum Hunit Htype.
  apply Forall_cons in Hnum as [Hw Hloads].
  assert (Hcols : Forall (λ col, col ∈ columns data) load_cols).
  { eapply Forall_impl; [exact Hloads|]. by intros col [Hc _]. }
  unfold pollution_analysis.
  change [col_primary; col_ammonia; col_phosphorus; col_nitrogen] with load_cols.
  rewrite values_ok, ret_bind by exact Hcols.
  assert (Hsum : sum_axis1 (map (λ r : Row, map (cell_at r) load_cols) (rows data))
                 = inr (map row_total (rows data))).
  { unfold sum_axis1. rewrite (mapM_result_inr _ (λ row, nansum (map float_of row))).
    - by rewrite map_map.
    - intros row Hrow. apply list_elem_of_fmap in Hrow as (r & -> & Hr).
      apply series_sum_ok. rewrite Forall_fmap.
      eapply Forall_impl; [exact Hloads|]. intros col Hcol; simpl.
      by apply (numeric_column_cell data). }
  rewrite Hsum, ret_bind. rewrite map_map.
  rewrite (setitem_map data col_total (λ r, Num (row_total r))), ret_bind.
  fold (with_totals data).
  rewrite getitem_ok, ret_bind by (by apply columns_with_totals).
  rewrite check_columns_ok, ret_bind.
  2:{ repeat apply Forall_cons; split; auto using col_total_with_totals, columns_with_totals.
      destruct Hw as [Hw _]. auto using columns_with_totals. }
  rewrite (mapM_result_inr _ (company_of (with_totals data))); [reflexivity|].
  intros key _. by apply company_agg_ok.
Qed.

End PollutionAnalysis.

(** ** What preprocessing establishes *)

Section PreprocessNumeric.

Variable parse_number : string → option Qc.

Lemma coerce_not_str v : is_str (coerce parse_number v) = false.
Proof. destruct v as [q|s|]; simpl; try reflexivity. by destruct (parse_number s). Qed.

Lemma coerce_column_inr df col df' :
  coerce_column parse_number df col = inr df' → col ∈ columns df.
Proof.
  unfold coerce_column, getitem. case_bool_decide as Hin; [by intros _|].
  intros Hf; discriminate Hf.
Qed.

Lemma coerce_columns_inr cols : ∀ df df',
  coerce_columns parse_number df cols = inr df' → Forall (λ col, col ∈ columns df) cols.
Proof.
  induction cols as [|col cols IH]; intros df df' Hok; [constructor|].
  simpl in Hok. apply bind_inr in Hok as (df1 & H1 & Hok).
  pose proof (coerce_column_inr _ _ _ H1) as Hcol.
  rewrite coerce_column_present in H1 by exact Hcol. injection H1 as <-.
  constructor; [exact Hcol|]. apply (IH _ _ Hok).
Qed.

Lemma preprocess_data_inr raw data :
  PollutionTracer.preprocess_data parse_number raw = inr data →
  data = {| columns := columns raw;
            rows := map (coerce_cells parse_number
                           (col_lon :: col_lat :: PollutionTracer.pollution_cols))
                        (rows raw) |}.
Proof.
  intros Hok.
  assert (Hall : Forall (λ col, col ∈ columns raw)
                   (col_lon :: col_lat :: PollutionTracer.pollution_cols)).
  { unfold PollutionTracer.preprocess_data in Hok.
    apply bind_inr in Hok as (d1 & H1 & Hok). apply bind_inr in Hok as (d2 & H2 & Hok).
    pose proof (coerce_column_inr _ _ _ H1) as Hlon.
    rewrite coerce_column_present in H1 by exact Hlon. injection H1 as <-.
    pose proof (coerce_column_inr _ _ _ H2) as Hlat.
    rewrite coerce_column_present in H2 by exact Hlat. injection H2 as <-.
    apply coerce_columns_inr in Hok.
    constructor; [exact Hlon|constructor; [exact Hlat|exact Hok]]. }
  change (col_lon :: col_lat :: PollutionTracer.pollution_cols)
    with ([col_lon; col_lat] ++ PollutionTracer.pollution_cols) in *.
  apply Forall_app in Hall as [H2 Hp].
  apply Forall_cons in H2 as [Hlon H2]. apply Forall_cons in H2 as [Hlat _].
  unfold PollutionTracer.preprocess_data in Hok.
  rewrite (coerce_column_present _ _ _ Hlon), ret_bind in Hok.
  rewrite coerce_column_present, ret_bind in Hok by exact Hlat.
  rewrite coerce_columns_present in Hok by exact Hp. simpl in Hok.
  injection Hok as <-. by rewrite !map_map.
Qed.

Lemma preprocess_data_numeric raw data col :
  PollutionTracer.preprocess_data parse_number raw = inr data →
  col ∈ col_lon :: col_lat :: PollutionTracer.pollution_cols →
  numeric_column data col.
Proof.
  intros Hok Hcol.
  assert (Hin : col ∈ columns raw).
  { unfold PollutionTracer.preprocess_data in Hok.
    apply bind_inr in Hok as (d1 & H1 & Hok). apply bind_inr in Hok as (d2 & H2 & Hok).
    pose proof (coerce_column_inr _ _ _ H1) as Hlon.
    rewrite coerce_column_present in H1 by exact Hlon. injection H1 as <-.
    pose proof (coerce_column_inr _ _ _ H2) as Hlat.
    rewrite coerce_column_present in H2 by exact Hlat. injection H2 as <-.
    apply coerce_columns_inr in Hok. simpl in Hok.
    apply elem_of_cons in Hcol as [->|Hcol]; [exact Hlon|].
    apply elem_of_cons in Hcol as [->|Hcol]; [exact Hlat|].
    rewrite Forall_forall in Hok. by apply Hok. }
  rewrite (preprocess_data_inr _ _ Hok). split; [exact Hin|]. simpl.
  rewrite Forall_fmap. apply Forall_forall. intros r _. simpl.
  unfold cell_at. rewrite coerce_cells_lookup, decide_True by exact Hcol.
  simpl. apply coerce_not_str.
Qed.

Lemma preprocess_data_other raw data col :
  PollutionTracer.preprocess_data parse_number raw = inr data →
  col ∉ col_lon :: col_lat :: PollutionTracer.pollution_cols →
  (col ∈ columns data ↔ col ∈ columns raw)
  ∧ column_of (rows data) col = column_of (rows raw) col.
Proof.
  intros Hok Hcol. rewrite (preprocess_data_inr _ _ Hok). simpl. split; [reflexivity|].
  unfold column_of. rewrite map_map. apply map_ext. intros r.
  unfold cell_at. by rewrite coerce_cells_lookup, decide_False.
Qed.

End PreprocessNumeric.

Lemma preprocess_sample_raw :
  PollutionTracer.preprocess_data parse_digits sample_raw = inr sample_data.
Proof. vm_compute. reflexivity. Qed.

(** Closed decidable facts, by evaluation. *)
Ltac by_compute := refine (bool_decide_unpack _ _); vm_compute; exact I.

Lemma load_or_zero_float v : default 0 (float_of v) = load_or_zero v.
Proof. by destruct v. Qed.

(** C1. After [pollution_analysis], the [total_pollution] cell of every
    record is the sum of its four pollutant loads, a missing load counting
    as 0; with all four missing it is 0. *)
Theorem total_pollution_is_sum_of_loads `{Quicksort} (parse_number : string → option Qc)
    (raw data : DataFrame) :
  PollutionTracer.preprocess_data parse_number raw = inr data →
  col_unit ∈ columns raw → col_outlet_type ∈ columns raw →
  ∃ data' stats,
    PollutionTracer.pollution_analysis data = inr (data', stats)
    ∧ length (rows data') = length (rows data)
    ∧ ∀ i (r : Row), rows data !! i = Some r →
        ∃ r' : Row, rows data' !! i = Some r'
          ∧ r' !! col_total
            = Some (Num (load_or_zero (cell_at r col_primary)
                         + load_or_zero (cell_at r col_ammonia)
                         + load_or_zero (cell_at r col_phosphorus)
                         + load_or_zero (cell_at r col_nitrogen)))
          ∧ (cell_at r col_primary = NaN → cell_at r col_ammonia = NaN →
             cell_at r col_phosphorus = NaN → cell_at r col_nitrogen = NaN →
             r' !! col_total = Some (Num 0)).
Proof.
  intros Hpre Hunit Htype.
  assert (Hnum : Forall (numeric_column data) (col_wastewater :: load_cols)).
  { apply Forall_forall. intros col Hcol.
    apply (preprocess_data_numeric parse_number raw); [exact Hpre|].
    revert Hcol. unfold load_cols, PollutionTracer.pollution_cols.
    rewrite !elem_of_cons. tauto. }
  assert (Hoth : ∀ col, col ∉ col_lon :: col_lat :: PollutionTracer.pollution_cols →
                        col ∈ columns raw → col ∈ columns data).
  { intros col Hcol Hin. by apply (preprocess_data_other parse_number raw data col Hpre Hcol). }
  exists (with_totals data). eexists. split; [|split].
  - apply pollution_analysis_inr; [exact Hnum| |]; (apply Hoth; [by_compute|assumption]).
  - simpl. apply length_map.
  - intros i r Hi. simpl. rewrite list_lookup_fmap, Hi. simpl.
    eexists; split; [reflexivity|].
    assert (Htot : row_total r
                   = load_or_zero (cell_at r col_primary) + load_or_zero (cell_at r col_ammonia)
                     + load_or_zero (cell_at r col_phosphorus)
                     + load_or_zero (cell_at r col_nitrogen)).
    { unfold row_total, nansum, load_cols. simpl. rewrite !load_or_zero_float. ring. }
    split.
    + rewrite lookup_insert_eq. by rewrite Htot.
    + intros H1 H2 H3 H4. rewrite lookup_insert_eq, Htot, H1, H2, H3, H4.
      reflexivity.
Qed.

Lemma total_pollution_is_sum_of_loads_witness :
  ∃ data' stats,
    @PollutionTracer.pollution_analysis merge_quicksort sample_data = inr (data', stats)
    ∧ length (rows data') = length (rows sample_data)
    ∧ ∀ i (r : Row), rows sample_data !! i = Some r →
        ∃ r' : Row, rows data' !! i = Some r'
          ∧ r' !! col_total
            = Some (Num (load_or_zero (cell_at r col_primary)
                         + load_or_zero (cell_at r col_ammonia)
                         + load_or_zero (cell_at r col_phosphorus)
                         + load_or_zero (cell_at r col_nitrogen)))
          ∧ (cell_at r col_primary = NaN → cell_at r col_ammonia = NaN →
             cell_at r col_phosphorus = NaN → cell_at r col_nitrogen = NaN →
             r' !! col_total = Some (Num 0)).
Proof.
  apply (@total_pollution_is_sum_of_loads merge_quicksort parse_digits sample_raw sample_data).
  - vm_compute. reflexivity.
  - by_compute.
  - by_compute.
Defined.

(** ** Order of cells *)

#[global] Instance cell_le_trans : Transitive cell_le.
Proof.
  intros [a|s|] [b|t|] [c|u|]; simpl; try tauto.
  - apply Qcle_trans.
  - intros H1 H2. by etrans.
Qed.

#[global] Instance cell_le_total : Total cell_le.
Proof.
  intros [a|s|] [b|t|]; simpl; try tauto.
  - apply (total Qcle).
  - apply (total String.le).
Qed.

(** ** Unique values and group keys *)

Lemma elem_of_unique (l : list cell) x : x ∈ unique l ↔ x ∈ l.
Proof.
  induction l as [|y l IH]; simpl; [reflexivity|].
  rewrite !elem_of_cons, list_elem_of_filter, IH.
  destruct (decide (x = y)); tauto.
Qed.

Lemma NoDup_unique (l : list cell) : NoDup (unique l).
Proof.
  induction l as [|y l IH]; simpl; constructor.
  - rewrite list_elem_of_filter. tauto.
  - by apply NoDup_filter.
Qed.

Lemma elem_of_group_keys (keys : list cell) x :
  x ∈ group_keys keys ↔ x ∈ keys ∧ x ≠ NaN.
Proof.
  unfold group_keys. rewrite merge_sort_Permutation, elem_of_unique, list_elem_of_filter.
  destruct x; simpl; split; intros [H1 H2]; split; try done.
Qed.

(** ** Modes *)

Lemma value_count_notna (series : list cell) v :
  v ≠ NaN → value_count (filter (λ v, notna v = true) series) v = value_count series v.
Proof.
  intros Hv. unfold value_count. rewrite list_filter_filter. f_equal.
  apply list_filter_iff. intros y. split; [tauto|].
  intros ->. split; [reflexivity|]. by destruct v.
Qed.

Lemma value_count_pos (vals : list cell) v : v ∈ vals → (0 < value_count vals v)%nat.
Proof.
  intros Hv. unfold value_count.
  assert (Hin : v ∈ filter (λ y, y = v) vals) by (by apply list_elem_of_filter).
  destruct (filter (λ y, y = v) vals); [by apply elem_of_nil in Hin|simpl; lia].
Qed.

Lemma elem_of_modes_unsorted (series : list cell) m :
  m ∈ modes_unsorted series ↔ is_mode series m.
Proof.
  unfold modes_unsorted, is_mode.
  set (vals := filter (λ v, notna v = true) series).
  rewrite list_elem_of_filter, elem_of_unique.
  assert (Hvals : ∀ v, v ∈ vals ↔ v ≠ NaN ∧ v ∈ series).
  { intros v. unfold vals. rewrite list_elem_of_filter.
    destruct v; simpl; split; intros [H1 H2]; split; done. }
  split.
  - intros [Htop Hm]. apply Hvals in Hm as Hm'. destruct Hm' as [Hna Hin].
    split; [exact Hna|split; [exact Hin|]]. intros v Hv.
    rewrite <- (value_count_notna series v), <- (value_count_notna series m) by assumption.
    fold vals.
    destruct (decide (v ∈ vals)) as [Hv'|Hv'].
    + rewrite Htop. apply max_list_elem_of_le.
      apply list_elem_of_fmap. exists v. by rewrite elem_of_unique.
    + assert (value_count vals v = 0%nat) as ->; [|lia].
      unfold value_count. destruct (filter (λ y, y = v) vals) as [|y l] eqn:Hf; [done|].
      exfalso. apply Hv'. assert (Hy : y ∈ filter (λ y, y = v) vals) by (rewrite Hf; left).
      apply list_elem_of_filter in Hy as [-> Hy]. exact Hy.
  - intros (Hna & Hin & Hmax).
    assert (Hm : m ∈ vals) by (by apply Hvals). split; [|exact Hm].
    apply Nat.le_antisymm.
    + apply max_list_elem_of_le. apply list_elem_of_fmap. exists m. by rewrite elem_of_unique.
    + assert (Hne : map (value_count vals) (unique vals) ≠ []).
      { intros Hnil. apply fmap_nil_inv in Hnil.
        apply elem_of_unique in Hm. rewrite Hnil in Hm. by apply elem_of_nil in Hm. }
      apply max_list_elem_of in Hne. apply list_elem_of_fmap in Hne as (v & -> & Hv).
      apply elem_of_unique, Hvals in Hv as [Hv _].
      unfold vals. rewrite !value_count_notna by assumption. by apply Hmax.
Qed.

Lemma modes_unsorted_nonempty (series : list cell) v :
  v ∈ series → v ≠ NaN → modes_unsorted series ≠ [].
Proof.
  intros Hin Hna. unfold modes_unsorted.
  set (vals := filter (λ v, notna v = true) series).
  assert (Hv : v ∈ unique vals).
  { apply elem_of_unique. unfold vals. apply list_elem_of_filter. by destruct v. }
  assert (Hne : map (value_count vals) (unique vals) ≠ []).
  { intros Hnil. apply fmap_nil_inv in Hnil. rewrite Hnil in Hv. by apply elem_of_nil in Hv. }
  apply max_list_elem_of in Hne. apply list_elem_of_fmap in Hne as (k & Hk & Hkin).
  intros Hnil. by apply (filter_nil_not_elem_of _ _ k Hnil).
Qed.

Lemma mode_Permutation (series : list cell) : mode series ≡ₚ modes_unsorted series.
Proof. unfold mode. destruct (sortable _); [apply merge_sort_Permutation|reflexivity]. Qed.


Lemma dominant_None (series : list cell) :
  dominant series = None ↔ Forall (λ v, v = NaN) series.
Proof.
  unfold dominant. split.
  - destruct (mode series) as [|x l] eqn:Hmode; [|discriminate]. intros _.
    apply Forall_forall. intros v Hv. destruct (decide (v = NaN)) as [|Hna]; [done|].
    exfalso. apply (modes_unsorted_nonempty series v Hv Hna).
    apply Permutation_nil_r. by rewrite <- mode_Permutation, Hmode.
  - intros Hall. destruct (mode series) as [|x l] eqn:Hmode; [reflexivity|].
    assert (Hx : is_mode series x).
    { apply elem_of_modes_unsorted. rewrite <- mode_Permutation, Hmode. left. }
    destruct Hx as (Hna & Hin & _). rewrite Forall_forall in Hall. by apply Hall in Hin.
Qed.



(** ** The entity aggregates *)

Section EntityAggregates.

Context `{Quicksort}.
Import PollutionTracer.

Lemma column_of_with_totals data col :
  col ≠ col_total → column_of (rows (with_totals data)) col = column_of (rows data) col.
Proof.
  intros Hne. unfold column_of, with_totals; simpl. rewrite map_map.
  apply map_ext. intros r. by apply cell_at_with_totals.
Qed.

Lemma column_of_group_with_totals data key col :
  col ≠ col_total →
  column_of (group_rows (with_totals data) col_unit key) col
  = column_of (group_rows data col_unit key) col.
Proof.
  intros Hne. rewrite group_rows_with_totals. unfold column_of. rewrite map_map.
  apply map_ext. intros r. by apply cell_at_with_totals.
Qed.

(** Every entity named in the frame has its row in [company_stats]. *)
Lemma company_stats_entity data e :
  Forall (numeric_column data) (col_wastewater :: load_cols) →
  col_unit ∈ columns data → col_outlet_type ∈ columns data →
  e ≠ NaN → e ∈ column_of (rows data) col_unit →
  ∃ data' stats c,
    pollution_analysis data = inr (data', stats)
    ∧ c ∈ stats ∧ unit_name c = e
    ∧ outlet_type c = dominant (column_of (group_rows data col_unit e) col_outlet_type).
Proof.
  intros Hnum Hunit Htype Hna He.
  eexists _, _, (company_of (with_totals data) e).
  split; [by apply pollution_analysis_inr|]. split; [|split].
  - rewrite quicksort_Permutation. apply list_elem_of_fmap. exists e. split; [reflexivity|].
    apply elem_of_group_keys. split; [|exact Hna].
    by rewrite column_of_with_totals by col_neq.
  - reflexivity.
  - simpl. by rewrite column_of_group_with_totals by col_neq.
Qed.

End EntityAggregates.

(** C10. An entity all of whose records miss the outlet type still gets
    its row in [company_stats], with [None] for the dominant outlet type. *)
Theorem entity_without_outlet_type_gets_None `{Quicksort} (data : DataFrame) (e : cell) :
  Forall (numeric_column data) (col_wastewater :: load_cols) →
  col_unit ∈ columns data → col_outlet_type ∈ columns data →
  e ≠ NaN → e ∈ column_of (rows data) col_unit →
  (∀ r : Row, r ∈ rows data → cell_at r col_unit = e → cell_at r col_outlet_type = NaN) →
  ∃ data' stats c,
    PollutionTracer.pollution_analysis data = inr (data', stats)
    ∧ c ∈ stats ∧ PollutionTracer.unit_name c = e ∧ PollutionTracer.outlet_type c = None.
Proof.
  intros Hnum Hunit Htype Hna He Hmissing.
  destruct (company_stats_entity data e Hnum Hunit Htype Hna He)
    as (data' & stats & c & Hok & Hc & Hname & Hdom).
  exists data', stats, c. repeat split; try assumption.
  rewrite Hdom. apply dominant_None. apply Forall_forall. intros v Hv.
  apply list_elem_of_fmap in Hv as (r & -> & Hr).
  apply list_elem_of_filter in Hr as [Hkey Hr]. by apply Hmissing.
Qed.

Lemma entity_without_outlet_type_gets_None_witness :
  ∃ data' stats c,
    @PollutionTracer.pollution_analysis merge_quicksort sample_data = inr (data', stats)
    ∧ c ∈ stats ∧ PollutionTracer.unit_name c = Str "B" ∧ PollutionTracer.outlet_type c = None.
Proof.
  apply (@entity_without_outlet_type_gets_None merge_quicksort sample_data (Str "B")).
  - by_compute.
  - by_compute.
  - by_compute.
  - discriminate.
  - by_compute.
  - intros r Hr Hunit.
    assert (Hall : Forall (λ r : Row, cell_at r col_unit = Str "B" → cell_at r col_outlet_type = NaN)
                     (rows sample_data)) by by_compute.
    rewrite Forall_forall in Hall. by apply Hall.
Defined.








(** ** Sorting by key *)

#[global] Instance key_ge_trans : Transitive key_ge.
Proof.
  intros [a|] [b|] [c|]; simpl; try tauto. intros H1 H2. by etrans.
Qed.

#[global] Instance key_ge_total : Total key_ge.
Proof. intros [a|] [b|]; simpl; try tauto. apply (total Qcle). Qed.

#[global] Instance by_key_desc_trans {A : Type} : Transitive (@by_key_desc A).
Proof. intros x y z. unfold by_key_desc. apply key_ge_trans. Qed.

#[global] Instance by_key_desc_total {A : Type} : Total (@by_key_desc A).
Proof. intros x y. unfold by_key_desc. apply key_ge_total. Qed.




Section SortValues.

Context `{Quicksort}.


End SortValues.


(** ** The cluster aggregates *)

Section ClusterAggregates.

Context `{Quicksort}.
Import PollutionTracer.


End ClusterAggregates.




Lemma mapM_result_elem_of {A B : Type} (f : A → result B) (l : list A) (ys : list B) x :
  mapM_result f l = inr ys → x ∈ l → ∃ y, y ∈ ys ∧ f x = inr y.
Proof.
  intros Hok Hx. apply list_elem_of_lookup in Hx as [i Hi].
  destruct (mapM_result_lookup f l ys i x Hok Hi) as (y & Hy & Hf).
  exists y. split; [|exact Hf]. apply list_elem_of_lookup. by exists i.
Qed.

(** The summary table of section 2.1 has a row for every label that occurs
    in the [cluster] column, the noise label included. *)
Lemma cluster_info_table_has_every_label (data : DataFrame) info (l : Z) :
  PollutionTracer.cluster_info_table data = inr info →
  PollutionTracer.cell_of_label l ∈ column_of (rows data) col_cluster →
  ∃ row, row ∈ info ∧ PollutionTracer.ci_cluster row = PollutionTracer.cell_of_label l.
Proof.
  intros Hok Hl. unfold PollutionTracer.cluster_info_table in Hok.
  apply bind_inr in Hok as (labels & Hlabels & Hok).
  apply bind_inr in Hok as (u & _ & Hok).
  unfold getitem in Hlabels. case_bool_decide; [|discriminate Hlabels].
  injection Hlabels as <-.
  destruct (mapM_result_elem_of _ _ _ (PollutionTracer.cell_of_label l) Hok) as (row & Hrow & Hagg).
  { apply elem_of_group_keys. split; [exact Hl|discriminate]. }
  exists row. split; [exact Hrow|].
  unfold PollutionTracer.cluster_info_agg in Hagg.
  apply bind_inr in Hagg as (total & _ & Hagg). by injection Hagg as <-.
Qed.

(** The detail loop of section 2.2 and the map skip the noise label. *)
Lemma cluster_details_skip_noise `{Quicksort} (data : DataFrame) (clusters : list Z) dets :
  PollutionTracer.cluster_details data clusters = inr dets →
  Forall (λ d, PollutionTracer.cluster_id d ≠ (-1)%Z ∧ PollutionTracer.cluster_id d ∈ clusters)
         dets.
Proof.
  unfold PollutionTracer.cluster_details. intros Hok.
  apply Forall_forall. intros d Hd. apply list_elem_of_lookup in Hd as [i Hi].
  destruct (filter (λ cid, cid ≠ (-1)%Z) (np_unique clusters) !! i) as [cid|] eqn:Hcid.
  - destruct (mapM_result_lookup _ _ _ i cid Hok Hcid) as (d' & Hd' & Hdet).
    rewrite Hi in Hd'. injection Hd' as <-.
    unfold PollutionTracer.cluster_detail_of in Hdet.
    apply bind_inr in Hdet as (total & _ & Hdet). apply bind_inr in Hdet as (sorted & _ & Hdet).
    injection Hdet as <-. simpl.
    apply list_elem_of_lookup_2, list_elem_of_filter in Hcid as [Hne Hin].
    split; [exact Hne|]. unfold np_unique in Hin.
    by rewrite merge_sort_Permutation, elem_of_remove_dups in Hin.
  - apply lookup_ge_None in Hcid. apply mapM_result_length in Hok.
    apply lookup_lt_Some in Hi. lia.
Qed.

(** C5, evaluated. On the sample (three outlets in cluster 0, one noise
    outlet) the table [cluster_info] of the report has a row for the label
    -1, counting the noise outlet, while the detail list and the map markers
    have cluster 0 only. *)
Theorem cluster_info_keeps_the_noise_group :
  ∃ final report,
    @PollutionTracer.generate_trace_report merge_quicksort sample_data = inr (final, report)
    ∧ column_of (rows final) col_cluster
      = map PollutionTracer.cell_of_label [0; 0; 0; -1]%Z
    ∧ map (λ row, (PollutionTracer.ci_cluster row, PollutionTracer.ci_count row))
          (PollutionTracer.cluster_info report)
      = [(PollutionTracer.cell_of_label (-1), 1%nat); (PollutionTracer.cell_of_label 0, 3%nat)]
    ∧ map PollutionTracer.cluster_id (PollutionTracer.details report) = [0%Z]
    ∧ map PollutionTracer.cm_cluster (PollutionTracer.markers report) = [0%Z].
Proof.
  assert (Hrun :
    (λ out : DataFrame * PollutionTracer.trace_report,
       (column_of (rows out.1) col_cluster,
        map (λ row, (PollutionTracer.ci_cluster row, PollutionTracer.ci_count row))
            (PollutionTracer.cluster_info out.2),
        map PollutionTracer.cluster_id (PollutionTracer.details out.2),
        map PollutionTracer.cm_cluster (PollutionTracer.markers out.2)))
    <$> @PollutionTracer.generate_trace_report merge_quicksort sample_data
    = inr (map PollutionTracer.cell_of_label [0; 0; 0; -1]%Z,
           [(PollutionTracer.cell_of_label (-1), 1%nat);
            (PollutionTracer.cell_of_label 0, 3%nat)],
           [0%Z], [0%Z])) by (vm_compute; reflexivity).
  destruct (@PollutionTracer.generate_trace_report merge_quicksort sample_data)
    as [e|[final report]]; [discriminate Hrun|].
  cbn [fmap result_fmap fst snd] in Hrun. injection Hrun as H1 H2 H3 H4.
  exists final, report. split; [reflexivity|]. repeat split; assumption.
Qed.

(** ** Clustering: the input checks *)

Lemma as_float_inr v f : as_float v = inr f → f = float_of v.
Proof. destruct v; simpl; intros Hf; try discriminate Hf; by injection Hf as <-. Qed.

Lemma mapM_as_float_inr (l : list cell) fs :
  mapM_result as_float l = inr fs → fs = map float_of l.
Proof.
  revert fs. induction l as [|v l IH]; intros fs Hfs; simpl in Hfs.
  - by injection Hfs as <-.
  - apply bind_inr in Hfs as (f & Hf & Hfs). apply bind_inr in Hfs as (fs' & Hfs' & Hfs).
    injection Hfs as <-. apply as_float_inr in Hf as ->. simpl. f_equal. by apply IH.
Qed.

Lemma check_array_inr (data : DataFrame) M :
  check_array (map (λ r : Row, map (cell_at r) [col_lon; col_lat]) (rows data)) = inr M →
  M = coords_matrix data.
Proof.
  unfold check_array, coords_matrix.
  destruct (mapM_result _ _) as [e|M'] eqn:Hm; [discriminate|]. intros HM; injection HM as <-.
  revert M' Hm. induction (rows data) as [|r rs IH]; intros M' Hm; simpl in Hm.
  - by injection Hm as <-.
  - apply bind_inr in Hm as (row & Hrow & Hm). apply bind_inr in Hm as (M2 & HM2 & Hm).
    injection Hm as <-. simpl. f_equal; [|by apply IH].
    change (mapM_result as_float [cell_at r col_lon; cell_at r col_lat] = inr row) in Hrow.
    by apply mapM_as_float_inr in Hrow as ->.
Qed.

Lemma check_array_error (X : list (list cell)) e : check_array X = inl e → e = ValueError.
Proof.
  unfold check_array. destruct (mapM_result _ _); intros He; [|discriminate He].
  by injection He as <-.
Qed.

(** C2, on the code. When a record misses its longitude or its latitude,
    [spatial_clustering] does not label it -1: the missing coordinate
    reaches [DBSCAN], which refuses the matrix, and the call raises
    [ValueError] for the whole record set. *)
Theorem spatial_clustering_raises_on_missing_coordinate (data : DataFrame) :
  col_lon ∈ columns data → col_lat ∈ columns data →
  (∃ r : Row, r ∈ rows data ∧ (cell_at r col_lon = NaN ∨ cell_at r col_lat = NaN)) →
  PollutionTracer.spatial_clustering data = inl ValueError.
Proof.
  intros Hlon Hlat (r & Hr & Hmiss).
  unfold PollutionTracer.spatial_clustering, PollutionTracer.clustering.
  rewrite values_ok, ret_bind by (repeat constructor; assumption).
  unfold StandardScaler_fit_transform.
  destruct (check_array _) as [e|M] eqn:Hcheck.
  { apply check_array_error in Hcheck as ->. reflexivity. }
  apply check_array_inr in Hcheck as ->. rewrite ret_bind.
  apply list_elem_of_lookup in Hr as [i Hi].
  assert (HMi : coords_matrix data !! i
                = Some [float_of (cell_at r col_lon); float_of (cell_at r col_lat)]).
  { unfold coords_matrix. by rewrite list_lookup_fmap, Hi. }
  destruct (coords_matrix data) as [|row0 M'] eqn:HM; [discriminate HMi|].
  assert (Hrow0 : length row0 = 2%nat).
  { unfold coords_matrix in HM. destruct (rows data); [discriminate HM|].
    simpl in HM. by injection HM as <- _. }
  rewrite mret_bind. unfold DBSCAN_fit_predict.
  case_bool_decide; [|reflexivity]. cbn [centred scale2].
  rewrite Hrow0. cbn [seq map].
  set (mean_ := [_; _]).
  match goal with
  | |- context [all_finite ?m] => assert (Hnone : all_finite m = None)
  end.
  { change (all_finite (map (λ row, zip_with (λ x m, (λ x0, x0 - m) <$> x) row mean_)
                            (row0 :: M')) = None).
    unfold all_finite. apply mapM_None, Exists_exists.
    eexists. split.
    - apply list_elem_of_fmap. eexists. split; [reflexivity|].
      apply list_elem_of_lookup. exists i. exact HMi.
    - unfold mean_. destruct Hmiss as [-> | ->]; simpl; [reflexivity|].
      by destruct (float_of (cell_at r col_lon)). }
  rewrite Hnone. reflexivity.
Qed.

Lemma spatial_clustering_raises_on_missing_coordinate_witness :
  PollutionTracer.spatial_clustering
    {| columns := sheet_columns;
       rows := rows sample_data
               ++ [outlet NaN (num 1 2) (num 1 1) (num 1 1) NaN NaN NaN (Str "D") (Str "a")] |}
  = inl ValueError.
Proof.
  apply spatial_clustering_raises_on_missing_coordinate.
  - by_compute.
  - by_compute.
  - eexists. split; [apply list_elem_of_lookup; exists 4%nat; reflexivity|].
    left. vm_compute. reflexivity.
Defined.

(** ** [dbscan_inner] *)

Lemma elem_of_push_unlabelled (L : list Z) (neighb stack : list nat) v :
  v ∈ push_unlabelled L neighb stack ↔ v ∈ stack ∨ (v ∈ neighb ∧ L !! v = Some (-1)%Z).
Proof.
unfold push_unlabelled. revert stack.
induction neighb as [|w neighb IH]; intros stack; simpl.
- rewrite elem_of_nil. tauto.
- rewrite IH. case_bool_decide as Hw; rewrite !elem_of_cons.
  + split; [intros [[->|?]|[? ?]]|intros [?|[[->|?] ?]]]; auto.
  + split; [intros [?|[? ?]]|intros [?|[[->|?] ?]]]; auto. contradiction.
Qed.

Lemma length_push_unlabelled (L : list Z) (neighb stack : list nat) :
  (length (push_unlabelled L neighb stack) ≤ length neighb + length stack)%nat.
Proof.
unfold push_unlabelled. revert stack.
induction neighb as [|w neighb IH]; intros stack; simpl; [lia|].
etrans; [apply IH|]. case_bool_decide; simpl; lia.
Qed.

Lemma noise_count_le (L : list Z) : (noise_count L ≤ length L)%nat.
Proof. apply length_filter. Qed.

Lemma noise_count_insert (L : list Z) i k :
  L !! i = Some (-1)%Z → k ≠ (-1)%Z → S (noise_count (<[i:=k]> L)) = noise_count L.
Proof.
unfold noise_count. revert i. induction L as [|l L IH]; intros i Hi Hk; [discriminate Hi|].
destruct i as [|i]; simpl in *.
- injection Hi as ->. rewrite filter_cons_False by exact Hk. by rewrite filter_cons_True.
- rewrite !filter_cons. destruct (decide (l = (-1)%Z)); simpl; rewrite <- (IH i Hi Hk); reflexivity.
Qed.

Lemma noise_count_replicate n : noise_count (replicate n (-1)%Z) = n.
Proof.
unfold noise_count. induction n as [|n IH]; [reflexivity|].
cbn [replicate]. rewrite filter_cons_True by reflexivity. simpl. by rewrite IH.
Qed.

Section DbscanInnerCorrect.

Variable is_core : nat → bool.
Variable nb : nat → list nat.
Variable n : nat.
Hypothesis nb_bound : ∀ i v, v ∈ nb i → (v < n)%nat.
Hypothesis nb_length : ∀ i, (length (nb i) ≤ n)%nat.
Hypothesis nb_sym : ∀ i j, (i < n)%nat → j ∈ nb i → i ∈ nb j.

#[local] Abbreviation expand_inv := (expand_inv is_core nb n).
#[local] Abbreviation clustering_inv := (clustering_inv is_core nb n).
#[local] Abbreviation density_connected := (density_connected is_core nb n).

Lemma lookup_insert_label (L : list Z) i j k l :
  k ≠ l → L !! i = Some l → <[i:=k]> L !! j = Some l → L !! j = Some l.
Proof.
intros Hk Hi Hj. destruct (decide (i = j)) as [->|Hne].
- rewrite list_lookup_insert_eq in Hj by (by eapply lookup_lt_Some). congruence.
- by rewrite list_lookup_insert_ne in Hj.
Qed.

(** Labelling an unlabelled point keeps the invariant of the growth. *)
Lemma expand_inv_label k s L0 L i stack stack1 :
  (0 ≤ k)%Z → is_core s = true →
  expand_inv k s L0 L (i :: stack) →
  L !! i = Some (-1)%Z →
  (∀ v, v ∈ stack1 ↔
        v ∈ stack ∨ (is_core i = true ∧ v ∈ nb i ∧ <[i:=k]> L !! v = Some (-1)%Z)) →
  expand_inv k s L0 (<[i:=k]> L) stack1.
Proof.
intros Hk Hs HJ Hi Hstack.
assert (Hlt : (i < length L)%nat) by (by eapply lookup_lt_Some).
assert (Hkn : k ≠ (-1)%Z) by lia.
assert (Hkeep : ∀ u, L !! u = Some k → <[i:=k]> L !! u = Some k).
{ intros u Hu. destruct (decide (i = u)) as [->|Hne]; [congruence|].
  by rewrite list_lookup_insert_ne. }
destruct HJ as [Hlen Hframe Hnew Hseed Hpend Hclosed Hborder Hconn].
split.
- by rewrite length_insert.
- intros j l Hj Hl. specialize (Hframe j l Hj Hl).
  destruct (decide (i = j)) as [->|Hne]; [congruence|]. by rewrite list_lookup_insert_ne.
- intros j Hj. destruct (decide (i = j)) as [->|Hne].
  + right. by apply list_lookup_insert_eq.
  + rewrite list_lookup_insert_ne by done. by apply Hnew.
- destruct Hseed as [Hseed|Hseed]; [left; by apply Hkeep|].
  apply elem_of_cons in Hseed as [->|Hseed].
  + left. by apply list_lookup_insert_eq.
  + right. apply Hstack. by left.
- intros v Hv. apply Hstack in Hv as [Hv|(Hci & Hv & _)].
  + destruct (Hpend v) as [Hvn Hsrc]; [by right|]. split; [exact Hvn|].
    destruct Hsrc as [->|(u & Hu & HLu & Hvu)]; [by left|].
    right. exists u. auto.
  + split; [by eapply nb_bound|]. right. exists i. split; [exact Hci|].
    split; [by apply list_lookup_insert_eq|exact Hv].
- intros u v Hu HLu Hv. destruct (decide (u = i)) as [->|Hne].
  + destruct (decide (<[i:=k]> L !! v = Some (-1)%Z)) as [Hv1|Hv1]; [|by left].
    right. apply Hstack. right. auto.
  + rewrite list_lookup_insert_ne in HLu by done.
    destruct (Hclosed u v Hu HLu Hv) as [Hlab|Hin].
    * left. destruct (decide (i = v)) as [->|Hiv].
      -- rewrite list_lookup_insert_eq by done. congruence.
      -- by rewrite list_lookup_insert_ne.
    * apply elem_of_cons in Hin as [->|Hin].
      -- left. rewrite list_lookup_insert_eq by done. congruence.
      -- right. apply Hstack. by left.
- intros p Hp Hcp. destruct (decide (p = i)) as [->|Hne].
  + destruct (Hpend i) as [_ Hsrc]; [by left|].
    destruct Hsrc as [->|(u & Hu & HLu & Hvu)]; [congruence|].
    exists u. auto.
  + rewrite list_lookup_insert_ne in Hp by done.
    destruct (Hborder p Hp Hcp) as (c & Hc & Hpc & HLc). exists c. auto.
- intros p Hcp Hp. destruct (decide (p = i)) as [->|Hne].
  + destruct (Hpend i) as [_ Hsrc]; [by left|].
    destruct Hsrc as [->|(u & Hu & HLu & Hvu)]; [reflexivity|].
    etrans; [by apply (Hconn u)|]. apply rtsc_lr. split; [|by repeat split].
    rewrite <- Hlen. by eapply lookup_lt_Some.
  + rewrite list_lookup_insert_ne in Hp by done. by apply Hconn.
Qed.

(** Popping a point that is labelled already keeps it too. *)
Lemma expand_inv_skip k s L0 L i stack :
  L0 !! s = Some (-1)%Z →
  expand_inv k s L0 L (i :: stack) →
  L !! i ≠ Some (-1)%Z →
  expand_inv k s L0 L stack.
Proof.
intros Hs0 HJ Hi.
destruct HJ as [Hlen Hframe Hnew Hseed Hpend Hclosed Hborder Hconn].
split; try assumption.
- destruct Hseed as [Hseed|Hseed]; [by left|].
  apply elem_of_cons in Hseed as [->|Hseed]; [|by right].
  left. destruct (Hnew i Hs0) as [Hn|Hn]; [contradiction|exact Hn].
- intros v Hv. apply Hpend. by right.
- intros u v Hu HLu Hv. destruct (Hclosed u v Hu HLu Hv) as [Hlab|Hin]; [by left|].
  apply elem_of_cons in Hin as [->|Hin]; [by left|by right].
Qed.

(** The growth of a cluster terminates within the fuel and ends with an
    empty stack. *)
Lemma expand_correct k s L0 :
  (0 ≤ k)%Z → is_core s = true → L0 !! s = Some (-1)%Z →
  ∀ fuel i L stack,
    expand_inv k s L0 L (i :: stack) →
    (length stack + n * noise_count L < fuel)%nat →
    ∃ L', expand is_core nb fuel k i L stack = Some L' ∧ expand_inv k s L0 L' [].
Proof.
intros Hk Hs Hs0. induction fuel as [|fuel IH]; intros i L stack HJ Hfuel; [lia|].
cbn [expand]. case_bool_decide as Hi.
- assert (Hkn : k ≠ (-1)%Z) by lia.
  pose proof (noise_count_insert L i k Hi Hkn) as Hcount.
  destruct (is_core i) eqn:Hci.
  + assert (HJ1 : expand_inv k s L0 (<[i:=k]> L)
                    (push_unlabelled (<[i:=k]> L) (nb i) stack)).
    { eapply expand_inv_label; eauto. intros v. rewrite elem_of_push_unlabelled, Hci. tauto. }
    pose proof (length_push_unlabelled (<[i:=k]> L) (nb i) stack) as Hlen.
    pose proof (nb_length i) as Hnb.
    destruct (push_unlabelled (<[i:=k]> L) (nb i) stack) as [|v stack2]; [eauto|].
    apply IH; [exact HJ1|]. simpl in Hlen. rewrite <- Hcount in Hfuel. lia.
  + assert (HJ1 : expand_inv k s L0 (<[i:=k]> L) stack).
    { eapply expand_inv_label; eauto. intros v. rewrite Hci. split; [tauto|].
      intros [?|[? _]]; [done|discriminate]. }
    destruct stack as [|v stack2]; [eauto|].
    apply IH; [exact HJ1|]. simpl in Hfuel. rewrite <- Hcount in Hfuel. lia.
- assert (HJ1 : expand_inv k s L0 L stack) by (by eapply expand_inv_skip).
  destruct stack as [|v stack2]; [eauto|].
  apply IH; [exact HJ1|]. simpl in Hfuel. lia.
Qed.

Lemma expand_inv_status k s L0 L j l :
  clustering_inv k L0 → expand_inv k s L0 L [] → L !! j = Some l →
  (L0 !! j = Some l ∧ l ≠ (-1)%Z ∧ (0 ≤ l < k)%Z)
  ∨ (L0 !! j = Some (-1)%Z ∧ (l = (-1)%Z ∨ l = k)).
Proof.
intros Hinv HJ Hj.
assert (Hlt : (j < length L0)%nat).
{ rewrite (inv_length _ _ _ _ _ Hinv), <- (exp_length _ _ _ _ _ _ _ _ HJ).
  by eapply lookup_lt_Some. }
apply lookup_lt_is_Some in Hlt as [l0 Hl0].
destruct (decide (l0 = (-1)%Z)) as [->|Hne].
- right. split; [exact Hl0|].
  destruct (exp_new _ _ _ _ _ _ _ _ HJ j Hl0) as [H1|H1]; rewrite Hj in H1;
    injection H1 as ->; auto.
- left. pose proof (exp_frame _ _ _ _ _ _ _ _ HJ j l0 Hl0 Hne) as H1.
  rewrite Hj in H1. injection H1 as ->. split; [exact Hl0|]. split; [exact Hne|].
  destruct (inv_range _ _ _ _ _ Hinv j l0 Hl0) as [?|?]; [contradiction|assumption].
Qed.

(** A finished growth completes cluster [k]. *)
Lemma clustering_inv_next k s L0 L :
  (0 ≤ k)%Z → is_core s = true → L0 !! s = Some (-1)%Z →
  clustering_inv k L0 → expand_inv k s L0 L [] →
  clustering_inv (k + 1) L ∧ L !! s = Some k.
Proof.
intros Hk Hs Hs0 Hinv HJ.
pose proof (expand_inv_status k s L0 L) as Hstatus.
assert (Hseed : L !! s = Some k).
{ destruct (exp_seed _ _ _ _ _ _ _ _ HJ) as [H1|H1]; [exact H1|by apply elem_of_nil in H1]. }
split; [|exact Hseed]. split.
- apply (exp_length _ _ _ _ _ _ _ _ HJ).
- intros j l Hj. destruct (Hstatus j l Hinv HJ Hj) as [(_ & _ & ?)|(_ & [->| ->])]; [right|left|right]; lia.
- intros u v l Hu HLu Hl Hv.
  assert (Hvn : (v < length L)%nat).
  { rewrite (exp_length _ _ _ _ _ _ _ _ HJ). by eapply nb_bound. }
  assert (Hun : (u < n)%nat).
  { rewrite <- (exp_length _ _ _ _ _ _ _ _ HJ). by eapply lookup_lt_Some. }
  apply lookup_lt_is_Some in Hvn as [l' Hl'].
  destruct (Hstatus u l Hinv HJ HLu) as [(Hu0 & _ & Hrange)|(Hu0 & [->| ->])]; [| contradiction |].
  + destruct (inv_closed _ _ _ _ _ Hinv u v l Hu Hu0 Hl Hv) as (l0 & Hl0 & Hne & Hsame).
    pose proof (exp_frame _ _ _ _ _ _ _ _ HJ v l0 Hl0 Hne) as Hv'.
    exists l0. auto.
  + exists l'. split; [exact Hl'|].
    destruct (exp_closed _ _ _ _ _ _ _ _ HJ u v Hu HLu Hv) as [Hlab|Hin];
      [|by apply elem_of_nil in Hin].
    assert (Hne : l' ≠ (-1)%Z) by congruence. split; [exact Hne|].
    intros Hcv. destruct (Hstatus v l' Hinv HJ Hl') as [(Hv0 & _ & _)|(_ & [->| ->])];
      [|contradiction|reflexivity].
    exfalso. pose proof (nb_sym u v Hun Hv) as Huv.
    destruct (inv_closed _ _ _ _ _ Hinv v u l' Hcv Hv0 Hne Huv) as (lu & Hlu & Hlune & _).
    congruence.
- intros p l Hp Hl Hcp.
  destruct (Hstatus p l Hinv HJ Hp) as [(Hp0 & _ & _)|(_ & [->| ->])]; [|contradiction|].
  + destruct (inv_border _ _ _ _ _ Hinv p l Hp0 Hl Hcp) as (c & Hc & Hpc & HLc).
    exists c. split; [exact Hc|]. split; [exact Hpc|].
    by apply (exp_frame _ _ _ _ _ _ _ _ HJ).
  + by apply (exp_border _ _ _ _ _ _ _ _ HJ).
- intros p q l Hcp Hcq Hp Hq Hl.
  destruct (Hstatus p l Hinv HJ Hp) as [(Hp0 & _ & Hrange)|(_ & [->| ->])]; [|contradiction|].
  + destruct (Hstatus q l Hinv HJ Hq) as [(Hq0 & _ & _)|(_ & [->| ->])]; [|contradiction|lia].
    by apply (inv_connected _ _ _ _ _ Hinv p q l).
  + etrans; [symmetry; by apply (exp_connected _ _ _ _ _ _ _ _ HJ)|].
    by apply (exp_connected _ _ _ _ _ _ _ _ HJ).
Qed.

(** The growth may start at an unlabelled core point. *)
Lemma expand_inv_start k s L :
  (0 ≤ k)%Z → clustering_inv k L → L !! s = Some (-1)%Z →
  expand_inv k s L L [s].
Proof.
intros Hk Hinv Hs.
assert (Hnone : ∀ u, L !! u = Some k → False).
{ intros u Hu. destruct (inv_range _ _ _ _ _ Hinv u k Hu); lia. }
split.
- apply (inv_length _ _ _ _ _ Hinv).
- auto.
- auto.
- right. left.
- intros v Hv. apply list_elem_of_singleton in Hv as ->. split; [|by left].
  rewrite <- (inv_length _ _ _ _ _ Hinv). by eapply lookup_lt_Some.
- intros u v _ Hu. destruct (Hnone u Hu).
- intros p Hp. destruct (Hnone p Hp).
- intros p _ Hp. destruct (Hnone p Hp).
Qed.

(** The outer loop, with the fuel that [dbscan_inner] gives it. *)
Lemma scan_correct idxs : ∀ k L,
  (0 ≤ k)%Z → clustering_inv k L →
  ∃ L' k', (k ≤ k')%Z
    ∧ scan is_core nb (S (n * n)) idxs k L = Some L'
    ∧ clustering_inv k' L'
    ∧ (∀ j l, L !! j = Some l → l ≠ (-1)%Z → L' !! j = Some l)
    ∧ (∀ j, j ∈ idxs → (j < n)%nat → is_core j = true →
            ∃ l, L' !! j = Some l ∧ l ≠ (-1)%Z).
Proof.
induction idxs as [|i idxs IH]; intros k L Hk Hinv.
- exists L, k. split; [lia|]. split; [reflexivity|]. split; [exact Hinv|].
  split; [auto|]. intros j Hj. by apply elem_of_nil in Hj.
- cbn [scan]. destruct (bool_decide (L !! i ≠ Some (-1)%Z) || negb (is_core i)) eqn:Hskip.
  + destruct (IH k L Hk Hinv) as (L' & k' & Hkk & Hscan & Hinv' & Hkeep & Hcores).
    exists L', k'. split; [exact Hkk|]. split; [exact Hscan|]. split; [exact Hinv'|].
    split; [exact Hkeep|]. intros j Hj Hjn Hcj.
    apply elem_of_cons in Hj as [->|Hj]; [|by apply Hcores].
    apply orb_true_iff in Hskip as [Hlab|Hnc]; [|rewrite Hcj in Hnc; discriminate Hnc].
    apply bool_decide_eq_true_1 in Hlab.
    assert (Hlt : (i < length L)%nat) by (by rewrite (inv_length _ _ _ _ _ Hinv)).
    apply lookup_lt_is_Some in Hlt as [l Hl]. exists l.
    assert (l ≠ (-1)%Z) by congruence. auto.
  + apply orb_false_iff in Hskip as [Hlab Hci].
    apply bool_decide_eq_false_1 in Hlab. apply negb_false_iff in Hci.
    assert (Hi : L !! i = Some (-1)%Z) by (by destruct (decide (L !! i = Some (-1)%Z))).
    destruct (expand_correct k i L Hk Hci Hi (S (n * n)) i L [])
      as (L1 & Hexp & HJ).
    { by apply expand_inv_start. }
    { pose proof (noise_count_le L) as Hle. rewrite (inv_length _ _ _ _ _ Hinv) in Hle.
      simpl. assert (n * noise_count L ≤ n * n)%nat by (by apply Nat.mul_le_mono_l). lia. }
    rewrite Hexp. cbn [mbind option_bind].
    destruct (clustering_inv_next k i L L1 Hk Hci Hi Hinv HJ) as [Hinv1 Hseed].
    destruct (IH (k + 1)%Z L1) as (L' & k' & Hkk & Hscan & Hinv' & Hkeep & Hcores);
      [lia|exact Hinv1|].
    exists L', k'. split; [lia|]. split; [exact Hscan|]. split; [exact Hinv'|]. split.
    * intros j l Hj Hl. apply Hkeep; [|exact Hl].
      by apply (exp_frame _ _ _ _ _ _ _ _ HJ).
    * intros j Hj Hjn Hcj. apply elem_of_cons in Hj as [->|Hj]; [|by apply Hcores].
      exists k. split; [|lia]. apply Hkeep; [exact Hseed|lia].
Qed.

(** [dbscan_inner] returns, and what it returns is the DBSCAN labelling. *)
Lemma dbscan_inner_correct :
  ∃ L, dbscan_inner is_core nb n = Some L ∧ dbscan_labelling is_core nb n L.
Proof.
assert (Hinit : clustering_inv 0 (replicate n (-1)%Z)).
{ assert (Hnone : ∀ j l, replicate n (-1)%Z !! j = Some l → l = (-1)%Z).
  { intros j l Hj. by apply lookup_replicate in Hj as [-> _]. }
  split.
  - apply length_replicate.
  - intros j l Hj. left. by eapply Hnone.
  - intros u v l _ Hu Hl. by apply Hnone in Hu.
  - intros p l Hp Hl. by apply Hnone in Hp.
  - intros p q l _ _ Hp _ Hl. by apply Hnone in Hp. }
destruct (scan_correct (seq 0 n) 0%Z (replicate n (-1)%Z)) as
  (L & k & Hk & Hscan & Hinv & _ & Hcores); [lia|exact Hinit|].
exists L. split; [exact Hscan|]. split.
- exists k. auto.
- intros j Hj Hcj. apply Hcores; [|exact Hj|exact Hcj]. apply elem_of_seq. lia.
Qed.

End DbscanInnerCorrect.

(** ** Consequences of the labelling *)

Section Labelling.

Variable is_core : nat → bool.
Variable nb : nat → list nat.
Variable n : nat.
Hypothesis nb_bound : ∀ i v, v ∈ nb i → (v < n)%nat.
Hypothesis nb_sym : ∀ i j, (i < n)%nat → j ∈ nb i → i ∈ nb j.

Variable L : list Z.
Hypothesis HL : dbscan_labelling is_core nb n L.

Lemma labelling_length : length L = n.
Proof. destruct HL as [(k & _ & Hinv) _]. apply (inv_length _ _ _ _ _ Hinv). Qed.

Lemma labelling_lookup j : (j < n)%nat → ∃ l, L !! j = Some l.
Proof. intros Hj. apply lookup_lt_is_Some. by rewrite labelling_length. Qed.

Lemma labelling_lt j l : L !! j = Some l → (j < n)%nat.
Proof. intros Hj. rewrite <- labelling_length. by eapply lookup_lt_Some. Qed.

Lemma labelling_core j : (j < n)%nat → is_core j = true → ∃ l, L !! j = Some l ∧ l ≠ (-1)%Z.
Proof. destruct HL as [_ Hcores]. apply Hcores. Qed.

(** A point within reach of a core point is in the cluster of a core
    point; if it is core itself, in the cluster of that one. *)
Lemma labelling_reach c v :
  (c < n)%nat → is_core c = true → v ∈ nb c →
  ∃ lc lv, L !! c = Some lc ∧ L !! v = Some lv ∧ lc ≠ (-1)%Z ∧ lv ≠ (-1)%Z
           ∧ (is_core v = true → lv = lc).
Proof.
intros Hc Hcc Hv. destruct (labelling_core c Hc Hcc) as (lc & Hlc & Hne).
destruct HL as [(k & _ & Hinv) _].
destruct (inv_closed _ _ _ _ _ Hinv c v lc Hcc Hlc Hne Hv) as (lv & Hlv & Hlvne & Hsame).
exists lc, lv. auto.
Qed.

(** A labelled point that is not core lies within reach of a core point
    of its cluster. *)
Lemma labelling_border p l :
  L !! p = Some l → l ≠ (-1)%Z → is_core p = false →
  ∃ c, is_core c = true ∧ p ∈ nb c ∧ L !! c = Some l.
Proof. destruct HL as [(k & _ & Hinv) _]. apply (inv_border _ _ _ _ _ Hinv). Qed.

Lemma labelling_connected p q l :
  is_core p = true → is_core q = true → L !! p = Some l → L !! q = Some l →
  l ≠ (-1)%Z → density_connected is_core nb n p q.
Proof. destruct HL as [(k & _ & Hinv) _]. apply (inv_connected _ _ _ _ _ Hinv). Qed.

(** Noise is exactly what is neither core nor within reach of a core
    point. *)
Lemma labelling_noise j :
  (j < n)%nat →
  L !! j = Some (-1)%Z ↔ is_core j = false ∧ ∀ c, is_core c = true → (c < n)%nat → j ∉ nb c.
Proof.
intros Hj. split.
- intros Hnoise. split.
  + destruct (is_core j) eqn:Hcj; [|reflexivity].
    destruct (labelling_core j Hj Hcj) as (l & Hl & Hne). congruence.
  + intros c Hcc Hc Hin.
    destruct (labelling_reach c j Hc Hcc Hin) as (lc & lv & _ & Hlv & _ & Hne & _). congruence.
- intros [Hcj Hfar]. destruct (labelling_lookup j Hj) as [l Hl].
  destruct (decide (l = (-1)%Z)) as [->|Hne]; [exact Hl|].
  destruct (labelling_border j l Hl Hne Hcj) as (c & Hcc & Hin & Hlc).
  exfalso. apply (Hfar c Hcc); [by eapply labelling_lt|exact Hin].
Qed.

(** Density-connected core points carry one label. *)
Lemma labelling_connected_same p q :
  density_connected is_core nb n p q → (p < n)%nat → is_core p = true →
  ∃ l, L !! p = Some l ∧ L !! q = Some l ∧ l ≠ (-1)%Z ∧ is_core q = true ∧ (q < n)%nat.
Proof.
intros Hconn. induction Hconn as [p|p q r Hstep _ IH]; intros Hp Hcp.
- destruct (labelling_core p Hp Hcp) as (l & Hl & Hne). exists l. auto.
- assert (Hq : is_core q = true ∧ (q < n)%nat ∧ ∃ l, L !! p = Some l ∧ L !! q = Some l ∧ l ≠ (-1)%Z).
  { destruct Hstep as [(_ & _ & Hcq & Hin)|(Hqn & Hcq & _ & Hin)].
    - destruct (labelling_reach p q Hp Hcp Hin) as (lp & lq & Hlp & Hlq & Hne & _ & Hsame).
      rewrite (Hsame Hcq) in Hlq. split; [exact Hcq|]. split; [by eapply nb_bound|]. eauto.
    - destruct (labelling_reach q p Hqn Hcq Hin) as (lq & lp & Hlq & Hlp & Hne & _ & Hsame).
      rewrite (Hsame Hcp) in Hlp. split; [exact Hcq|]. split; [exact Hqn|]. eauto. }
  destruct Hq as (Hcq & Hqn & l & Hlp & Hlq & Hne).
  destruct (IH Hqn Hcq) as (l' & Hlq' & Hlr & Hne' & Hcr & Hrn).
  assert (l' = l) as -> by congruence. exists l. auto.
Qed.

End Labelling.

(** ** A larger radius *)

Lemma filter_length_le_pointwise (L1 L2 : list Z) (l1 l2 : Z) :
  length L1 = length L2 →
  (∀ i, L1 !! i = Some l1 → L2 !! i = Some l2) →
  (length (filter (λ x, x = l1) L1) ≤ length (filter (λ x, x = l2) L2))%nat.
Proof.
revert L2. induction L1 as [|x L1 IH]; intros [|y L2] Hlen Himp; simpl in Hlen; try lia.
- simpl. lia.
- assert (Hrest : (length (filter (λ x, x = l1) L1) ≤ length (filter (λ x, x = l2) L2))%nat).
  { apply IH; [lia|]. intros i Hi. apply (Himp (S i)). exact Hi. }
  rewrite !filter_cons. destruct (decide (x = l1)) as [->|Hx].
  + specialize (Himp 0%nat eq_refl). simpl in Himp. injection Himp as ->.
    rewrite decide_True by reflexivity. simpl. lia.
  + destruct (decide (y = l2)); simpl; lia.
Qed.

Section LargerRadius.

Variable is_core1 is_core2 : nat → bool.
Variable nb1 nb2 : nat → list nat.
Variable n : nat.
Hypothesis nb1_bound : ∀ i v, v ∈ nb1 i → (v < n)%nat.
Hypothesis nb2_bound : ∀ i v, v ∈ nb2 i → (v < n)%nat.
Hypothesis nb2_sym : ∀ i j, (i < n)%nat → j ∈ nb2 i → i ∈ nb2 j.
Hypothesis nb_mono : ∀ i v, v ∈ nb1 i → v ∈ nb2 i.
Hypothesis core_mono : ∀ i, is_core1 i = true → is_core2 i = true.

Variable L1 L2 : list Z.
Hypothesis HL1 : dbscan_labelling is_core1 nb1 n L1.
Hypothesis HL2 : dbscan_labelling is_core2 nb2 n L2.

(** What is noise under the larger radius was noise under the smaller. *)
Lemma noise_larger_radius j : L2 !! j = Some (-1)%Z → L1 !! j = Some (-1)%Z.
Proof.
intros Hnoise.
assert (Hj : (j < n)%nat) by exact (labelling_lt _ _ _ _ HL2 _ _ Hnoise).
apply (labelling_noise is_core2 nb2 n L2 HL2 j Hj) in Hnoise as [Hcj Hfar].
apply (labelling_noise is_core1 nb1 n L1 HL1 j Hj). split.
- destruct (is_core1 j) eqn:Hc1; [|reflexivity]. apply core_mono in Hc1. congruence.
- intros c Hc Hcn Hin. apply (Hfar c); auto.
Qed.

Lemma noise_count_larger_radius : (noise_count L2 ≤ noise_count L1)%nat.
Proof.
apply filter_length_le_pointwise.
- by rewrite (labelling_length _ _ _ _ HL1), (labelling_length _ _ _ _ HL2).
- apply noise_larger_radius.
Qed.

Lemma connected_larger_radius p q :
  density_connected is_core1 nb1 n p q → density_connected is_core2 nb2 n p q.
Proof.
apply (rtsc_congruence id). intros a b (Ha & Hca & Hcb & Hin).
split; [exact Ha|]. split; [by apply core_mono|]. split; [by apply core_mono|by apply nb_mono].
Qed.

(** Every point of a cluster hangs on a core point of the cluster. *)
Lemma cluster_core_of i l :
  L1 !! i = Some l → l ≠ (-1)%Z →
  ∃ c, is_core1 c = true ∧ (c < n)%nat ∧ L1 !! c = Some l
       ∧ (c = i ∨ (is_core1 i = false ∧ i ∈ nb1 c)).
Proof.
intros Hi Hl. destruct (is_core1 i) eqn:Hci.
- exists i. split; [exact Hci|]. split; [exact (labelling_lt _ _ _ _ HL1 _ _ Hi)|]. auto.
- destruct (labelling_border is_core1 nb1 n L1 HL1 i l Hi Hl Hci) as (c & Hc & Hin & Hlc).
  exists c. split; [exact Hc|]. split; [exact (labelling_lt _ _ _ _ HL1 _ _ Hlc)|]. auto.
Qed.

(** When a point that is not core has at most one neighbour besides
    itself, a cluster of the smaller radius lies within one cluster of the
    larger radius. *)
Hypothesis border_one_neighbour : ∀ p a b,
  (p < n)%nat → is_core2 p = false → a ∈ nb2 p → b ∈ nb2 p → a ≠ p → b ≠ p → a = b.

Lemma cluster_larger_radius l p0 :
  L1 !! p0 = Some l → l ≠ (-1)%Z →
  ∃ l', l' ≠ (-1)%Z ∧ ∀ i, L1 !! i = Some l → L2 !! i = Some l'.
Proof.
intros Hp0 Hl.
destruct (cluster_core_of p0 l Hp0 Hl) as (c0 & Hc0 & Hc0n & Hlc0 & _).
destruct (labelling_core is_core2 nb2 n L2 HL2 c0 Hc0n (core_mono c0 Hc0)) as (l' & Hl' & Hne').
exists l'. split; [exact Hne'|]. intros i Hi.
destruct (cluster_core_of i l Hi Hl) as (c & Hc & Hcn & Hlc & Hrel).
assert (Hc2 : L2 !! c = Some l').
{ pose proof (labelling_connected is_core1 nb1 n L1 HL1 c0 c l Hc0 Hc Hlc0 Hlc Hl) as Hconn.
  apply connected_larger_radius in Hconn.
  destruct (labelling_connected_same is_core2 nb2 n nb2_bound L2 HL2 c0 c Hconn Hc0n
              (core_mono c0 Hc0)) as (l2 & H0 & H1 & _).
  congruence. }
destruct Hrel as [->|[Hci Hin]]; [exact Hc2|].
apply nb_mono in Hin.
destruct (labelling_reach is_core2 nb2 n L2 HL2 c i Hcn (core_mono c Hc) Hin)
  as (lc & lv & Hlc2 & Hlv & _ & Hlvne & Hsame).
assert (lc = l') as -> by congruence.
destruct (is_core2 i) eqn:Hci2; [by rewrite (Hsame eq_refl) in Hlv|].
destruct (labelling_border is_core2 nb2 n L2 HL2 i lv Hlv Hlvne Hci2) as (c' & Hc' & Hin' & Hlc').
assert (Hc'n : (c' < n)%nat) by exact (labelling_lt _ _ _ _ HL2 _ _ Hlc').
pose proof (nb2_sym c i Hcn Hin) as Hci_nb. pose proof (nb2_sym c' i Hc'n Hin') as Hci_nb'.
assert (c = c') as <-.
{ apply (border_one_neighbour i); try assumption.
  - exact (labelling_lt _ _ _ _ HL1 _ _ Hi).
  - intros ->. pose proof (core_mono i Hc). congruence.
  - intros ->. congruence. }
congruence.
Qed.

Lemma cluster_size_larger_radius l p0 :
  L1 !! p0 = Some l → l ≠ (-1)%Z →
  ∃ l', l' ≠ (-1)%Z ∧ (∀ i, L1 !! i = Some l → L2 !! i = Some l')
        ∧ (cluster_size l L1 ≤ cluster_size l' L2)%nat.
Proof.
intros Hp0 Hl. destruct (cluster_larger_radius l p0 Hp0 Hl) as (l' & Hne & Hin).
exists l'. split; [exact Hne|]. split; [exact Hin|].
apply filter_length_le_pointwise; [|exact Hin].
by rewrite (labelling_length _ _ _ _ HL1), (labelling_length _ _ _ _ HL2).
Qed.

End LargerRadius.

(** ** Neighbourhoods by radius *)

Lemma sq_dist_sym (s p q : list Qc) : sq_dist s p q = sq_dist s q p.
Proof.
revert p q. induction s as [|v s IH]; intros [|a p] [|b q]; simpl; try reflexivity.
rewrite (IH p q). f_equal. unfold Qcdiv. ring.
Qed.

Lemma sq_dist_refl (s p : list Qc) : sq_dist s p p = 0.
Proof.
revert p. induction s as [|v s IH]; intros [|a p]; simpl; try reflexivity.
rewrite IH. unfold Qcdiv. ring.
Qed.

Lemma square_le_mono (eps1 eps2 : Qc) : 0 < eps1 → eps1 ≤ eps2 → eps1 * eps1 ≤ eps2 * eps2.
Proof.
intros Hpos Hle.
assert (H1 : 0 ≤ eps1) by (by apply Qclt_le_weak).
assert (H2 : 0 ≤ eps2) by (by etrans).
etrans; [apply (Qcmult_le_mono_nonneg_l eps1 eps2 eps1 H1 Hle)|].
by apply Qcmult_le_mono_nonneg_r.
Qed.

Lemma within_refl eps s p : 0 < eps → within eps s p p = true.
Proof.
intros Hpos. unfold within. apply bool_decide_eq_true_2. rewrite sq_dist_refl.
replace 0 with (eps * 0) by ring.
apply Qcmult_le_mono_nonneg_l; by apply Qclt_le_weak.
Qed.

Lemma within_sym eps s p q : within eps s p q = within eps s q p.
Proof. unfold within. by rewrite sq_dist_sym. Qed.

Lemma within_mono eps1 eps2 s p q :
  0 < eps1 → eps1 ≤ eps2 → within eps1 s p q = true → within eps2 s p q = true.
Proof.
unfold within. intros Hpos Hle Hin. apply bool_decide_eq_true_1 in Hin.
apply bool_decide_eq_true_2. etrans; [exact Hin|]. by apply square_le_mono.
Qed.

Lemma elem_of_radius_neighbors eps s (pts : list (list Qc)) i v :
  v ∈ radius_neighbors eps s pts i
  ↔ (v < length pts)%nat ∧ within eps s (pts !!! i) (pts !!! v) = true.
Proof.
unfold radius_neighbors. rewrite list_elem_of_filter, elem_of_seq. split.
- intros [Hw Hv]. split; [lia|exact Hw].
- intros [Hv Hw]. split; [exact Hw|lia].
Qed.

Lemma radius_neighbors_bound eps s (pts : list (list Qc)) i v :
  v ∈ radius_neighbors eps s pts i → (v < length pts)%nat.
Proof. intros Hv. by apply elem_of_radius_neighbors in Hv as [Hv _]. Qed.

Lemma radius_neighbors_length eps s (pts : list (list Qc)) i :
  (length (radius_neighbors eps s pts i) ≤ length pts)%nat.
Proof.
unfold radius_neighbors. etrans; [apply length_filter|]. by rewrite length_seq.
Qed.

Lemma radius_neighbors_NoDup eps s (pts : list (list Qc)) i :
  NoDup (radius_neighbors eps s pts i).
Proof. unfold radius_neighbors. apply NoDup_filter, NoDup_seq. Qed.

Lemma radius_neighbors_sym eps s (pts : list (list Qc)) i j :
  (i < length pts)%nat → j ∈ radius_neighbors eps s pts i → i ∈ radius_neighbors eps s pts j.
Proof.
intros Hi Hj. apply elem_of_radius_neighbors in Hj as [Hj Hw].
apply elem_of_radius_neighbors. split; [exact Hi|]. by rewrite within_sym.
Qed.

Lemma radius_neighbors_self eps s (pts : list (list Qc)) i :
  0 < eps → (i < length pts)%nat → i ∈ radius_neighbors eps s pts i.
Proof.
intros Hpos Hi. apply elem_of_radius_neighbors. split; [exact Hi|]. by apply within_refl.
Qed.

Lemma radius_neighbors_mono eps1 eps2 s (pts : list (list Qc)) i v :
  0 < eps1 → eps1 ≤ eps2 →
  v ∈ radius_neighbors eps1 s pts i → v ∈ radius_neighbors eps2 s pts i.
Proof.
intros Hpos Hle Hv. apply elem_of_radius_neighbors in Hv as [Hv Hw].
apply elem_of_radius_neighbors. split; [exact Hv|]. by eapply within_mono.
Qed.

Lemma length_filter_mono {A : Type} (P Q : A → Prop)
    `{∀ x, Decision (P x)} `{∀ x, Decision (Q x)} (l : list A) :
  (∀ x, P x → Q x) → (length (filter P l) ≤ length (filter Q l))%nat.
Proof.
intros Himp. induction l as [|x l IH]; [reflexivity|].
rewrite !filter_cons. destruct (decide (P x)) as [HP|HP].
- rewrite decide_True by auto. simpl. lia.
- destruct (decide (Q x)); simpl; lia.
Qed.

Lemma radius_neighbors_length_mono eps1 eps2 s (pts : list (list Qc)) i :
  0 < eps1 → eps1 ≤ eps2 →
  (length (radius_neighbors eps1 s pts i) ≤ length (radius_neighbors eps2 s pts i))%nat.
Proof.
intros Hpos Hle. unfold radius_neighbors. apply length_filter_mono.
intros v. by apply within_mono.
Qed.

(** With [min_samples <= 3] a point that is not core has at most one
    neighbour besides itself. *)
Lemma border_has_one_neighbour eps s (pts : list (list Qc)) ms p a b :
  0 < eps → (ms ≤ 3)%nat → (p < length pts)%nat →
  bool_decide (ms ≤ length (radius_neighbors eps s pts p))%nat = false →
  a ∈ radius_neighbors eps s pts p → b ∈ radius_neighbors eps s pts p →
  a ≠ p → b ≠ p → a = b.
Proof.
intros Hpos Hms Hp Hnc Ha Hb Hap Hbp.
apply bool_decide_eq_false_1 in Hnc.
destruct (decide (a = b)) as [|Hab]; [assumption|]. exfalso. apply Hnc.
assert (Hsub : [p; a; b] ⊆+ radius_neighbors eps s pts p).
{ apply NoDup_submseteq.
  - apply NoDup_cons. split.
    { rewrite !elem_of_cons, elem_of_nil. intros [H1|[H1|[]]]; congruence. }
    apply NoDup_cons. split; [|apply NoDup_singleton].
    rewrite elem_of_cons, elem_of_nil. intros [H1|[]]; congruence.
  - intros x Hx. repeat (apply elem_of_cons in Hx as [->|Hx]); try assumption.
    + by apply radius_neighbors_self.
    + by apply elem_of_nil in Hx. }
apply submseteq_length in Hsub. simpl in Hsub. lia.
Qed.

(** ** [DBSCAN.fit_predict] *)

(** The core samples of a run. *)
Lemma DBSCAN_fit_predict_labelling eps ms (X : ScaledMatrix) pts :
  0 < eps → (1 ≤ ms)%nat → all_finite (centred X) = Some pts →
  ∃ L, DBSCAN_fit_predict eps ms X = inr L
    ∧ dbscan_labelling
        (λ i, bool_decide (ms ≤ length (radius_neighbors eps (scale2 X) pts i))%nat)
        (radius_neighbors eps (scale2 X) pts) (length pts) L.
Proof.
intros Hpos Hms Hpts. unfold DBSCAN_fit_predict.
rewrite bool_decide_eq_true_2 by done. rewrite Hpts.
destruct (dbscan_inner_correct
            (λ i, bool_decide (ms ≤ length (radius_neighbors eps (scale2 X) pts i))%nat)
            (radius_neighbors eps (scale2 X) pts) (length pts)) as (L & Hrun & Hlab).
- apply radius_neighbors_bound.
- apply radius_neighbors_length.
- apply radius_neighbors_sym.
- exists L. by rewrite Hrun.
Qed.

Lemma DBSCAN_fit_predict_inr eps ms (X : ScaledMatrix) L :
  DBSCAN_fit_predict eps ms X = inr L →
  0 < eps ∧ (1 ≤ ms)%nat ∧ ∃ pts, all_finite (centred X) = Some pts
    ∧ dbscan_labelling
        (λ i, bool_decide (ms ≤ length (radius_neighbors eps (scale2 X) pts i))%nat)
        (radius_neighbors eps (scale2 X) pts) (length pts) L.
Proof.
intros Hrun. unfold DBSCAN_fit_predict in Hrun.
case_bool_decide as Hparams; [|discriminate Hrun]. destruct Hparams as [Hpos Hms].
destruct (all_finite (centred X)) as [pts|] eqn:Hpts; [|discriminate Hrun].
split; [exact Hpos|]. split; [exact Hms|]. exists pts. split; [reflexivity|].
destruct (DBSCAN_fit_predict_labelling eps ms X pts Hpos Hms Hpts) as (L' & Hrun' & Hlab).
unfold DBSCAN_fit_predict in Hrun'. rewrite bool_decide_eq_true_2, Hpts in Hrun' by done.
rewrite Hrun' in Hrun. by injection Hrun as <-.
Qed.

(** A larger radius on the same matrix. *)
Lemma DBSCAN_fit_predict_larger_radius eps1 eps2 ms (X : ScaledMatrix) L1 :
  eps1 ≤ eps2 → DBSCAN_fit_predict eps1 ms X = inr L1 →
  ∃ L2, DBSCAN_fit_predict eps2 ms X = inr L2
    ∧ length L2 = length L1
    ∧ (∀ i, L2 !! i = Some (-1)%Z → L1 !! i = Some (-1)%Z)
    ∧ (noise_count L2 ≤ noise_count L1)%nat
    ∧ ((ms ≤ 3)%nat → ∀ l p0, L1 !! p0 = Some l → l ≠ (-1)%Z →
         ∃ l', l' ≠ (-1)%Z ∧ (∀ i, L1 !! i = Some l → L2 !! i = Some l')
               ∧ (cluster_size l L1 ≤ cluster_size l' L2)%nat).
Proof.
intros Hle Hrun1.
apply DBSCAN_fit_predict_inr in Hrun1 as (Hpos1 & Hms & pts & Hpts & HL1).
assert (Hpos2 : 0 < eps2) by (by eapply Qclt_le_trans).
destruct (DBSCAN_fit_predict_labelling eps2 ms X pts Hpos2 Hms Hpts) as (L2 & Hrun2 & HL2).
exists L2. split; [exact Hrun2|].
set (nb1 := radius_neighbors eps1 (scale2 X) pts) in *.
set (nb2 := radius_neighbors eps2 (scale2 X) pts) in *.
assert (Hmono : ∀ i v, v ∈ nb1 i → v ∈ nb2 i).
{ intros i v. by apply radius_neighbors_mono. }
assert (Hcore : ∀ i, bool_decide (ms ≤ length (nb1 i))%nat = true
                     → bool_decide (ms ≤ length (nb2 i))%nat = true).
{ intros i Hc. apply bool_decide_eq_true_1 in Hc. apply bool_decide_eq_true_2.
  etrans; [exact Hc|]. by apply radius_neighbors_length_mono. }
split; [|split; [|split]].
- by rewrite (labelling_length _ _ _ _ HL1), (labelling_length _ _ _ _ HL2).
- exact (noise_larger_radius _ _ nb1 nb2 (length pts) Hmono Hcore L1 L2 HL1 HL2).
- exact (noise_count_larger_radius _ _ nb1 nb2 (length pts) Hmono Hcore L1 L2 HL1 HL2).
- intros Hms3 l p0 Hp0 Hl.
  apply (cluster_size_larger_radius _ _ nb1 nb2 (length pts)
           (radius_neighbors_bound _ _ _) (radius_neighbors_sym _ _ _)
           Hmono Hcore L1 L2 HL1 HL2) with (p0 := p0); [|exact Hp0|exact Hl].
  intros p a b Hp Hnc.
  exact (border_has_one_neighbour eps2 (scale2 X) pts ms p a b Hpos2 Hms3 Hp Hnc).
Qed.

(** ** [spatial_clustering] *)

Lemma setitem_length df col vals df' :
  setitem df col vals = inr df' → length vals = length (rows df).
Proof. unfold setitem. case_bool_decide; [done|discriminate]. Qed.

Lemma setitem_ok df col vals :
  length vals = length (rows df) → ∃ df', setitem df col vals = inr df'.
Proof. intros Hlen. unfold setitem. rewrite bool_decide_eq_true_2 by exact Hlen. eauto. Qed.

(** The steps of a run that returns. *)
Lemma clustering_inr eps ms data data' L :
  PollutionTracer.clustering eps ms data = inr (data', L) →
  ∃ X SM, values data [col_lon; col_lat] = inr X
    ∧ StandardScaler_fit_transform X = inr SM
    ∧ DBSCAN_fit_predict eps ms SM = inr L
    ∧ setitem data col_cluster (map PollutionTracer.cell_of_label L) = inr data'.
Proof.
unfold PollutionTracer.clustering. intros Hrun.
apply bind_inr in Hrun as (X & HX & Hrun). apply bind_inr in Hrun as (SM & HSM & Hrun).
apply bind_inr in Hrun as (L' & HL & Hrun). apply bind_inr in Hrun as (d & Hd & Hrun).
injection Hrun as <- <-. by exists X, SM.
Qed.

Lemma clustering_steps eps ms data X SM L data' :
  values data [col_lon; col_lat] = inr X →
  StandardScaler_fit_transform X = inr SM →
  DBSCAN_fit_predict eps ms SM = inr L →
  setitem data col_cluster (map PollutionTracer.cell_of_label L) = inr data' →
  PollutionTracer.clustering eps ms data = inr (data', L).
Proof.
intros HX HSM HL Hd. unfold PollutionTracer.clustering.
by rewrite HX, ret_bind, HSM, ret_bind, HL, ret_bind, Hd, ret_bind.
Qed.

(** C8 (as the code has it). With [min_samples] fixed and [eps1 < eps2], a
    run with [eps2] on the record set of a run with [eps1] returns as well
    and labels no more records noise; when [min_samples <= 3] - the code
    uses 3 - every cluster of the smaller radius lies within one cluster of
    the larger radius, which is therefore at least as large. *)
Theorem larger_radius_keeps_clusters_and_shrinks_noise (eps1 eps2 : Qc) (ms : nat)
    (data data1 : DataFrame) (L1 : list Z) :
  eps1 < eps2 →
  PollutionTracer.clustering eps1 ms data = inr (data1, L1) →
  ∃ data2 L2,
    PollutionTracer.clustering eps2 ms data = inr (data2, L2)
    ∧ (noise_count L2 ≤ noise_count L1)%nat
    ∧ (∀ i, L2 !! i = Some (-1)%Z → L1 !! i = Some (-1)%Z)
    ∧ ((ms ≤ 3)%nat → ∀ l, l ∈ L1 → l ≠ (-1)%Z →
         ∃ l', l' ≠ (-1)%Z ∧ (∀ i, L1 !! i = Some l → L2 !! i = Some l')
               ∧ (cluster_size l L1 ≤ cluster_size l' L2)%nat).
Proof.
intros Hlt Hrun1.
apply clustering_inr in Hrun1 as (X & SM & HX & HSM & HL1 & Hd1).
destruct (DBSCAN_fit_predict_larger_radius eps1 eps2 ms SM L1 (Qclt_le_weak _ _ Hlt) HL1)
  as (L2 & HL2 & Hlen & Hnoise & Hcount & Hclusters).
destruct (setitem_ok data col_cluster (map PollutionTracer.cell_of_label L2)) as [data2 Hd2].
{ apply setitem_length in Hd1. rewrite length_map in *. congruence. }
exists data2, L2. split; [by eapply clustering_steps|].
split; [exact Hcount|]. split; [exact Hnoise|].
intros Hms l Hl Hne. apply list_elem_of_lookup in Hl as [p0 Hp0].
by apply (Hclusters Hms l p0).
Qed.

Lemma larger_radius_keeps_clusters_and_shrinks_noise_witness :
  ∃ data2 L2,
    PollutionTracer.clustering (Q2Qc (17 # 20)) 3 sample_line = inr (data2, L2)
    ∧ (noise_count L2 ≤ noise_count [0; 0; 0; 0; 1; 1; 1; 1]%Z)%nat
    ∧ (∀ i, L2 !! i = Some (-1)%Z → [0; 0; 0; 0; 1; 1; 1; 1]%Z !! i = Some (-1)%Z)
    ∧ ((3 ≤ 3)%nat → ∀ l, l ∈ [0; 0; 0; 0; 1; 1; 1; 1]%Z → l ≠ (-1)%Z →
         ∃ l', l' ≠ (-1)%Z
               ∧ (∀ i, [0; 0; 0; 0; 1; 1; 1; 1]%Z !! i = Some l → L2 !! i = Some l')
               ∧ (cluster_size l [0; 0; 0; 0; 1; 1; 1; 1]%Z ≤ cluster_size l' L2)%nat).
Proof.
assert (Hrun : snd <$> PollutionTracer.clustering (Q2Qc (3 # 4)) 3 sample_line
               = inr [0; 0; 0; 0; 1; 1; 1; 1]%Z) by (vm_compute; reflexivity).
destruct (PollutionTracer.clustering (Q2Qc (3 # 4)) 3 sample_line)
  as [e|[data1 L1]] eqn:Hrun1; [discriminate Hrun|].
cbn [fmap result_fmap snd] in Hrun. injection Hrun as ->.
apply (larger_radius_keeps_clusters_and_shrinks_noise
         (Q2Qc (3 # 4)) (Q2Qc (17 # 20)) 3 sample_line data1 _); [|exact Hrun1].
by_compute.
Defined.

(** C8 as stated fails for [min_samples = 4]: on the eight outlets of the
    sample line the cluster of outlet 5, a core point under both radii, has
    the four members 4, 5, 6, 7 with [eps = 3/4] and only the three members
    5, 6, 7 with [eps = 17/20], because the larger radius brings the border
    outlet 4 within reach of the cluster found first. *)
Lemma larger_radius_shrinks_a_cluster :
  ∃ data1 data2 L1 L2,
    Q2Qc (3 # 4) < Q2Qc (17 # 20)
    ∧ PollutionTracer.clustering (Q2Qc (3 # 4)) 4 sample_line = inr (data1, L1)
    ∧ PollutionTracer.clustering (Q2Qc (17 # 20)) 4 sample_line = inr (data2, L2)
    ∧ L1 = [0; 0; 0; 0; 1; 1; 1; 1]%Z
    ∧ L2 = [0; 0; 0; 0; 0; 1; 1; 1]%Z
    ∧ cluster_size 1 L1 = 4%nat
    ∧ cluster_size 1 L2 = 3%nat
    ∧ ¬ ∃ l', ∀ i, L1 !! i = Some 1%Z → L2 !! i = Some l'.
Proof.
assert (Hrun1 : snd <$> PollutionTracer.clustering (Q2Qc (3 # 4)) 4 sample_line
                = inr [0; 0; 0; 0; 1; 1; 1; 1]%Z) by (vm_compute; reflexivity).
assert (Hrun2 : snd <$> PollutionTracer.clustering (Q2Qc (17 # 20)) 4 sample_line
                = inr [0; 0; 0; 0; 0; 1; 1; 1]%Z) by (vm_compute; reflexivity).
destruct (PollutionTracer.clustering (Q2Qc (3 # 4)) 4 sample_line)
  as [e|[data1 L1]]; [discriminate Hrun1|].
destruct (PollutionTracer.clustering (Q2Qc (17 # 20)) 4 sample_line)
  as [e|[data2 L2]]; [discriminate Hrun2|].
cbn [fmap result_fmap snd] in Hrun1, Hrun2. injection Hrun1 as ->. injection Hrun2 as ->.
eexists data1, data2, _, _. split; [by_compute|].
split; [reflexivity|]. split; [reflexivity|]. split; [reflexivity|]. split; [reflexivity|].
split; [reflexivity|]. split; [reflexivity|].
intros [l' Hl']. pose proof (Hl' 4%nat eq_refl) as H4. pose proof (Hl' 5%nat eq_refl) as H5.
simpl in H4, H5. congruence.
Qed.

(** ** Degenerate inputs *)

Lemma check_array_ok (data : DataFrame) :
  Forall has_coords (rows data) →
  check_array (map (λ r : Row, map (cell_at r) [col_lon; col_lat]) (rows data))
  = inr (coords_matrix data).
Proof.
intros Hvalid. unfold check_array, coords_matrix.
rewrite (mapM_result_inr _ (map float_of)).
- rewrite map_map. reflexivity.
- intros row Hrow. apply list_elem_of_fmap in Hrow as (r & -> & Hr).
  rewrite Forall_forall in Hvalid. destruct (Hvalid r Hr) as [Hlon Hlat].
  apply mapM_result_inr. intros v Hv. apply as_float_ok.
  simpl in Hv. rewrite !elem_of_cons, elem_of_nil in Hv.
  destruct Hv as [->|[->|[]]]; [by destruct (cell_at r col_lon)|by destruct (cell_at r col_lat)].
Qed.

Lemma float_of_num v : is_num v = true → float_of v = Some (load_or_zero v).
Proof. by destruct v. Qed.

(** On records that all have their coordinates the scaler returns the
    centred coordinates, none of them missing. *)
Lemma StandardScaler_valid (data : DataFrame) :
  rows data ≠ [] → Forall has_coords (rows data) →
  ∃ s m1 m2 SM,
    StandardScaler_fit_transform (map (λ r : Row, map (cell_at r) [col_lon; col_lat]) (rows data))
    = inr SM
    ∧ scale2 SM = s
    ∧ all_finite (centred SM)
      = Some (map (λ r : Row, [load_or_zero (cell_at r col_lon) - m1;
                               load_or_zero (cell_at r col_lat) - m2]) (rows data)).
Proof.
intros Hne Hvalid. unfold StandardScaler_fit_transform.
rewrite check_array_ok, ret_bind by exact Hvalid.
destruct (coords_matrix data) as [|row0 M'] eqn:HM.
{ unfold coords_matrix in HM. destruct (rows data); [done|discriminate HM]. }
assert (Hrow0 : length row0 = 2%nat).
{ unfold coords_matrix in HM. destruct (rows data); [discriminate HM|].
  simpl in HM. by injection HM as <- _. }
rewrite Hrow0. cbn [seq map].
eexists _, (mean_Qc (omap id (matrix_column (row0 :: M') 0))),
        (mean_Qc (omap id (matrix_column (row0 :: M') 1))), _.
split; [reflexivity|]. split; [reflexivity|]. cbn [centred].
generalize (mean_Qc (omap id (matrix_column (row0 :: M') 0))).
generalize (mean_Qc (omap id (matrix_column (row0 :: M') 1))). intros m2 m1.
match goal with
| |- context [all_finite (?h :: map ?G ?t)] => change (h :: map G t) with (map G (row0 :: M'))
end.
rewrite <- HM. unfold coords_matrix, all_finite. rewrite map_map.
apply mapM_Some. rewrite Forall_forall in Hvalid.
clear HM Hne. induction (rows data) as [|r rs IH]; [constructor|].
simpl. constructor.
- destruct (Hvalid r) as [Hlon Hlat]; [left|].
  by rewrite (float_of_num _ Hlon), (float_of_num _ Hlat).
- apply IH. intros r' Hr'. apply Hvalid. by right.
Qed.

Lemma labelling_range is_core nb n L j l :
  dbscan_labelling is_core nb n L → L !! j = Some l → l = (-1)%Z ∨ (0 ≤ l)%Z.
Proof.
intros [(k & _ & Hinv) _] Hj. destruct (inv_range _ _ _ _ _ Hinv j l Hj); [by left|right; lia].
Qed.

Lemma list_eq_replicate (L : list Z) n l :
  length L = n → (∀ j, (j < n)%nat → L !! j = Some l) → L = replicate n l.
Proof.
intros Hlen Hall. apply list_eq. intros j.
destruct (decide (j < n)%nat) as [Hj|Hj].
- rewrite (Hall j Hj). symmetry. by apply lookup_replicate.
- rewrite lookup_ge_None_2 by lia. symmetry. apply lookup_replicate_None. lia.
Qed.

(** C3 (as the code has it). On a non-empty record set in which every
    record has both coordinates, clustering returns without error; with
    fewer records than [min_samples] it finds no cluster and labels every
    record noise; when all records are at one place and there are at least
    [min_samples] of them, it puts them all in one cluster and labels none
    noise. *)
Theorem degenerate_clustering_input (eps : Qc) (ms : nat) (data : DataFrame) :
  0 < eps → (1 ≤ ms)%nat →
  col_lon ∈ columns data → col_lat ∈ columns data →
  rows data ≠ [] → Forall has_coords (rows data) →
  ∃ data' L,
    PollutionTracer.clustering eps ms data = inr (data', L)
    ∧ length L = length (rows data)
    ∧ ((length (rows data) < ms)%nat → L = replicate (length (rows data)) (-1)%Z)
    ∧ ((ms ≤ length (rows data))%nat →
       (∀ r1 r2 : Row, r1 ∈ rows data → r2 ∈ rows data → same_place r1 r2) →
       ∃ l, (0 ≤ l)%Z ∧ L = replicate (length (rows data)) l).
Proof.
intros Hpos Hms Hlon Hlat Hne Hvalid.
destruct (StandardScaler_valid data Hne Hvalid) as (s & m1 & m2 & SM & HSM & Hs & Hpts).
set (point := λ r : Row, [load_or_zero (cell_at r col_lon) - m1;
                          load_or_zero (cell_at r col_lat) - m2]) in *.
set (pts := map point (rows data)) in *.
assert (Hn : length pts = length (rows data)) by apply length_map.
destruct (DBSCAN_fit_predict_labelling eps ms SM pts Hpos Hms Hpts) as (L & HL & Hlab).
rewrite Hs in Hlab.
pose proof (labelling_length _ _ _ _ Hlab) as Hlen. rewrite Hn in Hlen.
destruct (setitem_ok data col_cluster (map PollutionTracer.cell_of_label L)) as [data' Hd].
{ by rewrite length_map. }
exists data', L. split.
{ eapply clustering_steps; [|exact HSM|exact HL|exact Hd].
  apply values_ok. by repeat constructor. }
split; [exact Hlen|]. split.
- intros Hfew. apply list_eq_replicate; [exact Hlen|]. intros j Hj.
  rewrite <- Hn in Hj.
  apply (labelling_noise _ _ _ L Hlab j Hj).
  assert (Hnocore : ∀ c, bool_decide (ms ≤ length (radius_neighbors eps s pts c))%nat = false).
  { intros c. apply bool_decide_eq_false_2.
    pose proof (radius_neighbors_length eps s pts c). lia. }
  split; [apply Hnocore|]. intros c Hc. rewrite Hnocore in Hc. discriminate Hc.
- intros Hmany Hsame.
  assert (Hpoint : ∀ i j, (i < length pts)%nat → (j < length pts)%nat → pts !!! i = pts !!! j).
  { intros i j Hi Hj.
    apply lookup_lt_is_Some in Hi as [p Hp]. apply lookup_lt_is_Some in Hj as [q Hq].
    rewrite (list_lookup_total_correct _ _ _ Hp), (list_lookup_total_correct _ _ _ Hq).
    unfold pts in Hp, Hq. rewrite list_lookup_fmap in Hp, Hq.
    destruct (rows data !! i) as [r1|] eqn:Hr1; [|discriminate Hp].
    destruct (rows data !! j) as [r2|] eqn:Hr2; [|discriminate Hq].
    simpl in Hp, Hq. injection Hp as <-. injection Hq as <-.
    destruct (Hsame r1 r2) as [Hx Hy]; [by eapply list_elem_of_lookup_2..|].
    unfold point. by rewrite Hx, Hy. }
  assert (Hall : ∀ i j, (i < length pts)%nat → (j < length pts)%nat →
                        j ∈ radius_neighbors eps s pts i).
  { intros i j Hi Hj. apply elem_of_radius_neighbors. split; [exact Hj|].
    rewrite (Hpoint i j Hi Hj). by apply within_refl. }
  assert (Hcore : ∀ i, (i < length pts)%nat →
                       bool_decide (ms ≤ length (radius_neighbors eps s pts i))%nat = true).
  { intros i Hi. apply bool_decide_eq_true_2.
    assert (Hsub : seq 0 (length pts) ⊆+ radius_neighbors eps s pts i).
    { apply NoDup_submseteq; [apply NoDup_seq|]. intros j Hj.
      apply elem_of_seq in Hj. apply Hall; [exact Hi|lia]. }
    apply submseteq_length in Hsub. rewrite length_seq in Hsub. lia. }
  assert (H0 : (0 < length pts)%nat) by lia.
  destruct (labelling_core _ _ _ L Hlab 0%nat H0 (Hcore 0%nat H0)) as (l & Hl & Hlne).
  exists l. split.
  { destruct (labelling_range _ _ _ _ _ _ Hlab Hl); [contradiction|assumption]. }
  apply list_eq_replicate; [exact Hlen|]. intros j Hj. rewrite <- Hn in Hj.
  destruct (labelling_reach _ _ _ L Hlab 0%nat j H0 (Hcore 0%nat H0) (Hall 0%nat j H0 Hj))
    as (lc & lv & Hlc & Hlv & _ & _ & Hsamel).
  rewrite Hlv, (Hsamel (Hcore j Hj)). congruence.
Qed.

Lemma degenerate_clustering_input_witness :
  ∃ data' L,
    PollutionTracer.clustering PollutionTracer.eps_default 3 sample_ties = inr (data', L)
    ∧ length L = length (rows sample_ties)
    ∧ ((length (rows sample_ties) < 3)%nat → L = replicate (length (rows sample_ties)) (-1)%Z)
    ∧ ((3 ≤ length (rows sample_ties))%nat →
       (∀ r1 r2 : Row, r1 ∈ rows sample_ties → r2 ∈ rows sample_ties → same_place r1 r2) →
       ∃ l, (0 ≤ l)%Z ∧ L = replicate (length (rows sample_ties)) l).
Proof.
apply (degenerate_clustering_input PollutionTracer.eps_default 3 sample_ties).
- by_compute.
- lia.
- by_compute.
- by_compute.
- discriminate.
- by_compute.
Defined.

(** C3 as stated fails on its second case: the three outlets of the sample
    are at one place and [spatial_clustering] puts them in cluster 0; none
    is labelled noise. *)
Lemma identical_points_form_a_cluster :
  (∀ r1 r2 : Row, r1 ∈ rows sample_ties → r2 ∈ rows sample_ties → same_place r1 r2)
  ∧ ∃ data' L,
      PollutionTracer.spatial_clustering sample_ties = inr (data', L)
      ∧ L = [0; 0; 0]%Z
      ∧ noise_count L = 0%nat
      ∧ L ≠ replicate (length (rows sample_ties)) (-1)%Z.
Proof.
split.
- assert (Hall : Forall (λ r1 : Row, Forall (λ r2 : Row, same_place r1 r2) (rows sample_ties))
                   (rows sample_ties)) by by_compute.
  intros r1 r2 H1 H2. rewrite Forall_forall in Hall. specialize (Hall r1 H1).
  rewrite Forall_forall in Hall. by apply Hall.
- assert (Hrun : snd <$> PollutionTracer.spatial_clustering sample_ties = inr [0; 0; 0]%Z)
    by (vm_compute; reflexivity).
  destruct (PollutionTracer.spatial_clustering sample_ties) as [e|[data' L]];
    [discriminate Hrun|].
  cbn [fmap result_fmap snd] in Hrun. injection Hrun as ->.
  exists data', [0; 0; 0]%Z. split; [reflexivity|]. split; [reflexivity|].
  split; [reflexivity|]. discriminate.
Qed.

(** * Further properties of the code *)

(** ** Errors of the clustering step *)

Lemma check_columns_error df cols e :
  check_columns df cols = inl e →
  ∃ col, e = KeyError col ∧ col ∈ cols ∧ col ∉ columns df.
Proof.
induction cols as [|col cols IH]; simpl; [discriminate|].
case_bool_decide as Hcol.
- intros Hrest. destruct (IH Hrest) as (c & -> & Hc & Hnc). exists c. by repeat constructor.
- intros He. injection He as <-. exists col. by repeat constructor.
Qed.

(** X1. [spatial_clustering] on a record set without records raises
    [ValueError] (the scaler refuses an empty matrix), and without one of the
    coordinate columns it raises [KeyError] for that column. *)
Theorem spatial_clustering_refuses_empty_and_unknown (data : DataFrame) :
  (col_lon ∈ columns data → col_lat ∈ columns data → rows data = [] →
   PollutionTracer.spatial_clustering data = inl ValueError)
  ∧ (col_lon ∉ columns data →
     PollutionTracer.spatial_clustering data = inl (KeyError col_lon))
  ∧ (col_lon ∈ columns data → col_lat ∉ columns data →
     PollutionTracer.spatial_clustering data = inl (KeyError col_lat)).
Proof.
unfold PollutionTracer.spatial_clustering, PollutionTracer.clustering.
split; [|split].
- intros Hlon Hlat Hrows. rewrite values_ok, ret_bind by (by repeat constructor).
  rewrite Hrows. reflexivity.
- intros Hlon. unfold values. simpl. by rewrite bool_decide_eq_false_2.
- intros Hlon Hlat. unfold values. simpl.
  rewrite bool_decide_eq_true_2 by exact Hlon. by rewrite bool_decide_eq_false_2.
Qed.

Lemma spatial_clustering_refuses_empty_and_unknown_witness :
  PollutionTracer.spatial_clustering {| columns := sheet_columns; rows := [] |} = inl ValueError
  ∧ PollutionTracer.spatial_clustering {| columns := [col_lat]; rows := [] |}
    = inl (KeyError col_lon)
  ∧ PollutionTracer.spatial_clustering {| columns := [col_lon]; rows := [] |}
    = inl (KeyError col_lat).
Proof.
split; [|split].
- apply (spatial_clustering_refuses_empty_and_unknown {| columns := sheet_columns; rows := [] |});
    [by_compute|by_compute|reflexivity].
- apply (spatial_clustering_refuses_empty_and_unknown {| columns := [col_lat]; rows := [] |}).
  by_compute.
- apply (spatial_clustering_refuses_empty_and_unknown {| columns := [col_lon]; rows := [] |});
    by_compute.
Defined.

(** ** Errors and composition of the preprocessing *)

Lemma coerce_column_absent parse_number df col :
  col ∉ columns df → coerce_column parse_number df col = inl (KeyError col).
Proof. intros Hcol. unfold coerce_column, getitem. by rewrite bool_decide_eq_false_2. Qed.

Lemma coerce_columns_first_absent parse_number (pre post : list string) col : ∀ df,
  Forall (λ c, c ∈ columns df) pre → col ∉ columns df →
  coerce_columns parse_number df (pre ++ col :: post) = inl (KeyError col).
Proof.
induction pre as [|c pre IH]; intros df Hpre Hcol; simpl.
- by rewrite coerce_column_absent.
- apply Forall_cons in Hpre as [Hc Hpre].
  rewrite (coerce_column_present _ _ _ Hc), ret_bind. by apply IH.
Qed.

(** X2. [PollutionTracer.preprocess_data] reads seven columns without a
    guard: it returns exactly when the sheet has all of them, and otherwise
    raises [KeyError] for the first absent one in the order longitude,
    latitude, wastewater, primary pollutant, ammonia, phosphorus, nitrogen. *)
Theorem preprocess_data_needs_its_columns (parse_number : string → option Qc)
    (data : DataFrame) :
  ((∃ data', PollutionTracer.preprocess_data parse_number data = inr data')
   ↔ Forall (λ col, col ∈ columns data) (col_lon :: col_lat :: PollutionTracer.pollution_cols))
  ∧ ∀ pre col post,
      col_lon :: col_lat :: PollutionTracer.pollution_cols = pre ++ col :: post →
      Forall (λ c, c ∈ columns data) pre → col ∉ columns data →
      PollutionTracer.preprocess_data parse_number data = inl (KeyError col).
Proof.
assert (Hfold : PollutionTracer.preprocess_data parse_number data
                = coerce_columns parse_number data
                    (col_lon :: col_lat :: PollutionTracer.pollution_cols)) by reflexivity.
split.
- split.
  + intros [data' Hok]. rewrite Hfold in Hok. by eapply coerce_columns_inr.
  + intros Hall. rewrite Hfold, coerce_columns_present by exact Hall. eauto.
- intros pre col post Hsplit Hpre Hcol. rewrite Hfold, Hsplit.
  by apply coerce_columns_first_absent.
Qed.

Lemma preprocess_data_needs_its_columns_witness :
  PollutionTracer.preprocess_data parse_digits
    {| columns := [col_lon; col_lat; col_wastewater]; rows := [] |}
  = inl (KeyError col_primary).
Proof.
destruct (preprocess_data_needs_its_columns parse_digits
            {| columns := [col_lon; col_lat; col_wastewater]; rows := [] |}) as [_ Hfirst].
apply (Hfirst [col_lon; col_lat; col_wastewater] col_primary
              [col_ammonia; col_phosphorus; col_nitrogen]).
- reflexivity.
- by_compute.
- by_compute.
Defined.

(** X3. [DataAnalyzer.preprocess_data] guards the five measurement columns
    ([if col in self.data.columns]) but not the two coordinate columns: it
    returns exactly when both coordinate columns exist, whatever measurement
    columns are absent, and raises [KeyError] for the absent coordinate
    column otherwise. *)
Theorem analyzer_preprocess_data_guard (parse_number : string → option Qc)
    (data : DataFrame) :
  ((∃ data', DataAnalyzer.preprocess_data parse_number data = inr data')
   ↔ DataAnalyzer.col_geo_lon ∈ columns data ∧ DataAnalyzer.col_geo_lat ∈ columns data)
  ∧ (DataAnalyzer.col_geo_lon ∉ columns data →
     DataAnalyzer.preprocess_data parse_number data = inl (KeyError DataAnalyzer.col_geo_lon))
  ∧ (DataAnalyzer.col_geo_lon ∈ columns data → DataAnalyzer.col_geo_lat ∉ columns data →
     DataAnalyzer.preprocess_data parse_number data = inl (KeyError DataAnalyzer.col_geo_lat)).
Proof.
unfold DataAnalyzer.preprocess_data. rewrite coerce_present_filter, ret_bind.
assert (Hlon_err : DataAnalyzer.col_geo_lon ∉ columns data →
  (coerce_column parse_number
     {| columns := columns data;
        rows := map (coerce_cells parse_number
                       (filter (λ col, col ∈ columns data) DataAnalyzer.numeric_cols))
                    (rows data) |} DataAnalyzer.col_geo_lon
   ≫= λ d, coerce_column parse_number d DataAnalyzer.col_geo_lat)
  = inl (KeyError DataAnalyzer.col_geo_lon)).
{ intros Hlon. by rewrite coerce_column_absent. }
assert (Hlat_err : DataAnalyzer.col_geo_lon ∈ columns data →
  DataAnalyzer.col_geo_lat ∉ columns data →
  (coerce_column parse_number
     {| columns := columns data;
        rows := map (coerce_cells parse_number
                       (filter (λ col, col ∈ columns data) DataAnalyzer.numeric_cols))
                    (rows data) |} DataAnalyzer.col_geo_lon
   ≫= λ d, coerce_column parse_number d DataAnalyzer.col_geo_lat)
  = inl (KeyError DataAnalyzer.col_geo_lat)).
{ intros Hlon Hlat. rewrite coerce_column_present, ret_bind by exact Hlon.
  by rewrite coerce_column_absent. }
split; [|split; [exact Hlon_err|exact Hlat_err]].
split.
- intros [data' Hok].
  destruct (decide (DataAnalyzer.col_geo_lon ∈ columns data)) as [Hlon|Hlon];
    [|rewrite (Hlon_err Hlon) in Hok; discriminate Hok].
  destruct (decide (DataAnalyzer.col_geo_lat ∈ columns data)) as [Hlat|Hlat];
    [done|rewrite (Hlat_err Hlon Hlat) in Hok; discriminate Hok].
- intros [Hlon Hlat]. rewrite coerce_column_present, ret_bind by exact Hlon.
  rewrite coerce_column_present by exact Hlat. eauto.
Qed.

Lemma analyzer_preprocess_data_guard_witness :
  (∃ data', DataAnalyzer.preprocess_data parse_digits sample_analysis_raw = inr data')
  ∧ DataAnalyzer.preprocess_data parse_digits {| columns := ["pH"]; rows := [] |}
    = inl (KeyError DataAnalyzer.col_geo_lon).
Proof.
split.
- apply (analyzer_preprocess_data_guard parse_digits sample_analysis_raw). split; by_compute.
- apply (analyzer_preprocess_data_guard parse_digits {| columns := ["pH"]; rows := [] |}).
  by_compute.
Defined.

Lemma coerce_cells_idemp parse_number cols (r : Row) :
  coerce_cells parse_number cols (coerce_cells parse_number cols r)
  = coerce_cells parse_number cols r.
Proof.
apply map_eq. intros col. rewrite !coerce_cells_lookup.
destruct (decide (col ∈ cols)) as [Hin|Hin]; [|reflexivity].
unfold cell_at at 1. rewrite coerce_cells_lookup, decide_True by exact Hin. simpl.
by rewrite coerce_idemp.
Qed.

(** X4. Preprocessing is idempotent: run on its own result, either
    [preprocess_data] returns that result unchanged. *)
Theorem preprocess_data_idempotent (parse_number : string → option Qc)
    (raw data : DataFrame) :
  (PollutionTracer.preprocess_data parse_number raw = inr data →
   PollutionTracer.preprocess_data parse_number data = inr data)
  ∧ (DataAnalyzer.preprocess_data parse_number raw = inr data →
     DataAnalyzer.preprocess_data parse_number data = inr data).
Proof.
split.
- intros Hok. pose proof (preprocess_data_inr _ _ _ Hok) as ->.
  assert (Hfold : ∀ d, PollutionTracer.preprocess_data parse_number d
                  = coerce_columns parse_number d
                      (col_lon :: col_lat :: PollutionTracer.pollution_cols)) by reflexivity.
  rewrite Hfold in Hok. apply coerce_columns_inr in Hok.
  rewrite Hfold, coerce_columns_present by exact Hok. simpl.
  rewrite map_map. do 2 f_equal. apply map_ext. intros r. apply coerce_cells_idemp.
- unfold DataAnalyzer.preprocess_data. intros Hok.
  rewrite coerce_present_filter, ret_bind in Hok.
  apply bind_inr in Hok as (d1 & H1 & H2).
  pose proof (coerce_column_inr _ _ _ _ H1) as Hlon. simpl in Hlon.
  rewrite coerce_column_present in H1 by exact Hlon. injection H1 as <-.
  pose proof (coerce_column_inr _ _ _ _ H2) as Hlat. simpl in Hlat.
  rewrite coerce_column_present in H2 by exact Hlat. injection H2 as <-.
  rewrite coerce_present_filter, ret_bind. simpl.
  rewrite coerce_column_present, ret_bind by exact Hlon.
  rewrite coerce_column_present by exact Hlat. simpl.
  rewrite !map_map. do 2 f_equal. apply map_ext. intros r.
  set (cols := filter (λ col, col ∈ columns raw) DataAnalyzer.numeric_cols).
  change (coerce_cells parse_number [DataAnalyzer.col_geo_lat]
            (coerce_cells parse_number [DataAnalyzer.col_geo_lon]
               (coerce_cells parse_number cols
                  (coerce_cells parse_number [DataAnalyzer.col_geo_lat]
                     (coerce_cells parse_number [DataAnalyzer.col_geo_lon]
                        (coerce_cells parse_number cols r)))))
          = coerce_cells parse_number [DataAnalyzer.col_geo_lat]
              (coerce_cells parse_number [DataAnalyzer.col_geo_lon]
                 (coerce_cells parse_number cols r))).
  assert (Happ : ∀ x, coerce_cells parse_number [DataAnalyzer.col_geo_lat]
                   (coerce_cells parse_number [DataAnalyzer.col_geo_lon]
                      (coerce_cells parse_number cols x))
                 = coerce_cells parse_number
                     (cols ++ [DataAnalyzer.col_geo_lon; DataAnalyzer.col_geo_lat]) x).
  { intros x. unfold coerce_cells. by rewrite foldl_app. }
  rewrite !Happ. apply coerce_cells_idemp.
Qed.

Lemma preprocess_data_idempotent_witness :
  PollutionTracer.preprocess_data parse_digits sample_data = inr sample_data.
Proof.
apply (preprocess_data_idempotent parse_digits sample_raw sample_data).
vm_compute. reflexivity.
Defined.

(** ** What the clustering stores *)

Lemma setitem_inr df col vals df' :
  setitem df col vals = inr df' →
  (∀ c, c ∈ columns df' ↔ c = col ∨ c ∈ columns df)
  ∧ rows df' = zip_with (λ (r : Row) v, <[col := v]> r) (rows df) vals
  ∧ length (rows df') = length (rows df)
  ∧ column_of (rows df') col = vals.
Proof.
unfold setitem. case_bool_decide as Hlen; [|discriminate].
intros Hd; injection Hd as <-. simpl. split; [|split; [reflexivity|split]].
- intros c. case_bool_decide as Hcol.
  + split; [by right|]. intros [->|?]; assumption.
  + rewrite elem_of_app, list_elem_of_singleton. tauto.
- rewrite length_zip_with. lia.
- unfold column_of. revert vals Hlen.
  induction (rows df) as [|r rs IH]; intros [|v vals] Hlen; simpl in *; try discriminate; [done|].
  f_equal; [|apply IH; lia]. unfold cell_at. by rewrite lookup_insert_eq.
Qed.

Lemma setitem_inr_lookup df col vals df' i (r : Row) :
  setitem df col vals = inr df' → rows df !! i = Some r →
  ∃ v, vals !! i = Some v ∧ rows df' !! i = Some (<[col := v]> r).
Proof.
intros Hd Hi. pose proof (setitem_length _ _ _ _ Hd) as Hlen.
destruct (setitem_inr _ _ _ _ Hd) as (_ & Hrows & _ & _).
assert (Hv : (i < length vals)%nat) by (rewrite Hlen; by eapply lookup_lt_Some).
apply lookup_lt_is_Some in Hv as [v Hv]. exists v. split; [exact Hv|].
rewrite Hrows, lookup_zip_with, Hi. simpl. by rewrite Hv.
Qed.

(** X5. When [spatial_clustering] returns, every record has received
    exactly one label, -1 or a cluster number from 0 up; the labels are
    stored in the [cluster] column in record order, no record is added or
    dropped, and no other cell of any record changes. *)
Theorem spatial_clustering_labels_every_record (data data' : DataFrame) (clusters : list Z) :
  PollutionTracer.spatial_clustering data = inr (data', clusters) →
  length clusters = length (rows data)
  ∧ Forall (λ l, l = (-1)%Z ∨ (0 ≤ l)%Z) clusters
  ∧ column_of (rows data') col_cluster = map PollutionTracer.cell_of_label clusters
  ∧ length (rows data') = length (rows data)
  ∧ (∀ c, c ∈ columns data' ↔ c = col_cluster ∨ c ∈ columns data)
  ∧ ∀ i (r : Row), rows data !! i = Some r →
      ∃ (r' : Row) l, rows data' !! i = Some r' ∧ clusters !! i = Some l
        ∧ r' !! col_cluster = Some (PollutionTracer.cell_of_label l)
        ∧ ∀ col, col ≠ col_cluster → r' !! col = r !! col.
Proof.
intros Hrun. apply clustering_inr in Hrun as (X & SM & HX & HSM & HL & Hd).
pose proof (setitem_length _ _ _ _ Hd) as Hlen. rewrite length_map in Hlen.
destruct (setitem_inr _ _ _ _ Hd) as (Hcols & _ & Hrows & Hcol).
apply DBSCAN_fit_predict_inr in HL as (_ & _ & pts & _ & Hlab).
split; [exact Hlen|]. split; [|split; [exact Hcol|split; [exact Hrows|split; [exact Hcols|]]]].
- apply Forall_forall. intros l Hl. apply list_elem_of_lookup in Hl as [j Hj].
  by eapply labelling_range.
- intros i r Hi. destruct (setitem_inr_lookup _ _ _ _ i r Hd Hi) as (v & Hv & Hr').
  rewrite list_lookup_fmap in Hv.
  destruct (clusters !! i) as [l|] eqn:Hl; [|discriminate Hv]. injection Hv as <-.
  eexists _, l. split; [exact Hr'|]. split; [reflexivity|]. split.
  + apply lookup_insert_eq.
  + intros col Hne. by apply lookup_insert_ne.
Qed.

Lemma spatial_clustering_labels_every_record_witness :
  ∃ data' clusters,
    PollutionTracer.spatial_clustering sample_data = inr (data', clusters)
    ∧ length clusters = length (rows sample_data)
    ∧ Forall (λ l, l = (-1)%Z ∨ (0 ≤ l)%Z) clusters
    ∧ column_of (rows data') col_cluster = map PollutionTracer.cell_of_label clusters.
Proof.
assert (Hsome : (λ _, ()) <$> PollutionTracer.spatial_clustering sample_data = inr ())
  by (vm_compute; reflexivity).
destruct (PollutionTracer.spatial_clustering sample_data) as [e|[data' clusters]] eqn:Hrun;
  [discriminate Hsome|].
destruct (spatial_clustering_labels_every_record sample_data data' clusters Hrun)
  as (H1 & H2 & H3 & _).
exists data', clusters. split; [reflexivity|]. split; [exact H1|]. split; [exact H2|exact H3].
Defined.

(** ** Which records are noise, and records at one place *)

Lemma values_inr df cols X :
  values df cols = inr X → X = map (λ r : Row, map (cell_at r) cols) (rows df).
Proof.
unfold values. intros HX. apply bind_inr in HX as (u & _ & HX). by injection HX as <-.
Qed.

(** The scaler centres each row with the same means. *)
Lemma StandardScaler_inr (data : DataFrame) SM :
  StandardScaler_fit_transform (map (λ r : Row, map (cell_at r) [col_lon; col_lat]) (rows data))
  = inr SM →
  ∃ mean_, centred SM
    = map (λ r : Row, zip_with (λ (x : option Qc) (m : Qc), (λ x0 : Qc, x0 - m) <$> x)
                        [float_of (cell_at r col_lon); float_of (cell_at r col_lat)] mean_)
          (rows data).
Proof.
unfold StandardScaler_fit_transform. intros HSM.
apply bind_inr in HSM as (M & HM & HSM). apply check_array_inr in HM as ->.
destruct (coords_matrix data) as [|row0 M'] eqn:HM; [discriminate HSM|].
injection HSM as <-.
pose (mean_ := map (λ j, mean_Qc (omap id (matrix_column (row0 :: M') j)))
                   (seq 0 (length row0))).
exists mean_.
transitivity (map (λ row, zip_with (λ (x : option Qc) (m : Qc), (λ x0 : Qc, x0 - m) <$> x)
                            row mean_) (coords_matrix data)).
- rewrite HM. reflexivity.
- unfold coords_matrix. by rewrite map_map.
Qed.

(** The points that [DBSCAN] works on, for a run that returns: one per
    record, and equal for records at one place. *)
Lemma clustering_points eps ms data data' L :
  PollutionTracer.clustering eps ms data = inr (data', L) →
  ∃ SM pts,
    StandardScaler_fit_transform
      (map (λ r : Row, map (cell_at r) [col_lon; col_lat]) (rows data)) = inr SM
    ∧ all_finite (centred SM) = Some pts
    ∧ length pts = length (rows data)
    ∧ 0 < eps ∧ (1 ≤ ms)%nat
    ∧ dbscan_labelling
        (λ i, bool_decide (ms ≤ length (radius_neighbors eps (scale2 SM) pts i))%nat)
        (radius_neighbors eps (scale2 SM) pts) (length pts) L
    ∧ ∀ i j (r1 r2 : Row), rows data !! i = Some r1 → rows data !! j = Some r2 →
        same_place r1 r2 → pts !!! i = pts !!! j.
Proof.
intros Hrun. apply clustering_inr in Hrun as (X & SM & HX & HSM & HL & Hd).
apply values_inr in HX as ->.
apply DBSCAN_fit_predict_inr in HL as (Hpos & Hms & pts & Hpts & Hlab).
pose proof (setitem_length _ _ _ _ Hd) as Hlen. rewrite length_map in Hlen.
pose proof (labelling_length _ _ _ _ Hlab) as HlenL.
exists SM, pts. split; [exact HSM|]. split; [exact Hpts|]. split; [congruence|].
split; [exact Hpos|]. split; [exact Hms|]. split; [exact Hlab|].
intros i j r1 r2 Hi Hj [Hx Hy].
destruct (StandardScaler_inr data SM HSM) as [mean_ Hcentred].
unfold all_finite in Hpts. apply mapM_Some in Hpts. rewrite Hcentred in Hpts.
assert (Hpoint : ∀ i (r : Row), rows data !! i = Some r →
          ∃ p, pts !! i = Some p
               ∧ mapM id (zip_with (λ (x : option Qc) (m : Qc), (λ x0 : Qc, x0 - m) <$> x)
                            [float_of (cell_at r col_lon); float_of (cell_at r col_lat)] mean_)
                 = Some p).
{ intros i' r Hr.
  eapply Forall2_lookup_l in Hpts as (p & Hp & Hmap);
    [|rewrite list_lookup_fmap, Hr; reflexivity].
  exists p. auto. }
destruct (Hpoint i r1 Hi) as (p1 & Hp1 & Hm1). destruct (Hpoint j r2 Hj) as (p2 & Hp2 & Hm2).
rewrite (list_lookup_total_correct _ _ _ Hp1), (list_lookup_total_correct _ _ _ Hp2).
rewrite Hx, Hy in Hm1. congruence.
Qed.

(** X6. For a clustering run that returns, a record is labelled noise
    exactly when fewer than [min_samples] records (itself included) lie
    within [eps] of it and it lies within [eps] of no record that has
    [min_samples] records within [eps]. *)
Theorem noise_is_what_no_core_record_reaches (eps : Qc) (ms : nat)
    (data data' : DataFrame) (L : list Z) :
  PollutionTracer.clustering eps ms data = inr (data', L) →
  ∃ SM pts,
    StandardScaler_fit_transform
      (map (λ r : Row, map (cell_at r) [col_lon; col_lat]) (rows data)) = inr SM
    ∧ all_finite (centred SM) = Some pts
    ∧ length pts = length (rows data)
    ∧ ∀ j, (j < length (rows data))%nat →
        (L !! j = Some (-1)%Z
         ↔ (length (radius_neighbors eps (scale2 SM) pts j) < ms)%nat
           ∧ ∀ c, (c < length (rows data))%nat →
                  (ms ≤ length (radius_neighbors eps (scale2 SM) pts c))%nat →
                  j ∉ radius_neighbors eps (scale2 SM) pts c).
Proof.
intros Hrun.
destruct (clustering_points eps ms data data' L Hrun)
  as (SM & pts & HSM & Hpts & Hlen & _ & _ & Hlab & _).
exists SM, pts. split; [exact HSM|]. split; [exact Hpts|]. split; [exact Hlen|].
intros j Hj. rewrite <- Hlen in Hj.
rewrite (labelling_noise _ _ _ L Hlab j Hj), bool_decide_eq_false. rewrite <- Hlen.
split.
- intros [Hnc Hfar]. split; [lia|]. intros c Hc Hcore. apply Hfar; [|exact Hc].
  by apply bool_decide_eq_true_2.
- intros [Hnc Hfar]. split; [lia|]. intros c Hcore Hc. apply Hfar; [exact Hc|].
  by apply bool_decide_eq_true_1 in Hcore.
Qed.

Lemma noise_is_what_no_core_record_reaches_witness :
  ∃ data' L SM pts,
    PollutionTracer.clustering PollutionTracer.eps_default 3 sample_data = inr (data', L)
    ∧ all_finite (centred SM) = Some pts
    ∧ ∀ j, (j < length (rows sample_data))%nat →
        (L !! j = Some (-1)%Z
         ↔ (length (radius_neighbors PollutionTracer.eps_default (scale2 SM) pts j) < 3)%nat
           ∧ ∀ c, (c < length (rows sample_data))%nat →
                  (3 ≤ length (radius_neighbors PollutionTracer.eps_default (scale2 SM) pts c))%nat →
                  j ∉ radius_neighbors PollutionTracer.eps_default (scale2 SM) pts c).
Proof.
assert (Hsome : (λ _, ()) <$> PollutionTracer.clustering PollutionTracer.eps_default 3 sample_data
                = inr ()) by (vm_compute; reflexivity).
destruct (PollutionTracer.clustering PollutionTracer.eps_default 3 sample_data)
  as [e|[data' L]] eqn:Hrun; [discriminate Hsome|].
destruct (noise_is_what_no_core_record_reaches _ _ _ _ _ Hrun)
  as (SM & pts & _ & Hpts & _ & Hchar).
exists data', L, SM, pts. split; [reflexivity|]. split; [exact Hpts|exact Hchar].
Defined.

(** X7. With [min_samples <= 3], as in [spatial_clustering], two records at
    the same place always receive the same label. *)
Theorem records_at_one_place_share_their_label (eps : Qc) (ms : nat)
    (data data' : DataFrame) (L : list Z) i j (r1 r2 : Row) :
  PollutionTracer.clustering eps ms data = inr (data', L) → (ms ≤ 3)%nat →
  rows data !! i = Some r1 → rows data !! j = Some r2 → same_place r1 r2 →
  L !! i = L !! j.
Proof.
intros Hrun Hms3 Hi Hj Hsame.
destruct (decide (i = j)) as [->|Hij]; [reflexivity|].
destruct (clustering_points eps ms data data' L Hrun)
  as (SM & pts & _ & _ & Hlen & Hpos & Hms & Hlab & Hpoint).
set (s := scale2 SM) in *. set (nb := radius_neighbors eps s pts) in *.
assert (Hin : (i < length pts)%nat) by (rewrite Hlen; by eapply lookup_lt_Some).
assert (Hjn : (j < length pts)%nat) by (rewrite Hlen; by eapply lookup_lt_Some).
pose proof (Hpoint i j r1 r2 Hi Hj Hsame) as Hpt.
assert (Hnb : nb i = nb j) by (unfold nb, radius_neighbors; by rewrite Hpt).
assert (Hji : j ∈ nb i).
{ apply elem_of_radius_neighbors. split; [exact Hjn|]. rewrite Hpt. by apply within_refl. }
assert (Hij' : i ∈ nb j) by (by apply radius_neighbors_sym).
destruct (bool_decide (ms ≤ length (nb i))%nat) eqn:Hcore.
- assert (Hcorej : bool_decide (ms ≤ length (nb j))%nat = true) by (by rewrite <- Hnb).
  destruct (labelling_reach _ _ _ L Hlab i j Hin Hcore Hji)
    as (lc & lv & Hlc & Hlv & _ & _ & Heq).
  rewrite Hlc, Hlv. f_equal. symmetry. by apply Heq.
- assert (Hcorej : bool_decide (ms ≤ length (nb j))%nat = false) by (by rewrite <- Hnb).
  assert (Hnoise : ∀ p q, (p < length pts)%nat → p ≠ q → q ∈ nb p →
            bool_decide (ms ≤ length (nb p))%nat = false →
            bool_decide (ms ≤ length (nb q))%nat = false →
            L !! p = Some (-1)%Z).
  { intros p q Hp Hpq Hq Hncp Hncq.
    apply (labelling_noise _ _ _ L Hlab p Hp). split; [exact Hncp|].
    intros c Hc Hcn Hpc.
    assert (Hcp : c ∈ nb p) by (by apply radius_neighbors_sym).
    assert (c = q).
    { apply (border_has_one_neighbour eps s pts ms p c q Hpos Hms3 Hp Hncp Hcp Hq).
      - intros ->. simpl in Hc. fold nb in Hc. congruence.
      - congruence. }
    subst c. simpl in Hc. fold nb in Hc. congruence. }
  rewrite (Hnoise i j Hin Hij Hji Hcore Hcorej).
  symmetry. apply (Hnoise j i Hjn); auto.
Qed.

Lemma records_at_one_place_share_their_label_witness :
  ∃ data' L,
    PollutionTracer.clustering PollutionTracer.eps_default 3 sample_data = inr (data', L)
    ∧ L !! 0%nat = L !! 1%nat.
Proof.
assert (Hsome : (λ _, ()) <$> PollutionTracer.clustering PollutionTracer.eps_default 3 sample_data
                = inr ()) by (vm_compute; reflexivity).
destruct (PollutionTracer.clustering PollutionTracer.eps_default 3 sample_data)
  as [e|[data' L]] eqn:Hrun; [discriminate Hsome|].
exists data', L. split; [reflexivity|].
eapply (records_at_one_place_share_their_label _ 3 sample_data data' L 0 1 _ _ Hrun).
- lia.
- reflexivity.
- reflexivity.
- by_compute.
Defined.

(** ** Cluster numbers *)

Section ClusterNumbers.

Variable is_core : nat → bool.
Variable nb : nat → list nat.
Variable n : nat.
Hypothesis nb_bound : ∀ i v, v ∈ nb i → (v < n)%nat.
Hypothesis nb_length : ∀ i, (length (nb i) ≤ n)%nat.
Hypothesis nb_sym : ∀ i j, (i < n)%nat → j ∈ nb i → i ∈ nb j.

(** The outer loop numbers the clusters without gaps. *)
Lemma scan_numbers idxs : ∀ k L L',
  (0 ≤ k)%Z → clustering_inv is_core nb n k L →
  (∀ l, (0 ≤ l < k)%Z → l ∈ L) →
  scan is_core nb (S (n * n)) idxs k L = Some L' →
  ∃ k', (k ≤ k')%Z ∧ (∀ l, l ∈ L' → l = (-1)%Z ∨ (0 ≤ l < k')%Z)
        ∧ ∀ l, (0 ≤ l < k')%Z → l ∈ L'.
Proof.
induction idxs as [|i idxs IH]; intros k L L' Hk Hinv Hused Hscan.
- simpl in Hscan. injection Hscan as <-. exists k. split; [lia|]. split; [|exact Hused].
  intros l Hl. apply list_elem_of_lookup in Hl as [j Hj].
  by apply (inv_range _ _ _ _ _ Hinv j).
- cbn [scan] in Hscan.
  destruct (bool_decide (L !! i ≠ Some (-1)%Z) || negb (is_core i)) eqn:Hskip.
  + by apply (IH k L L').
  + apply orb_false_iff in Hskip as [Hlab Hci].
    apply bool_decide_eq_false_1 in Hlab. apply negb_false_iff in Hci.
    assert (Hi : L !! i = Some (-1)%Z) by (by destruct (decide (L !! i = Some (-1)%Z))).
    destruct (expand_correct is_core nb n nb_bound nb_length k i L Hk Hci Hi (S (n * n)) i L [])
      as (L1 & Hexp & HJ).
    { by apply expand_inv_start. }
    { pose proof (noise_count_le L) as Hle. rewrite (inv_length _ _ _ _ _ Hinv) in Hle.
      simpl. assert (n * noise_count L ≤ n * n)%nat by (by apply Nat.mul_le_mono_l). lia. }
    rewrite Hexp in Hscan. cbn [mbind option_bind] in Hscan.
    destruct (clustering_inv_next is_core nb n nb_bound nb_sym k i L L1 Hk Hci Hi Hinv HJ)
      as [Hinv1 Hseed].
    destruct (IH (k + 1)%Z L1 L') as (k' & Hkk & Hrange & Hused'); [lia|exact Hinv1| |exact Hscan|].
    * intros l Hl. destruct (decide (l = k)) as [->|Hne].
      -- apply list_elem_of_lookup. by exists i.
      -- assert (Hin : l ∈ L) by (apply Hused; lia).
         apply list_elem_of_lookup in Hin as [j Hj].
         apply list_elem_of_lookup. exists j.
         apply (exp_frame _ _ _ _ _ _ _ _ HJ); [exact Hj|lia].
    * exists k'. split; [lia|]. auto.
Qed.

Lemma dbscan_inner_numbers L :
  dbscan_inner is_core nb n = Some L →
  ∃ k, (0 ≤ k)%Z ∧ (∀ l, l ∈ L → l = (-1)%Z ∨ (0 ≤ l < k)%Z) ∧ ∀ l, (0 ≤ l < k)%Z → l ∈ L.
Proof.
unfold dbscan_inner. intros Hrun.
destruct (scan_numbers (seq 0 n) 0%Z (replicate n (-1)%Z) L) as (k & Hk & Hrange & Hused).
- lia.
- assert (Hnone : ∀ j l, replicate n (-1)%Z !! j = Some l → l = (-1)%Z).
  { intros j l Hj. by apply lookup_replicate in Hj as [-> _]. }
  split.
  + apply length_replicate.
  + intros j l Hj. left. by eapply Hnone.
  + intros u v l _ Hu Hl. by apply Hnone in Hu.
  + intros p l Hp Hl. by apply Hnone in Hp.
  + intros p q l _ _ Hp _ Hl. by apply Hnone in Hp.
- intros l Hl. lia.
- exact Hrun.
- exists k. auto.
Qed.

End ClusterNumbers.

Lemma DBSCAN_fit_predict_numbers eps ms (X : ScaledMatrix) L :
  DBSCAN_fit_predict eps ms X = inr L →
  ∃ k, (0 ≤ k)%Z ∧ (∀ l, l ∈ L → l = (-1)%Z ∨ (0 ≤ l < k)%Z) ∧ ∀ l, (0 ≤ l < k)%Z → l ∈ L.
Proof.
unfold DBSCAN_fit_predict. intros Hrun.
case_bool_decide; [|discriminate Hrun].
destruct (all_finite (centred X)) as [pts|]; [|discriminate Hrun].
destruct (dbscan_inner _ _ _) as [L'|] eqn:Hinner; [|discriminate Hrun].
injection Hrun as ->.
eapply dbscan_inner_numbers; [| | |exact Hinner].
- apply radius_neighbors_bound.
- apply radius_neighbors_length.
- apply radius_neighbors_sym.
Qed.

Lemma StronglySorted_Z_of_nat_seq k : StronglySorted Z.le (Z.of_nat <$> seq 0 k).
Proof.
generalize 0%nat. induction k as [|k IH]; intros s; simpl; constructor.
- apply IH.
- apply Forall_forall. intros z Hz. apply list_elem_of_fmap in Hz as (j & -> & Hj).
  apply elem_of_seq in Hj. lia.
Qed.

Lemma StronglySorted_filter_Z (P : Z → Prop) `{!∀ x, Decision (P x)} (l : list Z) :
  StronglySorted Z.le l → StronglySorted Z.le (filter P l).
Proof.
induction 1 as [|x l Hl IH Hx]; [constructor|].
rewrite filter_cons. destruct (decide (P x)); [|exact IH].
constructor; [exact IH|]. apply Forall_forall. intros y Hy.
apply list_elem_of_filter in Hy as [_ Hy]. rewrite Forall_forall in Hx. by apply Hx.
Qed.

(** The labels that the loops over [np.unique(clusters)] visit. *)
Lemma cluster_numbers (L : list Z) (k : Z) :
  (0 ≤ k)%Z → (∀ l, l ∈ L → l = (-1)%Z ∨ (0 ≤ l < k)%Z) → (∀ l, (0 ≤ l < k)%Z → l ∈ L) →
  filter (λ cid, cid ≠ (-1)%Z) (np_unique L) = Z.of_nat <$> seq 0 (Z.to_nat k).
Proof.
intros Hk Hrange Hused.
apply (StronglySorted_unique Z.le).
- apply StronglySorted_filter_Z. unfold np_unique. apply (StronglySorted_merge_sort _).
- apply StronglySorted_Z_of_nat_seq.
- apply NoDup_Permutation.
  + apply NoDup_filter. unfold np_unique. rewrite merge_sort_Permutation. apply NoDup_remove_dups.
  + apply NoDup_fmap_2; [apply _|apply NoDup_seq].
  + intros l. rewrite list_elem_of_filter. unfold np_unique.
    rewrite merge_sort_Permutation, elem_of_remove_dups, list_elem_of_fmap. split.
    * intros [Hne Hl]. destruct (Hrange l Hl) as [?|?]; [contradiction|].
      exists (Z.to_nat l). split; [lia|]. apply elem_of_seq. lia.
    * intros (j & -> & Hj). apply elem_of_seq in Hj. split; [lia|]. apply Hused. lia.
Qed.

Lemma cluster_details_ids `{Quicksort} (data : DataFrame) (clusters : list Z) dets :
  PollutionTracer.cluster_details data clusters = inr dets →
  map PollutionTracer.cluster_id dets = filter (λ cid, cid ≠ (-1)%Z) (np_unique clusters).
Proof.
unfold PollutionTracer.cluster_details.
generalize (filter (λ cid, cid ≠ (-1)%Z) (np_unique clusters)). intros ids. revert dets.
induction ids as [|cid ids IH]; intros dets Hok; simpl in Hok.
- by injection Hok as <-.
- apply bind_inr in Hok as (d & Hd & Hok). apply bind_inr in Hok as (ds & Hds & Hok).
  injection Hok as <-. simpl. rewrite (IH ds Hds). f_equal.
  unfold PollutionTracer.cluster_detail_of in Hd.
  apply bind_inr in Hd as (total & _ & Hd). apply bind_inr in Hd as (sorted & _ & Hd).
  by injection Hd as <-.
Qed.

Lemma generate_interactive_map_ids (data : DataFrame) (clusters : list Z) marks :
  PollutionTracer.generate_interactive_map data clusters = inr marks →
  map PollutionTracer.cm_cluster marks = filter (λ cid, cid ≠ (-1)%Z) (np_unique clusters).
Proof.
unfold PollutionTracer.generate_interactive_map.
generalize (filter (λ cid, cid ≠ (-1)%Z) (np_unique clusters)). intros ids. revert marks.
induction ids as [|cid ids IH]; intros marks Hok; simpl in Hok.
- by injection Hok as <-.
- apply bind_inr in Hok as (d & Hd & Hok). apply bind_inr in Hok as (ds & Hds & Hok).
  injection Hok as <-. simpl. rewrite (IH ds Hds). f_equal.
  unfold PollutionTracer.cluster_marker_of in Hd.
  apply bind_inr in Hd as (lat & _ & Hd). apply bind_inr in Hd as (lon & _ & Hd).
  apply bind_inr in Hd as (total & _ & Hd).
  by injection Hd as <-.
Qed.

(** X8. The clusters of a run are numbered from 0 without a gap: there is
    a number [k] of clusters such that every label is -1 or one of
    0, ..., k-1, each of these numbers is the label of some record, and
    the loops over [np.unique(clusters)] that skip -1, in the report and on
    the map, visit exactly 0, 1, ..., k-1 in this order. *)
Theorem cluster_numbers_have_no_gap (eps : Qc) (ms : nat) (data data' : DataFrame)
    (clusters : list Z) :
  PollutionTracer.clustering eps ms data = inr (data', clusters) →
  ∃ k : nat,
    (∀ l, l ∈ clusters → l = (-1)%Z ∨ (0 ≤ l < Z.of_nat k)%Z)
    ∧ (∀ l, (0 ≤ l < Z.of_nat k)%Z → l ∈ clusters)
    ∧ filter (λ cid, cid ≠ (-1)%Z) (np_unique clusters) = Z.of_nat <$> seq 0 k.
Proof.
intros Hrun. apply clustering_inr in Hrun as (X & SM & _ & _ & HL & _).
apply DBSCAN_fit_predict_numbers in HL as (k & Hk & Hrange & Hused).
exists (Z.to_nat k). rewrite Z2Nat.id by exact Hk.
split; [exact Hrange|]. split; [exact Hused|]. by apply cluster_numbers.
Qed.

Lemma cluster_numbers_have_no_gap_witness :
  ∃ data' clusters (k : nat),
    PollutionTracer.spatial_clustering sample_data = inr (data', clusters)
    ∧ (∀ l, l ∈ clusters → l = (-1)%Z ∨ (0 ≤ l < Z.of_nat k)%Z)
    ∧ (∀ l, (0 ≤ l < Z.of_nat k)%Z → l ∈ clusters)
    ∧ filter (λ cid, cid ≠ (-1)%Z) (np_unique clusters) = Z.of_nat <$> seq 0 k.
Proof.
assert (Hsome : (λ _, ()) <$> PollutionTracer.spatial_clustering sample_data = inr ())
  by (vm_compute; reflexivity).
destruct (PollutionTracer.spatial_clustering sample_data) as [e|[data' clusters]] eqn:Hrun;
  [discriminate Hsome|].
destruct (cluster_numbers_have_no_gap _ _ sample_data data' clusters Hrun) as (k & H1 & H2 & H3).
exists data', clusters, k. split; [reflexivity|]. split; [exact H1|]. split; [exact H2|exact H3].
Defined.

(** ** The entity table *)

Lemma series_sum_inr (l : list cell) q :
  series_sum l = inr q → q = nansum (map float_of l) ∧ Forall (λ v, is_str v = false) l.
Proof.
unfold series_sum. intros Hq. apply fmap_inr in Hq as (fs & Hfs & ->).
split; [by rewrite (mapM_as_float_inr l fs Hfs)|].
clear -Hfs. revert fs Hfs. induction l as [|v l IH]; intros fs Hfs; [constructor|].
simpl in Hfs. apply bind_inr in Hfs as (f & Hf & Hfs). apply bind_inr in Hfs as (fs' & Hfs' & _).
constructor; [|by eapply IH]. by destruct v.
Qed.

Lemma sum_axis1_inr (X : list (list cell)) totals :
  sum_axis1 X = inr totals → totals = map (λ row, nansum (map float_of row)) X.
Proof.
unfold sum_axis1. revert totals. induction X as [|row X IH]; intros totals Hs; simpl in Hs.
- by injection Hs as <-.
- apply bind_inr in Hs as (q & Hq & Hs). apply bind_inr in Hs as (qs & Hqs & Hs).
  injection Hs as <-. simpl. apply series_sum_inr in Hq as [-> _]. f_equal. by apply IH.
Qed.

Lemma sum_Qc_app (xs ys : list Qc) : sum_Qc (xs ++ ys) = sum_Qc xs + sum_Qc ys.
Proof. induction xs as [|x xs IH]; simpl; [ring|]. rewrite IH. ring. Qed.

Lemma sum_Qc_Permutation (xs ys : list Qc) : xs ≡ₚ ys → sum_Qc xs = sum_Qc ys.
Proof.
induction 1 as [|x xs ys _ IH|x y xs|xs ys zs _ IH1 _ IH2]; simpl.
- reflexivity.
- by rewrite IH.
- ring.
- by rewrite IH1.
Qed.

Section EntityTable.

Context `{Quicksort}.
Import PollutionTracer.

(** A run of [pollution_analysis] that returns. *)
Lemma pollution_analysis_returns data data' stats :
  pollution_analysis data = inr (data', stats) →
  data' = with_totals data
  ∧ stats = quicksort by_total_desc
              (map (company_of (with_totals data)) (group_keys (column_of (rows data) col_unit)))
  ∧ col_unit ∈ columns data.
Proof.
unfold pollution_analysis. intros Hrun.
apply bind_inr in Hrun as (loads & Hloads & Hrun). apply values_inr in Hloads as ->.
apply bind_inr in Hrun as (totals & Htotals & Hrun). apply sum_axis1_inr in Htotals as ->.
rewrite !map_map in Hrun.
change (map (λ r : Row, Num (nansum (map float_of (map (cell_at r)
             [col_primary; col_ammonia; col_phosphorus; col_nitrogen])))) (rows data))
  with (map (λ r : Row, Num (nansum (map float_of (map (cell_at r) load_cols)))) (rows data))
  in Hrun.
assert (Heq : map (λ r : Row, Num (nansum (map float_of (map (cell_at r) load_cols)))) (rows data)
              = map (λ r : Row, Num (row_total r)) (rows data)).
{ apply map_ext. intros r. unfold row_total. by rewrite map_map. }
rewrite Heq, (setitem_map data col_total (λ r, Num (row_total r))), ret_bind in Hrun.
fold (with_totals data) in Hrun.
apply bind_inr in Hrun as (names & Hnames & Hrun).
unfold getitem in Hnames. case_bool_decide as Hunit; [|discriminate Hnames].
injection Hnames as <-.
apply bind_inr in Hrun as (u & _ & Hrun). apply bind_inr in Hrun as (cs & Hcs & Hrun).
injection Hrun as <- <-. split; [reflexivity|]. split.
- f_equal.
  pose proof (column_of_with_totals data col_unit) as Hcol.
  unfold column_of, with_totals in Hcol. simpl in Hcol. rewrite Hcol in Hcs by col_neq.
  clear Hcol. fold (column_of (rows data) col_unit) in Hcs.
  revert cs Hcs. induction (group_keys (column_of (rows data) col_unit)) as [|k ks IH];
    intros cs Hcs; simpl in Hcs.
  + by injection Hcs as <-.
  + apply bind_inr in Hcs as (c & Hc & Hcs). apply bind_inr in Hcs as (cs' & Hcs' & Hcs).
    injection Hcs as <-. simpl. f_equal; [|by apply IH].
    unfold company_agg in Hc. apply bind_inr in Hc as (t & Ht & Hc).
    apply bind_inr in Hc as (w & Hw & Hc). injection Hc as <-.
    apply series_sum_inr in Ht as [-> _]. apply series_sum_inr in Hw as [-> _]. reflexivity.
- unfold with_totals in Hunit. simpl in Hunit. case_bool_decide; [exact Hunit|].
  apply elem_of_app in Hunit as [Hunit|Hunit]; [exact Hunit|].
  apply list_elem_of_singleton in Hunit. vm_compute in Hunit. discriminate Hunit.
Qed.

Lemma company_of_totals data e :
  total_pollution (company_of (with_totals data) e)
  = sum_Qc (map row_total (group_rows data col_unit e))
  ∧ wastewater (company_of (with_totals data) e)
    = sum_Qc (map (λ r : Row, load_or_zero (cell_at r col_wastewater))
                  (group_rows data col_unit e)).
Proof.
unfold company_of. simpl. split.
- rewrite group_rows_with_totals. unfold column_of, nansum. rewrite !map_map. f_equal.
  apply map_ext. intros r. unfold cell_at. by rewrite lookup_insert_eq.
- rewrite column_of_group_with_totals by col_neq. unfold column_of, nansum. rewrite !map_map.
  f_equal. apply map_ext. intros r. apply load_or_zero_float.
Qed.

End EntityTable.

#[global] Instance by_total_desc_trans : Transitive PollutionTracer.by_total_desc.
Proof. intros a b c Hab Hbc. unfold PollutionTracer.by_total_desc in *. by etrans. Qed.

#[global] Instance by_total_desc_total : Total PollutionTracer.by_total_desc.
Proof. intros a b. unfold PollutionTracer.by_total_desc. apply (total Qcle). Qed.

Lemma NoDup_group_keys (keys : list cell) : NoDup (group_keys keys).
Proof. unfold group_keys. rewrite merge_sort_Permutation. apply NoDup_unique. Qed.

Lemma filter_ext_elem_of {A : Type} (P Q : A → Prop) `{!∀ x, Decision (P x)}
    `{!∀ x, Decision (Q x)} (l : list A) :
  (∀ x, x ∈ l → P x ↔ Q x) → filter P l = filter Q l.
Proof.
induction l as [|x l IH]; intros Hiff; [reflexivity|].
rewrite !filter_cons, IH by (intros y Hy; apply Hiff; by right).
destruct (decide (P x)) as [HP|HP], (decide (Q x)) as [HQ|HQ]; try reflexivity;
  exfalso; apply (Hiff x (list_elem_of_here _ _)) in HP || apply (Hiff x (list_elem_of_here _ _)) in HQ;
  contradiction.
Qed.

(** Summing group by group is summing over the rows whose key is one of
    the group keys. *)
Lemma sum_by_groups (f : Row → Qc) (key : Row → cell) (keys : list cell) (rs : list Row) :
  NoDup keys →
  sum_Qc (map (λ k, sum_Qc (map f (filter (λ r, key r = k) rs))) keys)
  = sum_Qc (map f (filter (λ r, key r ∈ keys) rs)).
Proof.
intros Hnd. induction rs as [|r rs IH].
- rewrite !filter_nil. clear Hnd. induction keys as [|k keys IHk]; cbn [map sum_Qc]; [reflexivity|].
  rewrite IHk, filter_nil. cbn [map sum_Qc]. ring.
- assert (Hsplit : sum_Qc (map (λ k, sum_Qc (map f (filter (λ r, key r = k) (r :: rs)))) keys)
                   = (if decide (key r ∈ keys) then f r else 0)
                     + sum_Qc (map (λ k, sum_Qc (map f (filter (λ r, key r = k) rs))) keys)).
  { clear IH. induction keys as [|k keys IHk]; cbn [map sum_Qc].
    - destruct (decide (key r ∈ [])) as [Hin|_]; [by apply elem_of_nil in Hin|ring].
    - apply NoDup_cons in Hnd as [Hk Hnd]. rewrite (IHk Hnd). rewrite filter_cons.
      destruct (decide (key r = k)) as [Heq|Hne].
      + destruct (decide (key r ∈ k :: keys)) as [_|Hnin]; [|exfalso; apply Hnin; rewrite Heq; left].
        destruct (decide (key r ∈ keys)) as [Hin|_]; [by rewrite Heq in Hin|].
        cbn [map sum_Qc]. ring.
      + destruct (decide (key r ∈ keys)) as [Hin|Hnin].
        * destruct (decide (key r ∈ k :: keys)) as [_|Hnin]; [ring|].
          exfalso. apply Hnin. by right.
        * destruct (decide (key r ∈ k :: keys)) as [[?|?]%elem_of_cons|_]; [contradiction..|ring]. }
  rewrite Hsplit, IH, filter_cons. destruct (decide (key r ∈ keys)); cbn [map sum_Qc]; ring.
Qed.

(** X9. On a frame whose load and wastewater columns hold no text, as
    [preprocess_data] leaves them, [pollution_analysis] returns, and
    [company_stats] has exactly one row for every entity name that occurs in
    the data (a missing name is no entity); the row carries the sum of the
    totals and the sum of the wastewater volumes of the records of that
    entity, a missing volume counting 0; and the rows come in descending
    order of the summed total. *)
Theorem company_stats_one_row_per_entity `{Quicksort} (data : DataFrame) :
  Forall (numeric_column data) (col_wastewater :: load_cols) →
  col_unit ∈ columns data → col_outlet_type ∈ columns data →
  ∃ data' stats,
    PollutionTracer.pollution_analysis data = inr (data', stats)
    ∧ NoDup (map PollutionTracer.unit_name stats)
    ∧ (∀ e, e ∈ map PollutionTracer.unit_name stats
            ↔ e ≠ NaN ∧ e ∈ column_of (rows data) col_unit)
    ∧ (∀ c, c ∈ stats →
         PollutionTracer.total_pollution c
         = sum_Qc (map row_total (group_rows data col_unit (PollutionTracer.unit_name c)))
         ∧ PollutionTracer.wastewater c
           = sum_Qc (map (λ r : Row, load_or_zero (cell_at r col_wastewater))
                         (group_rows data col_unit (PollutionTracer.unit_name c))))
    ∧ StronglySorted PollutionTracer.by_total_desc stats.
Proof.
intros Hnum Hunit Htype. eexists _, _.
split; [by apply pollution_analysis_inr|].
rewrite column_of_with_totals by col_neq.
set (keys := group_keys (column_of (rows data) col_unit)).
assert (Hnames : map PollutionTracer.unit_name
                   (quicksort PollutionTracer.by_total_desc (map (company_of (with_totals data)) keys))
                 ≡ₚ keys).
{ rewrite (quicksort_Permutation PollutionTracer.by_total_desc), map_map. simpl.
  by rewrite map_id. }
split; [|split; [|split]].
- rewrite Hnames. apply NoDup_group_keys.
- intros e. rewrite Hnames. unfold keys. rewrite elem_of_group_keys. tauto.
- intros c Hc. rewrite (quicksort_Permutation PollutionTracer.by_total_desc) in Hc.
  apply list_elem_of_fmap in Hc as (e & -> & _). apply company_of_totals.
- apply (quicksort_Sorted PollutionTracer.by_total_desc).
Qed.

Lemma company_stats_one_row_per_entity_witness :
  ∃ data' stats,
    @PollutionTracer.pollution_analysis merge_quicksort sample_data = inr (data', stats)
    ∧ NoDup (map PollutionTracer.unit_name stats)
    ∧ (∀ e, e ∈ map PollutionTracer.unit_name stats
            ↔ e ≠ NaN ∧ e ∈ column_of (rows sample_data) col_unit)
    ∧ (∀ c, c ∈ stats →
         PollutionTracer.total_pollution c
         = sum_Qc (map row_total (group_rows sample_data col_unit (PollutionTracer.unit_name c)))
         ∧ PollutionTracer.wastewater c
           = sum_Qc (map (λ r : Row, load_or_zero (cell_at r col_wastewater))
                         (group_rows sample_data col_unit (PollutionTracer.unit_name c))))
    ∧ StronglySorted PollutionTracer.by_total_desc stats.
Proof.
apply (@company_stats_one_row_per_entity merge_quicksort sample_data).
- by_compute.
- by_compute.
- by_compute.
Defined.

(** X10. On such a frame the summed totals of [company_stats] add up to the
    total of the records that name an entity: a record whose entity name is
    missing is counted for no entity, every other record for exactly
    one. *)
Theorem company_totals_add_up `{Quicksort} (data : DataFrame) :
  Forall (numeric_column data) (col_wastewater :: load_cols) →
  col_unit ∈ columns data → col_outlet_type ∈ columns data →
  ∃ data' stats,
    PollutionTracer.pollution_analysis data = inr (data', stats)
    ∧ sum_Qc (map PollutionTracer.total_pollution stats)
      = sum_Qc (map row_total (filter (λ r : Row, cell_at r col_unit ≠ NaN) (rows data))).
Proof.
intros Hnum Hunit Htype. eexists _, _.
split; [by apply pollution_analysis_inr|].
rewrite column_of_with_totals by col_neq.
set (keys := group_keys (column_of (rows data) col_unit)).
rewrite (sum_Qc_Permutation _ (map PollutionTracer.total_pollution
                                   (map (company_of (with_totals data)) keys))).
2:{ by rewrite (quicksort_Permutation PollutionTracer.by_total_desc). }
rewrite map_map.
rewrite (map_ext _ (λ k, sum_Qc (map row_total (filter (λ r : Row, cell_at r col_unit = k)
                                                     (rows data))))).
2:{ intros e. apply company_of_totals. }
rewrite sum_by_groups by apply NoDup_group_keys. f_equal. f_equal.
apply filter_ext_elem_of. intros r Hr. unfold keys.
rewrite elem_of_group_keys. split; [tauto|]. intros Hne. split; [|exact Hne].
unfold column_of. apply list_elem_of_fmap. by exists r.
Qed.

Lemma company_totals_add_up_witness :
  ∃ data' stats,
    @PollutionTracer.pollution_analysis merge_quicksort sample_data = inr (data', stats)
    ∧ sum_Qc (map PollutionTracer.total_pollution stats)
      = sum_Qc (map row_total (filter (λ r : Row, cell_at r col_unit ≠ NaN) (rows sample_data))).
Proof.
apply (@company_totals_add_up merge_quicksort sample_data).
- by_compute.
- by_compute.
- by_compute.
Defined.

(** ** The tables of the report *)

Lemma cell_of_label_inj l1 l2 :
  PollutionTracer.cell_of_label l1 = PollutionTracer.cell_of_label l2 → l1 = l2.
Proof.
unfold PollutionTracer.cell_of_label. intros Heq. injection Heq as Heq.
apply Qred_eq_iff in Heq. by apply (proj1 (inject_Z_injective l1 l2)).
Qed.

Lemma generate_trace_report_inr `{Quicksort} (data data' : DataFrame) rep :
  PollutionTracer.generate_trace_report data = inr (data', rep) →
  ∃ labelled clusters stats,
    PollutionTracer.spatial_clustering data = inr (labelled, clusters)
    ∧ PollutionTracer.pollution_analysis labelled = inr (data', stats)
    ∧ PollutionTracer.top10 rep = take 10 stats
    ∧ PollutionTracer.cluster_info_table data' = inr (PollutionTracer.cluster_info rep)
    ∧ PollutionTracer.cluster_details data' clusters = inr (PollutionTracer.details rep)
    ∧ PollutionTracer.generate_interactive_map data' clusters
      = inr (PollutionTracer.markers rep).
Proof.
unfold PollutionTracer.generate_trace_report. intros Hrep.
apply bind_inr in Hrep as ([labelled clusters] & Hcl & Hrep).
apply bind_inr in Hrep as ([data2 stats] & Hpa & Hrep).
apply bind_inr in Hrep as (info & Hinfo & Hrep).
apply bind_inr in Hrep as (dets & Hdets & Hrep).
apply bind_inr in Hrep as (marks & Hmarks & Hrep).
injection Hrep as <- <-. by exists labelled, clusters, stats.
Qed.

(** The matrix that the scaler returns: each coordinate minus the mean of
    its column, a missing coordinate staying missing. *)
Lemma StandardScaler_centred (data : DataFrame) SM :
  StandardScaler_fit_transform (map (λ r : Row, map (cell_at r) [col_lon; col_lat]) (rows data))
  = inr SM →
  ∃ m1 m2, centred SM
    = map (λ r : Row, [(λ x : Qc, x - m1) <$> float_of (cell_at r col_lon);
                       (λ x : Qc, x - m2) <$> float_of (cell_at r col_lat)]) (rows data).
Proof.
unfold StandardScaler_fit_transform. intros HSM.
apply bind_inr in HSM as (M & HM & HSM). apply check_array_inr in HM as ->.
destruct (coords_matrix data) as [|row0 M'] eqn:HM; [discriminate HSM|].
injection HSM as <-.
assert (Hrow0 : length row0 = 2%nat).
{ unfold coords_matrix in HM. destruct (rows data); [discriminate HM|].
  simpl in HM. by injection HM as <- _. }
pose (mu := λ j, mean_Qc (omap id (matrix_column (row0 :: M') j))).
exists (mu 0%nat), (mu 1%nat).
transitivity (map (λ row, zip_with (λ (x : option Qc) (m : Qc), (λ x0 : Qc, x0 - m) <$> x)
                            row [mu 0%nat; mu 1%nat]) (coords_matrix data)).
- rewrite HM. cbn [centred]. rewrite Hrow0. reflexivity.
- unfold coords_matrix. rewrite map_map. reflexivity.
Qed.

(** A clustering run returns only on records that all have both
    coordinates. *)
Lemma clustering_has_coords eps ms data data' L :
  PollutionTracer.clustering eps ms data = inr (data', L) →
  rows data ≠ [] ∧ Forall has_coords (rows data).
Proof.
intros Hrun. apply clustering_inr in Hrun as (X & SM & HX & HSM & HL & _).
apply values_inr in HX as ->.
apply DBSCAN_fit_predict_inr in HL as (_ & _ & pts & Hpts & _).
split.
- intros Hnil. rewrite Hnil in HSM. discriminate HSM.
- assert (Hnum : Forall (λ r : Row, is_str (cell_at r col_lon) = false
                                     ∧ is_str (cell_at r col_lat) = false) (rows data)).
  { unfold StandardScaler_fit_transform in HSM. apply bind_inr in HSM as (M & HM & _).
    unfold check_array in HM.
    destruct (mapM_result _ _) as [e|M'] eqn:Hmap; [discriminate HM|]. clear HM.
    revert M' Hmap. induction (rows data) as [|r rs IH]; intros M' Hmap; [constructor|].
    simpl in Hmap. apply bind_inr in Hmap as (row & Hrow & Hmap).
    apply bind_inr in Hmap as (M2 & HM2 & _). constructor; [|by eapply IH].
    apply bind_inr in Hrow as (a & Ha & Hrow). apply bind_inr in Hrow as (bs & Hbs & _).
    apply bind_inr in Hbs as (b & Hb & _).
    split; [by destruct (cell_at r col_lon)|by destruct (cell_at r col_lat)]. }
  destruct (StandardScaler_centred data SM HSM) as (m1 & m2 & Hcentred).
  unfold all_finite in Hpts. apply mapM_Some in Hpts. rewrite Hcentred in Hpts.
  apply Forall_forall. intros r Hr. apply list_elem_of_lookup in Hr as [i Hi].
  eapply Forall2_lookup_l in Hpts as (p & _ & Hp); [|rewrite list_lookup_fmap, Hi; reflexivity].
  rewrite Forall_forall in Hnum. destruct (Hnum r) as [Hlon Hlat].
  { apply list_elem_of_lookup. by exists i. }
  unfold has_coords.
  destruct (cell_at r col_lon) as [x| |], (cell_at r col_lat) as [y| |];
    try discriminate; split; reflexivity.
Qed.

(** The frame of a report: the rows of the input, each with its cluster
    label and its total. *)
Lemma row_total_insert (r : Row) col v :
  col ∉ load_cols → row_total (<[col := v]> r) = row_total r.
Proof.
intros Hcol. unfold row_total. f_equal. apply Forall_fmap_ext, Forall_forall. intros c Hc.
unfold cell_at. rewrite lookup_insert_ne; [reflexivity|]. by intros ->.
Qed.

Lemma with_totals_cell data (r : Row) :
  r ∈ rows (with_totals data) → cell_at r col_total = Num (row_total r).
Proof.
unfold with_totals. simpl. intros Hr. apply list_elem_of_fmap in Hr as (r0 & -> & _).
rewrite row_total_insert by by_compute.
unfold cell_at. by rewrite lookup_insert_eq.
Qed.

Lemma has_coords_insert (r : Row) col v :
  col ≠ col_lon → col ≠ col_lat → has_coords (<[col := v]> r) ↔ has_coords r.
Proof.
intros H1 H2. unfold has_coords, cell_at. by rewrite !lookup_insert_ne by done.
Qed.

Lemma report_frame `{Quicksort} (data data' : DataFrame) rep :
  PollutionTracer.generate_trace_report data = inr (data', rep) →
  ∃ clusters (k : nat),
    PollutionTracer.cluster_info_table data' = inr (PollutionTracer.cluster_info rep)
    ∧ PollutionTracer.cluster_details data' clusters = inr (PollutionTracer.details rep)
    ∧ PollutionTracer.generate_interactive_map data' clusters
      = inr (PollutionTracer.markers rep)
    ∧ column_of (rows data') col_cluster = map PollutionTracer.cell_of_label clusters
    ∧ Forall (λ r : Row, cell_at r col_total = Num (row_total r)) (rows data')
    ∧ Forall has_coords (rows data')
    ∧ (∀ l, l ∈ clusters → l = (-1)%Z ∨ (0 ≤ l < Z.of_nat k)%Z)
    ∧ (∀ l, (0 ≤ l < Z.of_nat k)%Z → l ∈ clusters)
    ∧ filter (λ cid, cid ≠ (-1)%Z) (np_unique clusters) = Z.of_nat <$> seq 0 k.
Proof.
intros Hrep.
apply generate_trace_report_inr in Hrep
  as (labelled & clusters & stats & Hcl & Hpa & _ & Hinfo & Hdets & Hmarks).
apply pollution_analysis_returns in Hpa as (-> & _ & _).
destruct (clustering_has_coords _ _ _ _ _ Hcl) as [_ Hcoords].
apply clustering_inr in Hcl as (X & SM & _ & _ & HL & Hd).
apply DBSCAN_fit_predict_numbers in HL as (k & Hk & Hrange & Hused).
exists clusters, (Z.to_nat k). rewrite Z2Nat.id by exact Hk.
split; [exact Hinfo|]. split; [exact Hdets|]. split; [exact Hmarks|].
destruct (setitem_inr _ _ _ _ Hd) as (_ & Hrows & _ & Hcol).
split; [|split; [|split; [|split; [exact Hrange|split; [exact Hused|by apply cluster_numbers]]]]].
- by rewrite column_of_with_totals by col_neq.
- apply Forall_forall. intros r Hr. by apply (with_totals_cell labelled).
- apply Forall_forall. intros r Hr. unfold with_totals in Hr. simpl in Hr.
  apply list_elem_of_fmap in Hr as (r1 & -> & Hr1).
  apply has_coords_insert; [col_neq|col_neq|].
  rewrite Hrows in Hr1. apply list_elem_of_lookup in Hr1 as [i Hi].
  apply lookup_zip_with_Some in Hi as (r0 & v & -> & Hr0 & _).
  apply has_coords_insert; [col_neq|col_neq|].
  rewrite Forall_forall in Hcoords. apply Hcoords. apply list_elem_of_lookup. by exists i.
Qed.

(** The mean of a column of numbers. *)
Lemma series_mean_num (l : list cell) :
  Forall (λ v, is_num v = true) l → l ≠ [] →
  series_mean l = inr (Some (mean_Qc (map load_or_zero l))).
Proof.
intros Hnum Hne. unfold series_mean.
rewrite (mapM_result_inr as_float float_of), ret_bind.
2:{ intros v Hv. apply as_float_ok. rewrite Forall_forall in Hnum.
    specialize (Hnum v Hv). by destruct v. }
assert (Hpresent : omap id (map float_of l) = map load_or_zero l).
{ clear Hne. induction Hnum as [|v l Hv _ IH]; [reflexivity|].
  destruct v; try discriminate Hv. simpl. f_equal. exact IH. }
rewrite Hpresent. destruct l as [|v l]; [done|]. reflexivity.
Qed.

Lemma group_rows_elem_of data col key (r : Row) :
  r ∈ group_rows data col key ↔ cell_at r col = key ∧ r ∈ rows data.
Proof. unfold group_rows. apply (list_elem_of_filter (λ r : Row, cell_at r col = key)). Qed.

Section ReportTables.

Context `{Quicksort}.
Import PollutionTracer.

Lemma cluster_detail_of_inr data cid d :
  cluster_detail_of data cid = inr d →
  cluster_id d = cid
  ∧ n_companies d = length (group_rows data col_cluster (cell_of_label cid))
  ∧ total_emission d
    = nansum (map float_of (column_of (group_rows data col_cluster (cell_of_label cid))
                                      col_total)).
Proof.
unfold cluster_detail_of. intros Hd.
apply bind_inr in Hd as (total & Htotal & Hd). apply bind_inr in Hd as (sorted & _ & Hd).
injection Hd as <-. simpl. apply series_sum_inr in Htotal as [-> _]. done.
Qed.

Lemma cluster_marker_of_inr data cid m :
  cluster_marker_of data cid = inr m →
  cm_cluster m = cid
  ∧ cm_count m = length (group_rows data col_cluster (cell_of_label cid))
  ∧ cm_total m
    = nansum (map float_of (column_of (group_rows data col_cluster (cell_of_label cid))
                                      col_total))
  ∧ series_mean (column_of (group_rows data col_cluster (cell_of_label cid)) col_lat)
    = inr (center_lat m)
  ∧ series_mean (column_of (group_rows data col_cluster (cell_of_label cid)) col_lon)
    = inr (center_lon m).
Proof.
unfold cluster_marker_of. intros Hm.
apply bind_inr in Hm as (lat & Hlat & Hm). apply bind_inr in Hm as (lon & Hlon & Hm).
apply bind_inr in Hm as (total & Htotal & Hm).
injection Hm as <-. simpl. apply series_sum_inr in Htotal as [-> _]. done.
Qed.

Lemma cluster_info_table_inr data info key :
  cluster_info_table data = inr info →
  key ≠ NaN → key ∈ column_of (rows data) col_cluster →
  ∃ row, row ∈ info ∧ ci_cluster row = key
    ∧ ci_count row = series_count (column_of (group_rows data col_cluster key) col_unit)
    ∧ ci_total row
      = nansum (map float_of (column_of (group_rows data col_cluster key) col_total)).
Proof.
intros Hok Hna Hkey. unfold cluster_info_table in Hok.
apply bind_inr in Hok as (labels & Hlabels & Hok).
apply bind_inr in Hok as (u & _ & Hok).
unfold getitem in Hlabels. case_bool_decide; [|discriminate Hlabels].
injection Hlabels as <-.
destruct (mapM_result_elem_of _ _ _ key Hok) as (row & Hrow & Hagg).
{ apply elem_of_group_keys. by split. }
exists row. split; [exact Hrow|].
unfold cluster_info_agg in Hagg.
apply bind_inr in Hagg as (total & Htotal & Hagg). injection Hagg as <-. simpl.
apply series_sum_inr in Htotal as [-> _]. done.
Qed.

End ReportTables.

Lemma totals_of_members (rs : list Row) :
  Forall (λ r : Row, cell_at r col_total = Num (row_total r)) rs →
  nansum (map float_of (column_of rs col_total)) = sum_Qc (map row_total rs).
Proof.
intros Hall. unfold nansum, column_of. rewrite !map_map. f_equal.
apply Forall_fmap_ext. eapply Forall_impl; [exact Hall|]. intros r Hr. simpl. by rewrite Hr.
Qed.

Lemma series_count_le (l : list cell) : (series_count l ≤ length l)%nat.
Proof. unfold series_count. apply length_filter. Qed.

(** X11. The three outputs of a report agree on the clusters. With [k]
    clusters found, section 2.2 and the map each list the clusters
    0, ..., k-1 in this order; every record is noise or a member of one of
    them; for each cluster the detail section and the map marker give the
    same number of members, which is at least one, and the same total,
    which is the sum of the totals of the members; the marker stands at the
    mean latitude and the mean longitude of the members; and the table of
    section 2.1 has a row for the cluster with the same total, whose count
    - the members that name their entity - is at most the number of
    members. *)
Theorem report_clusters_agree `{Quicksort} (data data' : DataFrame)
    (rep : PollutionTracer.trace_report) :
  PollutionTracer.generate_trace_report data = inr (data', rep) →
  length (PollutionTracer.markers rep) = length (PollutionTracer.details rep)
  ∧ (∀ r : Row, r ∈ rows data' →
       ∃ l, cell_at r col_cluster = PollutionTracer.cell_of_label l
            ∧ (l = (-1)%Z ∨ (0 ≤ l < Z.of_nat (length (PollutionTracer.details rep)))%Z))
  ∧ ∀ i d, PollutionTracer.details rep !! i = Some d →
      let members := group_rows data' col_cluster (PollutionTracer.cell_of_label (Z.of_nat i)) in
      PollutionTracer.cluster_id d = Z.of_nat i
      ∧ PollutionTracer.n_companies d = length members
      ∧ (0 < PollutionTracer.n_companies d)%nat
      ∧ PollutionTracer.total_emission d = sum_Qc (map row_total members)
      ∧ (∃ m, PollutionTracer.markers rep !! i = Some m
              ∧ PollutionTracer.cm_cluster m = Z.of_nat i
              ∧ PollutionTracer.cm_count m = PollutionTracer.n_companies d
              ∧ PollutionTracer.cm_total m = PollutionTracer.total_emission d
              ∧ PollutionTracer.center_lat m
                = Some (mean_Qc (map (λ r : Row, load_or_zero (cell_at r col_lat)) members))
              ∧ PollutionTracer.center_lon m
                = Some (mean_Qc (map (λ r : Row, load_or_zero (cell_at r col_lon)) members)))
      ∧ ∃ row, row ∈ PollutionTracer.cluster_info rep
              ∧ PollutionTracer.ci_cluster row = PollutionTracer.cell_of_label (Z.of_nat i)
              ∧ PollutionTracer.ci_total row = PollutionTracer.total_emission d
              ∧ (PollutionTracer.ci_count row ≤ PollutionTracer.n_companies d)%nat.
Proof.
intros Hrep.
destruct (report_frame data data' rep Hrep)
  as (clusters & k & Hinfo & Hdets & Hmarks & Hcol & Htot & Hcoords & Hrange & Hused & Hids).
unfold PollutionTracer.cluster_details in Hdets.
unfold PollutionTracer.generate_interactive_map in Hmarks.
rewrite Hids in Hdets, Hmarks.
pose proof (mapM_result_length _ _ _ Hdets) as Hlen1.
pose proof (mapM_result_length _ _ _ Hmarks) as Hlen2.
rewrite length_fmap, length_seq in Hlen1, Hlen2.
split; [lia|]. split.
- intros r Hr. apply list_elem_of_lookup in Hr as [j Hj].
  assert (Hc : column_of (rows data') col_cluster !! j = Some (cell_at r col_cluster)).
  { unfold column_of. by rewrite list_lookup_fmap, Hj. }
  rewrite Hcol, list_lookup_fmap in Hc.
  destruct (clusters !! j) as [l|] eqn:Hl; [|discriminate Hc]. injection Hc as Hc.
  exists l. split; [by symmetry|]. rewrite Hlen1. apply Hrange.
  apply list_elem_of_lookup. by exists j.
- intros i d Hd members.
  assert (Hi : (i < k)%nat) by (rewrite <- Hlen1; by eapply lookup_lt_Some).
  assert (Hid : (Z.of_nat <$> seq 0 k) !! i = Some (Z.of_nat i)).
  { rewrite list_lookup_fmap, lookup_seq_lt by exact Hi. reflexivity. }
  destruct (mapM_result_lookup _ _ _ i _ Hdets Hid) as (d' & Hd' & Hdet).
  rewrite Hd in Hd'. injection Hd' as <-.
  destruct (mapM_result_lookup _ _ _ i _ Hmarks Hid) as (m & Hm & Hmark).
  apply cluster_detail_of_inr in Hdet as (Hcid & Hn & Htotal).
  apply cluster_marker_of_inr in Hmark as (Hmid & Hcount & Hmtotal & Hlat & Hlon).
  fold members in Hn, Htotal, Hcount, Hmtotal, Hlat, Hlon.
  assert (Hsub : ∀ r, r ∈ members → r ∈ rows data').
  { intros r Hr. by apply group_rows_elem_of in Hr as [_ Hr]. }
  assert (Hmem : members ≠ []).
  { assert (Hin : Z.of_nat i ∈ clusters) by (apply Hused; lia).
    apply list_elem_of_lookup in Hin as [j Hj].
    assert (Hc : column_of (rows data') col_cluster !! j
                 = Some (PollutionTracer.cell_of_label (Z.of_nat i))).
    { by rewrite Hcol, list_lookup_fmap, Hj. }
    unfold column_of in Hc. rewrite list_lookup_fmap in Hc.
    destruct (rows data' !! j) as [r|] eqn:Hr; [|discriminate Hc]. injection Hc as Hc.
    assert (Hin : r ∈ members).
    { apply group_rows_elem_of. split; [exact Hc|]. apply list_elem_of_lookup. by exists j. }
    intros Hnil. rewrite Hnil in Hin. by apply elem_of_nil in Hin. }
  assert (Hmtot : Forall (λ r : Row, cell_at r col_total = Num (row_total r)) members).
  { apply Forall_forall. intros r Hr. rewrite Forall_forall in Htot. apply Htot, Hsub, Hr. }
  rewrite (totals_of_members members Hmtot) in Htotal, Hmtotal.
  split; [exact Hcid|]. split; [exact Hn|]. split.
  { rewrite Hn. destruct members; [done|simpl; lia]. }
  split; [exact Htotal|]. split.
  + exists m. split; [exact Hm|]. split; [exact Hmid|]. split; [congruence|].
    split; [congruence|].
    rewrite series_mean_num in Hlat, Hlon.
    * injection Hlat as <-. injection Hlon as <-. unfold column_of. by rewrite !map_map.
    * unfold column_of. apply Forall_fmap, Forall_forall. intros r Hr.
      rewrite Forall_forall in Hcoords. by destruct (Hcoords r (Hsub r Hr)).
    * unfold column_of. destruct members; [done|discriminate].
    * unfold column_of. apply Forall_fmap, Forall_forall. intros r Hr.
      rewrite Forall_forall in Hcoords. by destruct (Hcoords r (Hsub r Hr)).
    * unfold column_of. destruct members; [done|discriminate].
  + destruct (cluster_info_table_inr data' _ (PollutionTracer.cell_of_label (Z.of_nat i)) Hinfo)
      as (row & Hrow & Hkey & Hcnt & Hrtotal).
    { discriminate. }
    { rewrite Hcol. apply list_elem_of_fmap. exists (Z.of_nat i). split; [reflexivity|].
      apply Hused. lia. }
    fold members in Hcnt, Hrtotal. rewrite (totals_of_members members Hmtot) in Hrtotal.
    exists row. split; [exact Hrow|]. split; [exact Hkey|]. split; [congruence|].
    rewrite Hcnt, Hn. etrans; [apply series_count_le|]. unfold column_of.
    by rewrite length_map.
Qed.

Lemma report_clusters_agree_witness :
  ∃ data' rep,
    @PollutionTracer.generate_trace_report merge_quicksort sample_data = inr (data', rep)
    ∧ length (PollutionTracer.markers rep) = length (PollutionTracer.details rep)
    ∧ ∀ r : Row, r ∈ rows data' →
        ∃ l, cell_at r col_cluster = PollutionTracer.cell_of_label l
             ∧ (l = (-1)%Z ∨ (0 ≤ l < Z.of_nat (length (PollutionTracer.details rep)))%Z).
Proof.
assert (Hsome : (λ _, ()) <$> @PollutionTracer.generate_trace_report merge_quicksort sample_data
                = inr ()) by (vm_compute; reflexivity).
destruct (@PollutionTracer.generate_trace_report merge_quicksort sample_data)
  as [e|[data' rep]] eqn:Hrun; [discriminate Hsome|].
destruct (@report_clusters_agree merge_quicksort sample_data data' rep Hrun) as (H1 & H2 & _).
exists data', rep. split; [reflexivity|]. split; [exact H1|exact H2].
Defined.

(** ** When a report is produced *)





Section ReportReturns.

Context `{Quicksort}.
Import PollutionTracer.


End ReportReturns.



(** ** The table of section 2.1 *)

Lemma sum_nat_by_groups {A : Type} (f : A → nat) (key : A → cell) (keys : list cell)
    (rs : list A) :
  NoDup keys →
  sum_list (map (λ k, sum_list (map f (filter (λ r, key r = k) rs))) keys)
  = sum_list (map f (filter (λ r, key r ∈ keys) rs)).
Proof.
intros Hnd. induction rs as [|r rs IH].
- rewrite !filter_nil. clear Hnd. induction keys as [|k keys IHk]; [reflexivity|].
  cbn [map sum_list_with id]. rewrite IHk, filter_nil. reflexivity.
- assert (Hsplit : sum_list (map (λ k, sum_list (map f (filter (λ r, key r = k) (r :: rs)))) keys)
                   = ((if decide (key r ∈ keys) then f r else 0)
                      + sum_list (map (λ k, sum_list (map f (filter (λ r, key r = k) rs))) keys))%nat).
  { clear IH. induction keys as [|k keys IHk]; cbn [map sum_list_with id].
    - destruct (decide (key r ∈ [])) as [Hin|_]; [by apply elem_of_nil in Hin|reflexivity].
    - apply NoDup_cons in Hnd as [Hk Hnd]. rewrite (IHk Hnd). rewrite filter_cons.
      destruct (decide (key r = k)) as [Heq|Hne].
      + destruct (decide (key r ∈ k :: keys)) as [_|Hnin]; [|exfalso; apply Hnin; rewrite Heq; left].
        destruct (decide (key r ∈ keys)) as [Hin|_]; [by rewrite Heq in Hin|].
        cbn [map sum_list_with id]. lia.
      + destruct (decide (key r ∈ keys)) as [Hin|Hnin].
        * destruct (decide (key r ∈ k :: keys)) as [_|Hnin]; [lia|].
          exfalso. apply Hnin. by right.
        * destruct (decide (key r ∈ k :: keys)) as [[?|?]%elem_of_cons|_]; [contradiction..|lia]. }
  rewrite Hsplit, IH, filter_cons. destruct (decide (key r ∈ keys)); cbn [map sum_list_with id]; lia.
Qed.


Lemma filter_all {A : Type} (P : A → Prop) `{!∀ x, Decision (P x)} (l : list A) :
  (∀ x, x ∈ l → P x) → filter P l = l.
Proof.
induction l as [|x l IH]; intros Hall; [reflexivity|].
rewrite filter_cons, decide_True by (apply Hall; left).
f_equal. apply IH. intros y Hy. apply Hall. by right.
Qed.

Lemma series_count_indicator (rs : list Row) col :
  series_count (column_of rs col)
  = sum_list (map (λ r : Row, if decide (cell_at r col ≠ NaN) then 1%nat else 0%nat) rs).
Proof.
unfold series_count, column_of. induction rs as [|r rs IH]; [reflexivity|].
cbn [map sum_list_with]. rewrite filter_cons, <- IH.
destruct (cell_at r col); reflexivity.
Qed.

Lemma length_filter_indicator (rs : list Row) col :
  sum_list (map (λ r : Row, if decide (cell_at r col ≠ NaN) then 1%nat else 0%nat) rs)
  = length (filter (λ r : Row, cell_at r col ≠ NaN) rs).
Proof.
induction rs as [|r rs IH]; [reflexivity|].
cbn [map sum_list_with]. rewrite filter_cons, IH.
destruct (decide (cell_at r col ≠ NaN)); reflexivity.
Qed.

Lemma cluster_info_table_rows (data : DataFrame) info :
  PollutionTracer.cluster_info_table data = inr info →
  info = map (λ key,
            {| PollutionTracer.ci_cluster := key;
               PollutionTracer.ci_count :=
                 series_count (column_of (group_rows data col_cluster key) col_unit);
               PollutionTracer.ci_total :=
                 nansum (map float_of (column_of (group_rows data col_cluster key) col_total)) |})
           (group_keys (column_of (rows data) col_cluster)).
Proof.
unfold PollutionTracer.cluster_info_table. intros Hok.
apply bind_inr in Hok as (labels & Hlabels & Hok).
apply bind_inr in Hok as (u & _ & Hok).
unfold getitem in Hlabels. case_bool_decide; [|discriminate Hlabels].
injection Hlabels as <-. fold (column_of (rows data) col_cluster) in Hok.
revert info Hok. induction (group_keys (column_of (rows data) col_cluster)) as [|k ks IH];
  intros info Hok; simpl in Hok.
- by injection Hok as <-.
- apply bind_inr in Hok as (row & Hrow & Hok). apply bind_inr in Hok as (rows' & Hrows & Hok).
  injection Hok as <-. simpl. f_equal; [|by apply IH].
  unfold PollutionTracer.cluster_info_agg in Hrow.
  apply bind_inr in Hrow as (total & Htotal & Hrow). injection Hrow as <-.
  by apply series_sum_inr in Htotal as [-> _].
Qed.

Lemma StronglySorted_group_keys (keys : list cell) : StronglySorted cell_le (group_keys keys).
Proof. unfold group_keys. apply (StronglySorted_merge_sort _). Qed.

(** X13. The table of section 2.1 accounts for every record once: when a
    report is produced, its rows carry distinct labels in increasing order
    (the noise label -1, when there is noise, first), the totals of the
    rows add up to the total of all records, and the counts add up to the
    number of records that name their entity. *)
Theorem cluster_info_accounts_for_every_record `{Quicksort} (data data' : DataFrame)
    (rep : PollutionTracer.trace_report) :
  PollutionTracer.generate_trace_report data = inr (data', rep) →
  let info := PollutionTracer.cluster_info rep in
  NoDup (map PollutionTracer.ci_cluster info)
  ∧ StronglySorted cell_le (map PollutionTracer.ci_cluster info)
  ∧ (∀ key, key ∈ map PollutionTracer.ci_cluster info
            ↔ key ∈ column_of (rows data') col_cluster)
  ∧ sum_Qc (map PollutionTracer.ci_total info) = sum_Qc (map row_total (rows data'))
  ∧ sum_list (map PollutionTracer.ci_count info)
    = length (filter (λ r : Row, cell_at r col_unit ≠ NaN) (rows data')).
Proof.
intros Hrep info.
destruct (report_frame data data' rep Hrep)
  as (clusters & k & Hinfo & _ & _ & Hcol & Htot & _).
apply cluster_info_table_rows in Hinfo. fold info in Hinfo.
set (keys := group_keys (column_of (rows data') col_cluster)) in *.
assert (Hlabels : map PollutionTracer.ci_cluster info = keys).
{ rewrite Hinfo, map_map. simpl. apply map_id. }
assert (Hkeys : ∀ r : Row, r ∈ rows data' → cell_at r col_cluster ∈ keys).
{ intros r Hr. unfold keys. apply elem_of_group_keys. split.
  - unfold column_of. apply list_elem_of_fmap. by exists r.
  - assert (Hin : cell_at r col_cluster ∈ column_of (rows data') col_cluster).
    { unfold column_of. apply list_elem_of_fmap. by exists r. }
    rewrite Hcol in Hin. apply list_elem_of_fmap in Hin as (l & -> & _). discriminate. }
assert (Hall : filter (λ r : Row, cell_at r col_cluster ∈ keys) (rows data') = rows data').
{ by apply filter_all. }
rewrite Hlabels. split; [apply NoDup_group_keys|]. split; [apply StronglySorted_group_keys|].
split; [|split].
- intros key. unfold keys. rewrite elem_of_group_keys. split; [tauto|].
  intros Hkey. split; [exact Hkey|]. rewrite Hcol in Hkey.
  apply list_elem_of_fmap in Hkey as (l & -> & _). discriminate.
- rewrite Hinfo, map_map. cbn [PollutionTracer.ci_total].
  rewrite (map_ext _ (λ key, sum_Qc (map row_total
                                (filter (λ r : Row, cell_at r col_cluster = key) (rows data'))))).
  2:{ intros key. apply totals_of_members. apply Forall_forall. intros r Hr.
      apply group_rows_elem_of in Hr as [_ Hr]. rewrite Forall_forall in Htot. by apply Htot. }
  rewrite sum_by_groups by apply NoDup_group_keys. by rewrite Hall.
- rewrite Hinfo, map_map. cbn [PollutionTracer.ci_count].
  rewrite (map_ext _ (λ key, sum_list (map (λ r : Row, if decide (cell_at r col_unit ≠ NaN)
                                                       then 1%nat else 0%nat)
                                (filter (λ r : Row, cell_at r col_cluster = key) (rows data'))))).
  2:{ intros key. apply series_count_indicator. }
  rewrite sum_nat_by_groups by apply NoDup_group_keys. rewrite Hall.
  apply length_filter_indicator.
Qed.

Lemma cluster_info_accounts_for_every_record_witness :
  ∃ data' rep,
    @PollutionTracer.generate_trace_report merge_quicksort sample_data = inr (data', rep)
    ∧ sum_Qc (map PollutionTracer.ci_total (PollutionTracer.cluster_info rep))
      = sum_Qc (map row_total (rows data'))
    ∧ sum_list (map PollutionTracer.ci_count (PollutionTracer.cluster_info rep))
      = length (filter (λ r : Row, cell_at r col_unit ≠ NaN) (rows data')).
Proof.
assert (Hsome : (λ _, ()) <$> @PollutionTracer.generate_trace_report merge_quicksort sample_data
                = inr ()) by (vm_compute; reflexivity).
destruct (@PollutionTracer.generate_trace_report merge_quicksort sample_data)
  as [e|[data' rep]] eqn:Hrun; [discriminate Hsome|].
destruct (@cluster_info_accounts_for_every_record merge_quicksort sample_data data' rep Hrun)
  as (_ & _ & _ & H4 & H5).
exists data', rep. split; [reflexivity|]. split; [exact H4|exact H5].
Defined.

(** ** The ranking of section 1.1 *)

Lemma setitem_column_of df col vals df' c :
  setitem df col vals = inr df' → c ≠ col →
  column_of (rows df') c = column_of (rows df) c.
Proof.
intros Hd Hne. pose proof (setitem_length _ _ _ _ Hd) as Hlen.
destruct (setitem_inr _ _ _ _ Hd) as (_ & -> & _ & _).
unfold column_of. clear Hd. revert vals Hlen.
induction (rows df) as [|r rs IH]; intros [|v vals] Hlen; simpl in *; try discriminate;
  [reflexivity|].
f_equal; [|apply IH; lia]. unfold cell_at. by rewrite lookup_insert_ne.
Qed.

Lemma setitem_group_totals df col vals df' kcol e :
  setitem df col vals = inr df' → kcol ≠ col → col ∉ load_cols →
  map row_total (group_rows df' kcol e) = map row_total (group_rows df kcol e).
Proof.
intros Hd Hne Hload. pose proof (setitem_length _ _ _ _ Hd) as Hlen.
destruct (setitem_inr _ _ _ _ Hd) as (_ & Hrows & _ & _).
unfold group_rows. rewrite Hrows. clear Hd Hrows. revert vals Hlen.
induction (rows df) as [|r rs IH]; intros [|v vals] Hlen; simpl in *; try discriminate;
  [reflexivity|].
rewrite !filter_cons.
assert (Hkey : cell_at (<[col := v]> r) kcol = cell_at r kcol).
{ unfold cell_at. by rewrite lookup_insert_ne. }
rewrite Hkey. destruct (decide (cell_at r kcol = e)); simpl.
- rewrite row_total_insert by exact Hload. f_equal. apply IH. lia.
- apply IH. lia.
Qed.

(** X14. The ranking of section 1.1 lists the ten entities with the
    largest totals: when a report is produced, it has ten rows, or one for
    each entity when there are fewer; the rows are for distinct entities of
    the data, each with the sum of the totals of its records, in descending
    order; and an entity that is not listed has a total no greater than
    that of any listed entity. *)
Theorem top10_are_the_largest_entities `{Quicksort} (data data' : DataFrame)
    (rep : PollutionTracer.trace_report) :
  PollutionTracer.generate_trace_report data = inr (data', rep) →
  let total_of e := sum_Qc (map row_total (group_rows data col_unit e)) in
  let top := PollutionTracer.top10 rep in
  length top = (10 `min` length (group_keys (column_of (rows data) col_unit)))%nat
  ∧ StronglySorted PollutionTracer.by_total_desc top
  ∧ NoDup (map PollutionTracer.unit_name top)
  ∧ (∀ c, c ∈ top →
       PollutionTracer.unit_name c ≠ NaN
       ∧ PollutionTracer.unit_name c ∈ column_of (rows data) col_unit
       ∧ PollutionTracer.total_pollution c = total_of (PollutionTracer.unit_name c))
  ∧ ∀ e, e ≠ NaN → e ∈ column_of (rows data) col_unit →
      e ∉ map PollutionTracer.unit_name top →
      ∀ c, c ∈ top → total_of e ≤ PollutionTracer.total_pollution c.
Proof.
intros Hrep total_of top.
apply generate_trace_report_inr in Hrep
  as (labelled & clusters & stats & Hcl & Hpa & Htop & _).
fold top in Htop.
apply pollution_analysis_returns in Hpa as (_ & Hstats & _).
apply clustering_inr in Hcl as (X & SM & _ & _ & _ & Hd).
rewrite (setitem_column_of _ _ _ _ col_unit Hd) in Hstats by col_neq.
set (keys := group_keys (column_of (rows data) col_unit)) in *.
assert (Hsorted : StronglySorted PollutionTracer.by_total_desc stats).
{ rewrite Hstats. apply (quicksort_Sorted PollutionTracer.by_total_desc). }
assert (Hperm : stats ≡ₚ map (company_of (with_totals labelled)) keys).
{ rewrite Hstats. apply (quicksort_Permutation PollutionTracer.by_total_desc). }
assert (Hnames : map PollutionTracer.unit_name stats ≡ₚ keys).
{ rewrite Hperm, map_map. simpl. by rewrite map_id. }
assert (Htotal : ∀ c, c ∈ stats →
          PollutionTracer.total_pollution c = total_of (PollutionTracer.unit_name c)).
{ intros c Hc. rewrite Hperm in Hc. apply list_elem_of_fmap in Hc as (e & -> & _).
  destruct (company_of_totals labelled e) as [-> _]. unfold total_of. simpl.
  by rewrite (setitem_group_totals _ _ _ _ col_unit e Hd) by (col_neq || by_compute). }
assert (Hsub : ∀ c, c ∈ top → c ∈ stats).
{ intros c Hc. rewrite Htop in Hc. by apply (subseteq_take 10 stats). }
split; [|split; [|split; [|split]]].
- rewrite Htop, length_take. f_equal.
  by rewrite <- (length_map PollutionTracer.unit_name), Hnames.
- rewrite Htop. rewrite <- (take_drop 10 stats) in Hsorted.
  by apply StronglySorted_app_1_l in Hsorted.
- rewrite Htop. rewrite fmap_take. assert (Hnd : NoDup (map PollutionTracer.unit_name stats)).
  { rewrite Hnames. apply NoDup_group_keys. }
  rewrite <- (take_drop 10 (map PollutionTracer.unit_name stats)) in Hnd.
  by apply NoDup_app in Hnd as [Hnd _].
- intros c Hc. apply Hsub in Hc.
  assert (Hin : PollutionTracer.unit_name c ∈ keys).
  { rewrite <- Hnames. apply list_elem_of_fmap. by exists c. }
  apply elem_of_group_keys in Hin as [Hin Hna]. split; [exact Hna|]. split; [exact Hin|].
  by apply Htotal.
- intros e Hna He Hout c Hc.
  assert (Hin : e ∈ map PollutionTracer.unit_name stats).
  { rewrite Hnames. apply elem_of_group_keys. by split. }
  apply list_elem_of_fmap in Hin as (ce & -> & Hce).
  rewrite <- (Htotal ce Hce).
  rewrite <- (take_drop 10 stats) in Hce. apply elem_of_app in Hce as [Hce|Hce].
  + exfalso. apply Hout. apply list_elem_of_fmap. exists ce. split; [reflexivity|].
    by rewrite Htop.
  + rewrite Htop in Hc. rewrite <- (take_drop 10 stats) in Hsorted.
    exact (StronglySorted_app_1_elem_of _ _ _ _ _ Hsorted Hc Hce).
Qed.

Lemma top10_are_the_largest_entities_witness :
  ∃ data' rep,
    @PollutionTracer.generate_trace_report merge_quicksort sample_data = inr (data', rep)
    ∧ length (PollutionTracer.top10 rep)
      = (10 `min` length (group_keys (column_of (rows sample_data) col_unit)))%nat
    ∧ StronglySorted PollutionTracer.by_total_desc (PollutionTracer.top10 rep).
Proof.
assert (Hsome : (λ _, ()) <$> @PollutionTracer.generate_trace_report merge_quicksort sample_data
                = inr ()) by (vm_compute; reflexivity).
destruct (@PollutionTracer.generate_trace_report merge_quicksort sample_data)
  as [e|[data' rep]] eqn:Hrun; [discriminate Hsome|].
destruct (@top10_are_the_largest_entities merge_quicksort sample_data data' rep Hrun)
  as (H1 & H2 & _).
exists data', rep. split; [reflexivity|]. split; [exact H1|exact H2].
Defined.

(** ** [missing_analysis] *)

Lemma Qc_of_nat_le (m n : nat) : (m ≤ n)%nat → Qc_of_nat m ≤ Qc_of_nat n.
Proof.
intros Hle. unfold Qc_of_nat, Qcle. simpl. rewrite !Qred_correct.
rewrite <- Zle_Qle. lia.
Qed.

Lemma Qc_of_nat_pos (n : nat) : (0 < n)%nat → 0 < Qc_of_nat n.
Proof.
intros Hpos. unfold Qc_of_nat, Qclt. simpl. rewrite !Qred_correct.
change 0%Q with (inject_Z 0). rewrite <- Zlt_Qlt. lia.
Qed.

Lemma Qc_of_nat_inj (m n : nat) : Qc_of_nat m = Qc_of_nat n → m = n.
Proof.
unfold Qc_of_nat. intros Heq. apply (f_equal this) in Heq. simpl in Heq.
apply Qred_eq_iff in Heq. apply (proj1 (inject_Z_injective _ _)) in Heq. lia.
Qed.

Lemma hundred_pos : 0 < DataAnalysis.hundred.
Proof. by_compute. Qed.

(** The share [m / n] of [m <= n] among [n > 0], as a percentage. *)
Lemma percent_bounds (m n : nat) :
  (0 < n)%nat → (m ≤ n)%nat →
  let p := Qc_of_nat m / Qc_of_nat n * DataAnalysis.hundred in
  0 ≤ p ∧ p ≤ DataAnalysis.hundred
  ∧ (p = 0 ↔ m = 0%nat) ∧ (p = DataAnalysis.hundred ↔ m = n).
Proof.
intros Hn Hm p.
pose proof (Qc_of_nat_pos n Hn) as HN.
assert (HN0 : Qc_of_nat n ≠ 0) by (intros Heq; rewrite Heq in HN; by apply Qclt_not_eq in HN).
pose proof hundred_pos as H100.
assert (H100' : DataAnalysis.hundred ≠ 0).
{ intros Heq. rewrite Heq in H100. by apply Qclt_not_eq in H100. }
set (x := Qc_of_nat m / Qc_of_nat n) in *.
assert (Hx : x * Qc_of_nat n = Qc_of_nat m).
{ unfold x. rewrite Qcmult_comm. by apply Qcmult_div_r. }
assert (Hx0 : 0 ≤ x).
{ apply (Qcmult_lt_0_le_reg_r _ _ (Qc_of_nat n) HN). rewrite Hx, Qcmult_0_l.
  change 0 with (Qc_of_nat 0). apply Qc_of_nat_le. lia. }
assert (Hx1 : x ≤ 1).
{ apply (Qcmult_lt_0_le_reg_r _ _ (Qc_of_nat n) HN). rewrite Hx, Qcmult_1_l.
  by apply Qc_of_nat_le. }
split; [|split; [|split]].
- unfold p. rewrite <- (Qcmult_0_l DataAnalysis.hundred).
  apply Qcmult_le_compat_r; [exact Hx0|by apply Qclt_le_weak].
- unfold p. rewrite <- (Qcmult_1_l DataAnalysis.hundred) at 2.
  apply Qcmult_le_compat_r; [exact Hx1|by apply Qclt_le_weak].
- unfold p. split.
  + intros Hp. apply Qcmult_integral in Hp as [Hp|Hp]; [|contradiction].
    rewrite Hp, Qcmult_0_l in Hx. change 0 with (Qc_of_nat 0) in Hx.
    symmetry. by apply Qc_of_nat_inj.
  + intros ->. unfold x, Qcdiv. change (Qc_of_nat 0) with 0. by rewrite !Qcmult_0_l.
- unfold p. split.
  + intros Hp. assert (Hx' : x = 1).
    { apply Qcle_antisym; [exact Hx1|].
      apply (Qcmult_lt_0_le_reg_r _ _ DataAnalysis.hundred H100).
      rewrite Hp, Qcmult_1_l. apply Qcle_refl. }
    rewrite Hx', Qcmult_1_l in Hx. symmetry. by apply Qc_of_nat_inj.
  + intros ->. unfold x, Qcdiv. rewrite Qcmult_inv_r by exact HN0. apply Qcmult_1_l.
Qed.

Lemma missing_plus_present (series : list cell) :
  (length (filter (λ v, DataAnalysis.isnull v = true) series) + series_count series
   = length series)%nat.
Proof.
unfold series_count. induction series as [|v l IH]; [reflexivity|].
rewrite !filter_cons. destruct v; simpl in *; lia.
Qed.

(** X15. The table of [missing_analysis] has one row per column of the
    frame, in column order. In each row the missing count and the number
    of present cells of the column add up to the number of records; the
    percentage is missing when the frame has no record (0/0), and otherwise
    lies between 0 and 100, is 0 exactly when no cell of the column is
    missing, and 100 exactly when all are. *)
Theorem missing_analysis_counts (data : DataFrame) :
  map DataAnalysis.field (DataAnalysis.missing_analysis data) = columns data
  ∧ ∀ row, row ∈ DataAnalysis.missing_analysis data →
      (DataAnalysis.missing_count row
       + series_count (column_of (rows data) (DataAnalysis.field row))
       = length (rows data))%nat
      ∧ match DataAnalysis.missing_percent row with
        | None => rows data = []
        | Some p =>
            rows data ≠ [] ∧ 0 ≤ p ∧ p ≤ DataAnalysis.hundred
            ∧ (p = 0 ↔ DataAnalysis.missing_count row = 0%nat)
            ∧ (p = DataAnalysis.hundred
               ↔ DataAnalysis.missing_count row = length (rows data))
        end.
Proof.
unfold DataAnalysis.missing_analysis. split.
- rewrite map_map. simpl. apply map_id.
- intros row Hrow. apply list_elem_of_fmap in Hrow as (col & -> & _). simpl.
  pose proof (missing_plus_present (column_of (rows data) col)) as Hsum.
  assert (Hlen : length (column_of (rows data) col) = length (rows data)).
  { unfold column_of. apply length_map. }
  rewrite Hlen in Hsum. split; [exact Hsum|].
  unfold DataAnalysis.percent_of. case_bool_decide as Hn.
  + by apply length_zero_iff_nil.
  + split; [by intros Hnil; rewrite Hnil in Hn|].
    apply percent_bounds; lia.
Qed.

(** ** Preprocessing and the analyses *)

Lemma analyzer_preprocess_data_inr parse_number raw data :
  DataAnalyzer.preprocess_data parse_number raw = inr data →
  DataAnalyzer.col_geo_lon ∈ columns raw ∧ DataAnalyzer.col_geo_lat ∈ columns raw
  ∧ data = {| columns := columns raw;
              rows := map (coerce_cells parse_number (analyzer_coerced raw)) (rows raw) |}.
Proof.
unfold DataAnalyzer.preprocess_data. intros Hok.
rewrite coerce_present_filter, ret_bind in Hok.
apply bind_inr in Hok as (d1 & H1 & H2).
pose proof (coerce_column_inr _ _ _ _ H1) as Hlon. simpl in Hlon.
rewrite coerce_column_present in H1 by exact Hlon. injection H1 as <-.
pose proof (coerce_column_inr _ _ _ _ H2) as Hlat. simpl in Hlat.
rewrite coerce_column_present in H2 by exact Hlat. injection H2 as <-.
split; [exact Hlon|]. split; [exact Hlat|]. simpl. f_equal.
rewrite !map_map. apply map_ext. intros r. unfold analyzer_coerced, coerce_cells.
by rewrite foldl_app.
Qed.

Lemma cell_at_coerce_cells parse_number cols (r : Row) col :
  cell_at (coerce_cells parse_number cols r) col
  = if decide (col ∈ cols) then coerce parse_number (cell_at r col) else cell_at r col.
Proof.
unfold cell_at at 1. rewrite coerce_cells_lookup. by destruct (decide (col ∈ cols)).
Qed.

Lemma isnull_coerce parse_number (vs : list cell) :
  length (filter (λ v, DataAnalysis.isnull v = true) (map (coerce parse_number) vs))
  = (length (filter (λ v, DataAnalysis.isnull v = true) vs)
     + length (filter (λ v, bad_text parse_number v = true) vs))%nat.
Proof.
unfold bad_text. induction vs as [|v vs IH]; [reflexivity|].
cbn [map]. rewrite !filter_cons.
destruct v as [q|s|]; simpl.
- rewrite IH. lia.
- destruct (parse_number s) as [q|]; simpl; rewrite IH; lia.
- rewrite IH. lia.
Qed.

(** X16. Preprocessing can only add missing values, and adds exactly the
    unreadable text: after [DataAnalyzer.preprocess_data], the table of
    [missing_analysis] has the same rows for the same columns; for a
    coordinate column and for each of the five measurement columns the
    missing count has grown by the number of text cells that
    [to_numeric] could not read; for every other column it is unchanged. *)
Theorem preprocessing_counts_bad_text_as_missing (parse_number : string → option Qc)
    (raw data : DataFrame) (i : nat) (before : DataAnalysis.missing_row) :
  DataAnalyzer.preprocess_data parse_number raw = inr data →
  DataAnalysis.missing_analysis raw !! i = Some before →
  ∃ after,
    DataAnalysis.missing_analysis data !! i = Some after
    ∧ DataAnalysis.field after = DataAnalysis.field before
    ∧ DataAnalysis.missing_count after
      = (DataAnalysis.missing_count before
         + if decide (DataAnalysis.field before ∈ DataAnalyzer.numeric_cols
                      ∨ DataAnalysis.field before = DataAnalyzer.col_geo_lon
                      ∨ DataAnalysis.field before = DataAnalyzer.col_geo_lat)
           then length (filter (λ v, bad_text parse_number v = true)
                               (column_of (rows raw) (DataAnalysis.field before)))
           else 0)%nat.
Proof.
intros Hpre Hbefore.
apply analyzer_preprocess_data_inr in Hpre as (Hlon & Hlat & ->).
unfold DataAnalysis.missing_analysis in *. simpl.
rewrite list_lookup_fmap in Hbefore. rewrite list_lookup_fmap.
destruct (columns raw !! i) as [col|] eqn:Hcol; [|discriminate Hbefore].
injection Hbefore as <-. simpl. eexists. split; [reflexivity|]. simpl.
split; [reflexivity|].
assert (Hin : col ∈ columns raw) by (by eapply list_elem_of_lookup_2).
assert (Hcols : col ∈ analyzer_coerced raw
                ↔ col ∈ DataAnalyzer.numeric_cols ∨ col = DataAnalyzer.col_geo_lon
                  ∨ col = DataAnalyzer.col_geo_lat).
{ unfold analyzer_coerced. rewrite elem_of_app, list_elem_of_filter, !elem_of_cons, elem_of_nil.
  tauto. }
assert (Hcolumn : column_of (map (coerce_cells parse_number (analyzer_coerced raw)) (rows raw)) col
                  = if decide (col ∈ analyzer_coerced raw)
                    then map (coerce parse_number) (column_of (rows raw) col)
                    else column_of (rows raw) col).
{ unfold column_of. rewrite map_map.
  destruct (decide (col ∈ analyzer_coerced raw)) as [Hc|Hc].
  - rewrite map_map. apply map_ext. intros r. by rewrite cell_at_coerce_cells, decide_True.
  - apply map_ext. intros r. by rewrite cell_at_coerce_cells, decide_False. }
rewrite Hcolumn.
destruct (decide (col ∈ analyzer_coerced raw)) as [Hc|Hc].
- rewrite decide_True by (by apply Hcols). apply isnull_coerce.
- rewrite decide_False by (by rewrite <- Hcols). lia.
Qed.

Lemma preprocessing_counts_bad_text_as_missing_witness :
  ∃ data before after,
    DataAnalyzer.preprocess_data parse_digits sample_analysis_raw = inr data
    ∧ DataAnalysis.missing_analysis sample_analysis_raw !! 1%nat = Some before
    ∧ DataAnalysis.missing_analysis data !! 1%nat = Some after
    ∧ DataAnalysis.missing_count before = 0%nat
    ∧ DataAnalysis.missing_count after = 1%nat.
Proof.
assert (Hsome : (λ _, ()) <$> DataAnalyzer.preprocess_data parse_digits sample_analysis_raw
                = inr ()) by (vm_compute; reflexivity).
destruct (DataAnalyzer.preprocess_data parse_digits sample_analysis_raw) as [e|data] eqn:Hpre;
  [discriminate Hsome|].
destruct (DataAnalysis.missing_analysis sample_analysis_raw !! 1%nat) as [before|] eqn:Hb;
  [|vm_compute in Hb; discriminate Hb].
destruct (preprocessing_counts_bad_text_as_missing parse_digits sample_analysis_raw data 1
            before Hpre Hb) as (after & Ha & _ & Hcount).
assert (Hb0 : DataAnalysis.missing_count before = 0%nat).
{ vm_compute in Hb. by injection Hb as <-. }
exists data, before, after. split; [reflexivity|]. split; [reflexivity|].
split; [exact Ha|]. split; [exact Hb0|].
rewrite Hcount, Hb0. assert (Hf : DataAnalysis.field before = DataAnalyzer.col_geo_lat).
{ vm_compute in Hb. by injection Hb as <-. }
rewrite Hf. vm_compute. reflexivity.
Defined.

(** ** [generate_map] *)

Lemma coerce_num parse_number v : coerce parse_number v ≠ NaN → is_num (coerce parse_number v) = true.
Proof. destruct v as [q|s|]; simpl; try done. by destruct (parse_number s). Qed.

Lemma dropna_coerced parse_number cols (rs : list Row) :
  DataAnalyzer.col_geo_lon ∈ cols → DataAnalyzer.col_geo_lat ∈ cols →
  DataAnalysis.dropna (map (coerce_cells parse_number cols) rs)
                      [DataAnalyzer.col_geo_lon; DataAnalyzer.col_geo_lat]
  = map (coerce_cells parse_number cols) (filter (locatable parse_number) rs).
Proof.
intros Hlon Hlat. unfold DataAnalysis.dropna.
induction rs as [|r rs IH]; [reflexivity|].
cbn [map]. rewrite !filter_cons, IH. cbn [forallb].
rewrite !cell_at_coerce_cells.
rewrite (decide_True (P := DataAnalyzer.col_geo_lon ∈ cols)) by exact Hlon.
rewrite (decide_True (P := DataAnalyzer.col_geo_lat ∈ cols)) by exact Hlat.
destruct (decide (locatable parse_number r)) as [[Hx Hy]|Hno].
- rewrite decide_True; [reflexivity|].
  destruct (coerce parse_number (cell_at r DataAnalyzer.col_geo_lon)) as [x|s|];
    destruct (coerce parse_number (cell_at r DataAnalyzer.col_geo_lat)) as [y|t|];
    try reflexivity; exfalso; (by apply Hx) || (by apply Hy).
- rewrite decide_False; [reflexivity|]. intros Hboth. apply Hno.
  apply andb_true_iff in Hboth as [Hx Hy]. apply andb_true_iff in Hy as [Hy _].
  split; intros Heq; [rewrite Heq in Hx|rewrite Heq in Hy]; discriminate.
Qed.

(** X17. [generate_map] after preprocessing shows exactly the records
    whose longitude and latitude both read as numbers: when there is none
    it only warns; otherwise - the three popup columns being there - it
    saves a map with one marker per such record, in record order, each at
    the numeric latitude and longitude of its record and with the name,
    type and feature cells of that record. A record with a missing or
    unreadable coordinate is left off the map and makes nothing fail. *)
Theorem map_shows_the_locatable_records (parse_number : string → option Qc)
    (raw data : DataFrame) :
  DataAnalyzer.preprocess_data parse_number raw = inr data →
  Forall (λ col, col ∈ columns raw)
         [DataAnalysis.col_name; DataAnalysis.col_type; DataAnalysis.col_feature] →
  let shown := filter (locatable parse_number) (rows raw) in
  (shown = [] → DataAnalysis.generate_map data = DataAnalysis.NoValidData)
  ∧ (shown ≠ [] →
     ∃ ms, DataAnalysis.generate_map data = DataAnalysis.MapSaved ms
       ∧ length ms = length shown
       ∧ ∀ i (r : Row), shown !! i = Some r →
           ∃ m, ms !! i = Some m
             ∧ DataAnalysis.mm_lat m = coerce parse_number (cell_at r DataAnalyzer.col_geo_lat)
             ∧ DataAnalysis.mm_lon m = coerce parse_number (cell_at r DataAnalyzer.col_geo_lon)
             ∧ is_num (DataAnalysis.mm_lat m) = true
             ∧ is_num (DataAnalysis.mm_lon m) = true
             ∧ DataAnalysis.mm_name m = cell_at r DataAnalysis.col_name
             ∧ DataAnalysis.mm_type m = cell_at r DataAnalysis.col_type
             ∧ DataAnalysis.mm_feature m = cell_at r DataAnalysis.col_feature).
Proof.
intros Hpre Hpopup. cbv zeta.
remember (filter (locatable parse_number) (rows raw)) as shown eqn:Hshown.
apply analyzer_preprocess_data_inr in Hpre as (Hlon & Hlat & ->).
assert (Hclon : DataAnalyzer.col_geo_lon ∈ analyzer_coerced raw).
{ unfold analyzer_coerced. rewrite elem_of_app, !elem_of_cons. tauto. }
assert (Hclat : DataAnalyzer.col_geo_lat ∈ analyzer_coerced raw).
{ unfold analyzer_coerced. rewrite elem_of_app, !elem_of_cons. tauto. }
assert (Hother : ∀ col, col ∈ [DataAnalysis.col_name; DataAnalysis.col_type;
                               DataAnalysis.col_feature] → col ∉ analyzer_coerced raw).
{ intros col Hcol Hin. unfold analyzer_coerced in Hin.
  rewrite elem_of_app, list_elem_of_filter in Hin.
  assert (Hno : col ∉ DataAnalyzer.numeric_cols
                      ++ [DataAnalyzer.col_geo_lon; DataAnalyzer.col_geo_lat]).
  { rewrite !elem_of_cons, elem_of_nil in Hcol.
    destruct Hcol as [->|[->|[->|[]]]]; by_compute. }
  apply Hno. rewrite elem_of_app. tauto. }
unfold DataAnalysis.generate_map. simpl.
rewrite bool_decide_eq_true_2 by (by repeat constructor).
rewrite (dropna_coerced parse_number _ _ Hclon Hclat), <- Hshown.
split.
- intros ->. reflexivity.
- intros Hne. destruct shown as [|r0 shown']; [done|].
  cbn [map]. rewrite bool_decide_eq_true_2 by exact Hpopup.
  eexists. split; [reflexivity|]. split; [simpl; by rewrite !length_map|].
  intros i r Hi.
  assert (Hr : locatable parse_number r).
  { assert (Hin : r ∈ filter (locatable parse_number) (rows raw)).
    { rewrite <- Hshown. by eapply list_elem_of_lookup_2. }
    by apply list_elem_of_filter in Hin as [Hin _]. }
  destruct Hr as [Hx Hy].
  exists (DataAnalysis.marker_of (coerce_cells parse_number (analyzer_coerced raw) r)).
  split.
  { change (DataAnalysis.marker_of (coerce_cells parse_number (analyzer_coerced raw) r0)
            :: map DataAnalysis.marker_of
                 (map (coerce_cells parse_number (analyzer_coerced raw)) shown'))
      with (map DataAnalysis.marker_of
              (map (coerce_cells parse_number (analyzer_coerced raw)) (r0 :: shown'))).
    by rewrite !list_lookup_fmap, Hi. }
  unfold DataAnalysis.marker_of. simpl.
  rewrite !cell_at_coerce_cells.
  rewrite !(decide_True (P := DataAnalyzer.col_geo_lat ∈ _)) by exact Hclat.
  rewrite !(decide_True (P := DataAnalyzer.col_geo_lon ∈ _)) by exact Hclon.
  rewrite !decide_False by (apply Hother; rewrite !elem_of_cons; tauto).
  repeat split; by apply coerce_num.
Qed.

Lemma map_shows_the_locatable_records_witness :
  ∃ data ms,
    DataAnalyzer.preprocess_data parse_digits sample_survey_raw = inr data
    ∧ DataAnalysis.generate_map data = DataAnalysis.MapSaved ms
    ∧ length ms = 2%nat.
Proof.
assert (Hsome : (λ _, ()) <$> DataAnalyzer.preprocess_data parse_digits sample_survey_raw
                = inr ()) by (vm_compute; reflexivity).
destruct (DataAnalyzer.preprocess_data parse_digits sample_survey_raw) as [e|data] eqn:Hpre;
  [discriminate Hsome|].
destruct (map_shows_the_locatable_records parse_digits sample_survey_raw data Hpre)
  as [_ Hshown]; [by_compute|].
destruct Hshown as (ms & Hmap & Hlen & _); [by_compute|].
exists data, ms. split; [reflexivity|]. split; [exact Hmap|].
rewrite Hlen. vm_compute. reflexivity.
Defined.

(** ** [generate_statistics] *)

#[global] Instance by_count_desc_trans : Transitive DataAnalysis.by_count_desc.
Proof. intros x y z. unfold DataAnalysis.by_count_desc. lia. Qed.

#[global] Instance by_count_desc_total : Total DataAnalysis.by_count_desc.
Proof. intros x y. unfold DataAnalysis.by_count_desc. lia. Qed.









(** ** [outlier_analysis] *)

Lemma mapM_as_float_cases (l : list cell) :
  (Forall (λ v, is_str v = false) l ∧ mapM_result as_float l = inr (map float_of l))
  ∨ (Exists (λ v, is_str v = true) l ∧ mapM_result as_float l = inl TypeError).
Proof.
induction l as [|v l IH].
- left. split; [constructor|reflexivity].
- destruct v as [q|s|].
  + destruct IH as [[Hall Hrun]|[Hex Hrun]].
    * left. split; [by constructor|]. simpl. rewrite Hrun. reflexivity.
    * right. split; [by right|]. simpl. rewrite Hrun. reflexivity.
  + right. split; [by left|]. reflexivity.
  + destruct IH as [[Hall Hrun]|[Hex Hrun]].
    * left. split; [by constructor|]. simpl. rewrite Hrun. reflexivity.
    * right. split; [by right|]. simpl. rewrite Hrun. reflexivity.
Qed.

Lemma mapM_as_float_Permutation (l1 l2 : list cell) :
  l1 ≡ₚ l2 →
  (λ xs, merge_sort Qcle (omap id xs)) <$> mapM_result as_float l1
  = (λ xs, merge_sort Qcle (omap id xs)) <$> mapM_result as_float l2.
Proof.
intros Hperm.
destruct (mapM_as_float_cases l1) as [[Hall1 ->]|[Hex1 ->]].
- assert (Hall2 : Forall (λ v, is_str v = false) l2) by (by rewrite <- Hperm).
  rewrite (mapM_result_inr as_float float_of l2).
  2:{ intros v Hv. apply as_float_ok. rewrite Forall_forall in Hall2. by apply Hall2. }
  simpl. f_equal. apply (StronglySorted_unique Qcle).
  + apply (StronglySorted_merge_sort _).
  + apply (StronglySorted_merge_sort _).
  + rewrite !merge_sort_Permutation. by rewrite Hperm.
- assert (Hex2 : Exists (λ v, is_str v = true) l2) by (by rewrite <- Hperm).
  destruct (mapM_as_float_cases l2) as [[Hall2 _]|[_ ->]]; [|reflexivity].
  exfalso. apply Exists_exists in Hex2 as (v & Hv & Hstr).
  rewrite Forall_forall in Hall2. specialize (Hall2 v Hv). congruence.
Qed.

Lemma quantile_Permutation q (l1 l2 : list cell) :
  l1 ≡ₚ l2 → DataAnalysis.quantile q l1 = DataAnalysis.quantile q l2.
Proof.
intros Hperm. pose proof (mapM_as_float_Permutation l1 l2 Hperm) as Hsorted.
unfold DataAnalysis.quantile.
destruct (mapM_result as_float l1) as [e1|xs1], (mapM_result as_float l2) as [e2|xs2];
  simpl in Hsorted; try discriminate Hsorted.
- by injection Hsorted as ->.
- injection Hsorted as Hsorted. rewrite !ret_bind. by rewrite Hsorted.
Qed.

Lemma outlier_count_Permutation (l1 l2 : list cell) :
  l1 ≡ₚ l2 → DataAnalysis.outlier_count l1 = DataAnalysis.outlier_count l2.
Proof.
intros Hperm. unfold DataAnalysis.outlier_count.
rewrite (quantile_Permutation DataAnalysis.quarter l1 l2 Hperm).
rewrite (quantile_Permutation DataAnalysis.three_quarters l1 l2 Hperm).
destruct (DataAnalysis.quantile DataAnalysis.quarter l2) as [e|[q1|]]; try reflexivity;
  destruct (DataAnalysis.quantile DataAnalysis.three_quarters l2) as [e|[q3|]]; try reflexivity.
simpl. by rewrite Hperm.
Qed.

(** X19. The outlier counts do not depend on the order of the records:
    two frames with the same columns whose records are the same up to
    their order get the same result from [outlier_analysis], be it the
    counts or the error. *)
Theorem outlier_analysis_ignores_record_order (data1 data2 : DataFrame) :
  columns data1 = columns data2 → rows data1 ≡ₚ rows data2 →
  DataAnalysis.outlier_analysis data1 = DataAnalysis.outlier_analysis data2.
Proof.
intros Hcols Hrows. unfold DataAnalysis.outlier_analysis.
induction DataAnalyzer.numeric_cols as [|col cols IH]; [reflexivity|].
cbn [DataAnalysis.outliers_of]. rewrite <- Hcols, IH.
case_bool_decide as Hcol; [|reflexivity].
rewrite !getitem_ok, !ret_bind by (exact Hcol || by rewrite <- Hcols).
rewrite (outlier_count_Permutation (column_of (rows data1) col) (column_of (rows data2) col)).
- reflexivity.
- unfold column_of. by rewrite Hrows.
Qed.

Lemma outlier_analysis_ignores_record_order_witness :
  DataAnalysis.outlier_analysis sample_survey_raw
  = DataAnalysis.outlier_analysis
      {| columns := columns sample_survey_raw; rows := reverse (rows sample_survey_raw) |}.
Proof.
apply outlier_analysis_ignores_record_order.
- reflexivity.
- simpl. by rewrite reverse_Permutation.
Defined.







Lemma filter_none {A : Type} (P : A → Prop) `{!∀ x, Decision (P x)} (l : list A) :
  (∀ x, x ∈ l → ¬ P x) → filter P l = [].
Proof.
induction l as [|x l IH]; intros Hno; [reflexivity|].
rewrite filter_cons, decide_False by (apply Hno; left).
apply IH. intros y Hy. apply Hno. by right.
Qed.

Lemma quantile_constant q (series : list cell) c :
  Forall (λ v, v = Num c ∨ v = NaN) series →
  DataAnalysis.quantile q series = inr None ∨ DataAnalysis.quantile q series = inr (Some c).
Proof.
intros Hconst. unfold DataAnalysis.quantile.
rewrite (mapM_result_inr as_float float_of), ret_bind.
2:{ intros v Hv. apply as_float_ok. rewrite Forall_forall in Hconst.
    by destruct (Hconst v Hv) as [->| ->]. }
set (sorted := merge_sort Qcle (omap id (map float_of series))).
assert (Hall : ∀ i x, sorted !! i = Some x → x = c).
{ intros i x Hi. apply list_elem_of_lookup_2 in Hi. unfold sorted in Hi.
  rewrite merge_sort_Permutation in Hi. apply list_elem_of_omap in Hi as (o & Ho & Hx).
  apply list_elem_of_fmap in Ho as (v & -> & Hv). rewrite Forall_forall in Hconst.
  destruct (Hconst v Hv) as [->| ->]; simpl in Hx; [by injection Hx as <-|discriminate Hx]. }
unfold DataAnalysis.interpolate.
match goal with |- context [@lookup _ _ _ _ ?i sorted ≫= _] => set (lo := i) end.
destruct (sorted !! lo) as [a|] eqn:Ha; [|left; reflexivity].
destruct (sorted !! ((lo + 1) `min` (length sorted - 1))%nat) as [b|] eqn:Hb;
  [|left; reflexivity].
right. simpl. apply Hall in Ha as ->. apply Hall in Hb as ->.
unfold mret, result_ret. do 2 f_equal. ring.
Qed.

(** X21. A column whose present values are all equal has no outlier, and
    neither has a column without a present value. *)
Theorem constant_column_has_no_outlier (series : list cell) (c : Qc) :
  Forall (λ v, v = Num c ∨ v = NaN) series →
  DataAnalysis.outlier_count series = inr 0%nat.
Proof.
intros Hconst. unfold DataAnalysis.outlier_count.
destruct (quantile_constant DataAnalysis.quarter series c Hconst) as [H1|H1],
  (quantile_constant DataAnalysis.three_quarters series c Hconst) as [H3|H3];
  rewrite H1, ret_bind, H3, ret_bind; try reflexivity.
unfold mret, result_ret. f_equal.
replace (c - c) with (0 : Qc) by ring.
replace (c - DataAnalysis.one_and_half * 0) with c by ring.
replace (c + DataAnalysis.one_and_half * 0) with c by ring.
rewrite filter_none; [reflexivity|].
intros v Hv. rewrite Forall_forall in Hconst.
destruct (Hconst v Hv) as [-> | ->]; simpl; [|done].
rewrite !bool_decide_eq_false_2 by apply (irreflexivity Qclt). done.
Qed.

Lemma constant_column_has_no_outlier_witness :
  DataAnalysis.outlier_count [num 7 1; NaN; num 7 1; num 7 1] = inr 0%nat.
Proof.
apply (constant_column_has_no_outlier _ (Q2Qc (7 # 1))). by_compute.
Defined.

(** *** Quartiles *)

Lemma Qc_floor_le (h : Qc) : Q2Qc (inject_Z (Qfloor h)) ≤ h.
Proof. unfold Qcle. simpl. rewrite Qred_correct. apply Qfloor_le. Qed.

Lemma Qc_lt_floor (h : Qc) : h < Q2Qc (inject_Z (Qfloor h)) + 1.
Proof.
unfold Qclt. simpl. rewrite !Qred_correct.
pose proof (Qlt_floor h) as Hlt. rewrite inject_Z_plus in Hlt. exact Hlt.
Qed.

Lemma Qc_floor_mono (h1 h2 : Qc) : h1 ≤ h2 → (Qfloor h1 ≤ Qfloor h2)%Z.
Proof. intros Hle. by apply Qfloor_resp_le. Qed.

Lemma Qc_floor_of_nat (m : nat) : Qfloor (Qc_of_nat m) = Z.of_nat m.
Proof. unfold Qc_of_nat. simpl. rewrite Qred_correct. apply Qfloor_Z. Qed.

Lemma Qc_of_nat_0 : Qc_of_nat 0 = 0.
Proof. by_compute. Qed.

(** The position [h = m q] of a quantile and its integer part. *)
Lemma position_bounds (m : nat) (q : Qc) :
  0 ≤ q → q ≤ 1 →
  let h := Qc_of_nat m * q in
  (0 ≤ Qfloor h)%Z ∧ (Z.to_nat (Qfloor h) ≤ m)%nat
  ∧ 0 ≤ h - Q2Qc (inject_Z (Qfloor h)) ∧ h - Q2Qc (inject_Z (Qfloor h)) ≤ 1.
Proof.
intros Hq0 Hq1 h.
assert (HM : 0 ≤ Qc_of_nat m).
{ rewrite <- Qc_of_nat_0. apply Qc_of_nat_le. lia. }
assert (Hh0 : 0 ≤ h).
{ unfold h. rewrite <- (Qcmult_0_l q). by apply Qcmult_le_compat_r. }
assert (Hh1 : h ≤ Qc_of_nat m).
{ unfold h. rewrite <- (Qcmult_1_r (Qc_of_nat m)) at 2.
  rewrite !(Qcmult_comm (Qc_of_nat m)). by apply Qcmult_le_compat_r. }
assert (Hfl0 : (0 ≤ Qfloor h)%Z).
{ change 0%Z with (Qfloor (0 : Qc)). by apply Qc_floor_mono. }
assert (Hfl1 : (Qfloor h ≤ Z.of_nat m)%Z).
{ rewrite <- Qc_floor_of_nat. by apply Qc_floor_mono. }
split; [exact Hfl0|]. split; [lia|]. split.
- unfold Qcminus. apply (proj1 (Qcle_minus_iff _ _)). apply Qc_floor_le.
- pose proof (Qc_lt_floor h) as Hlt. apply Qclt_le_weak in Hlt.
  apply (Qcplus_le_mono_r _ _ (Q2Qc (inject_Z (Qfloor h)))).
  replace (h - Q2Qc (inject_Z (Qfloor h)) + Q2Qc (inject_Z (Qfloor h))) with h by ring.
  by rewrite Qcplus_comm.
Qed.

Lemma StronglySorted_lookup_le (s : list Qc) (i j : nat) (a b : Qc) :
  StronglySorted Qcle s → (i ≤ j)%nat → s !! i = Some a → s !! j = Some b → a ≤ b.
Proof.
intros Hs. revert i j. induction Hs as [|x s Hs IH Hx]; intros i j Hij Hi Hj.
- discriminate Hi.
- destruct i as [|i], j as [|j]; simpl in Hi, Hj.
  + injection Hi as <-. injection Hj as <-. apply Qcle_refl.
  + injection Hi as <-. rewrite Forall_forall in Hx. apply Hx.
    by eapply list_elem_of_lookup_2.
  + lia.
  + apply (IH i j); [lia|exact Hi|exact Hj].
Qed.

(** A convex combination lies between its ends. *)
Lemma lerp_between (a b g : Qc) : a ≤ b → 0 ≤ g → g ≤ 1 → a ≤ a + (b - a) * g ∧ a + (b - a) * g ≤ b.
Proof.
intros Hab Hg0 Hg1.
assert (Hd : 0 ≤ b - a) by (unfold Qcminus; by apply (proj1 (Qcle_minus_iff _ _))).
split.
- rewrite <- (Qcplus_0_r a) at 1. apply Qcplus_le_mono_l.
  rewrite <- (Qcmult_0_l g). by apply Qcmult_le_compat_r.
- replace b with (a + (b - a) * 1) at 2 by ring. apply Qcplus_le_mono_l.
  rewrite !(Qcmult_comm (b - a)). by apply Qcmult_le_compat_r.
Qed.

Lemma lerp_mono (a b g1 g2 : Qc) : a ≤ b → g1 ≤ g2 → a + (b - a) * g1 ≤ a + (b - a) * g2.
Proof.
intros Hab Hg.
assert (Hd : 0 ≤ b - a) by (unfold Qcminus; by apply (proj1 (Qcle_minus_iff _ _))).
apply Qcplus_le_mono_l. rewrite !(Qcmult_comm (b - a)). by apply Qcmult_le_compat_r.
Qed.

(** The quantile of a sorted list at [0 <= q <= 1]: it exists when the
    list is not empty and lies between the two values around its
    position. *)
Lemma interpolate_between (q : Qc) (s : list Qc) :
  StronglySorted Qcle s → s ≠ [] → 0 ≤ q → q ≤ 1 →
  let lo := Z.to_nat (Qfloor (Qc_of_nat (length s - 1) * q)%Qc) in
  let hi := ((lo + 1) `min` (length s - 1))%nat in
  ∃ a b v, s !! lo = Some a ∧ s !! hi = Some b
    ∧ DataAnalysis.interpolate q s = Some v
    ∧ v = a + (b - a) * (Qc_of_nat (length s - 1) * q
                         - Q2Qc (inject_Z (Qfloor (Qc_of_nat (length s - 1) * q)%Qc)))
    ∧ a ≤ v ∧ v ≤ b ∧ (lo ≤ hi)%nat ∧ (hi < length s)%nat.
Proof.
intros Hs Hne Hq0 Hq1 lo hi.
destruct (position_bounds (length s - 1) q Hq0 Hq1) as (Hfl & Hlo & Hg0 & Hg1).
change (lo ≤ length s - 1)%nat in Hlo.
assert (Hlen : (0 < length s)%nat) by (destruct s; [done|simpl; lia]).
assert (Hhi : (hi < length s)%nat) by (unfold hi; lia).
assert (Hlohi : (lo ≤ hi)%nat) by (unfold hi; lia).
destruct (lookup_lt_is_Some_2 s lo) as [a Ha]; [lia|].
destruct (lookup_lt_is_Some_2 s hi) as [b Hb]; [lia|].
pose proof (StronglySorted_lookup_le s lo hi a b Hs Hlohi Ha Hb) as Hab.
destruct (lerp_between a b _ Hab Hg0 Hg1) as [Hv1 Hv2].
eexists a, b, _. split; [exact Ha|]. split; [exact Hb|]. split.
{ unfold DataAnalysis.interpolate. fold lo. fold hi. rewrite Ha. simpl. rewrite Hb. simpl.
  reflexivity. }
split; [reflexivity|]. auto.
Qed.

(** Quantiles grow with [q]. *)
Lemma interpolate_mono (q1 q2 : Qc) (s : list Qc) v1 v2 :
  StronglySorted Qcle s → 0 ≤ q1 → q1 ≤ q2 → q2 ≤ 1 →
  DataAnalysis.interpolate q1 s = Some v1 → DataAnalysis.interpolate q2 s = Some v2 →
  v1 ≤ v2.
Proof.
intros Hs Hq0 Hq12 Hq1 H1 H2.
assert (Hne : s ≠ []) by (intros ->; discriminate H1).
assert (Hq1' : q1 ≤ 1) by (by etrans).
assert (Hq2' : 0 ≤ q2) by (by etrans).
destruct (interpolate_between q1 s Hs Hne Hq0 Hq1')
  as (a1 & b1 & w1 & Ha1 & Hb1 & Hw1 & Hdef1 & Hlow1 & Hup1 & Hlohi1 & Hhi1).
destruct (interpolate_between q2 s Hs Hne Hq2' Hq1)
  as (a2 & b2 & w2 & Ha2 & Hb2 & Hw2 & Hdef2 & Hlow2 & Hup2 & Hlohi2 & Hhi2).
rewrite H1 in Hw1. injection Hw1 as <-. rewrite H2 in Hw2. injection Hw2 as <-.
set (M := Qc_of_nat (length s - 1)) in *.
assert (HM : 0 ≤ M).
{ unfold M. rewrite <- Qc_of_nat_0. apply Qc_of_nat_le. lia. }
assert (Hh : M * q1 ≤ M * q2).
{ rewrite !(Qcmult_comm M). by apply Qcmult_le_compat_r. }
pose proof (Qc_floor_mono _ _ Hh) as Hfl.
destruct (position_bounds (length s - 1) q1 Hq0 Hq1') as (Hfl1 & _).
fold M in Hfl1.
destruct (decide (Qfloor (M * q1)%Qc = Qfloor (M * q2)%Qc)) as [Heq|Hneq].
- rewrite <- Heq in Ha2, Hb2, Hdef2. rewrite Ha1 in Ha2. injection Ha2 as <-.
  rewrite Hb1 in Hb2. injection Hb2 as <-.
  rewrite Hdef1, Hdef2. apply lerp_mono.
  + by etrans.
  + unfold Qcminus. by apply Qcplus_le_mono_r.
- assert (Hlt : (Z.to_nat (Qfloor (M * q1)%Qc) + 1 ≤ Z.to_nat (Qfloor (M * q2)%Qc))%nat) by lia.
  etrans; [exact Hup1|]. etrans; [|exact Hlow2].
  refine (StronglySorted_lookup_le s _ _ b1 a2 Hs _ Hb1 Ha2). lia.
Qed.

Lemma elem_of_present (series : list cell) (x : Qc) :
  x ∈ merge_sort Qcle (omap id (map float_of series)) ↔ Num x ∈ series.
Proof.
rewrite merge_sort_Permutation, list_elem_of_omap. split.
- intros (o & Ho & Hx). apply list_elem_of_fmap in Ho as (v & -> & Hv).
  destruct v; simpl in Hx; try discriminate Hx. by injection Hx as <-.
- intros Hx. exists (Some x). split; [|reflexivity].
  apply list_elem_of_fmap. by exists (Num x).
Qed.

(** X22. On a column without text the two quartiles exist exactly when
    the column has a present value. Then the first quartile is at most the
    third, both lie within the range of the present values, and a value
    between the quartiles is never counted as an outlier: the fences
    [Q1 - 1.5 IQR] and [Q3 + 1.5 IQR] always enclose the interquartile
    range. *)
Theorem fences_enclose_the_interquartile_range (series : list cell) :
  Forall (λ v, is_str v = false) series →
  ∃ Q1 Q3,
    DataAnalysis.quantile DataAnalysis.quarter series = inr Q1
    ∧ DataAnalysis.quantile DataAnalysis.three_quarters series = inr Q3
    ∧ match Q1, Q3 with
      | Some q1, Some q3 =>
          q1 ≤ q3
          ∧ (∃ x y, Num x ∈ series ∧ Num y ∈ series ∧ x ≤ q1 ∧ q3 ≤ y)
          ∧ ∀ x, q1 ≤ x → x ≤ q3 →
              DataAnalysis.is_outlier (q1 - DataAnalysis.one_and_half * (q3 - q1))
                                      (q3 + DataAnalysis.one_and_half * (q3 - q1)) (Num x)
              = false
      | None, None => Forall (λ v, v = NaN) series
      | _, _ => False
      end.
Proof.
intros Hnum. unfold DataAnalysis.quantile.
rewrite (mapM_result_inr as_float float_of), !ret_bind.
2:{ intros v Hv. apply as_float_ok. rewrite Forall_forall in Hnum. by apply Hnum. }
set (s := merge_sort Qcle (omap id (map float_of series))).
assert (Hs : StronglySorted Qcle s) by apply (StronglySorted_merge_sort _).
eexists _, _. split; [reflexivity|]. split; [reflexivity|].
assert (H14 : 0 ≤ DataAnalysis.quarter) by by_compute.
assert (H34 : DataAnalysis.quarter ≤ DataAnalysis.three_quarters) by by_compute.
assert (H1 : DataAnalysis.three_quarters ≤ 1) by by_compute.
assert (H14' : DataAnalysis.quarter ≤ 1) by by_compute.
assert (H34' : 0 ≤ DataAnalysis.three_quarters) by by_compute.
destruct (decide (s = [])) as [Hnil|Hne].
- rewrite Hnil. unfold DataAnalysis.interpolate. simpl.
  apply Forall_forall. intros v Hv. rewrite Forall_forall in Hnum. specialize (Hnum v Hv).
  destruct v as [x|t|]; [|discriminate Hnum|reflexivity].
  apply elem_of_present in Hv. fold s in Hv. rewrite Hnil in Hv. by apply elem_of_nil in Hv.
- destruct (interpolate_between DataAnalysis.quarter s Hs Hne H14 H14')
    as (a1 & b1 & q1 & Ha1 & Hb1 & Hq1 & _ & Hlow1 & _).
  destruct (interpolate_between DataAnalysis.three_quarters s Hs Hne H34' H1)
    as (a3 & b3 & q3 & Ha3 & Hb3 & Hq3 & _ & _ & Hup3 & _).
  pose proof (interpolate_mono _ _ s q1 q3 Hs H14 H34 H1 Hq1 Hq3) as Hle.
  rewrite Hq1, Hq3. split; [exact Hle|]. split.
  + exists a1, b3. split; [|split; [|split; [exact Hlow1|exact Hup3]]].
    * apply elem_of_present. by eapply list_elem_of_lookup_2.
    * apply elem_of_present. by eapply list_elem_of_lookup_2.
  + intros x Hx1 Hx3. simpl.
    assert (Hiqr : 0 ≤ DataAnalysis.one_and_half * (q3 - q1)).
    { rewrite <- (Qcmult_0_l (q3 - q1)). apply Qcmult_le_compat_r; [by_compute|].
      unfold Qcminus. by apply (proj1 (Qcle_minus_iff _ _)). }
    rewrite !bool_decide_eq_false_2; [reflexivity| |].
    * apply Qcle_not_lt. etrans; [exact Hx3|].
      rewrite <- (Qcplus_0_r q3) at 1. by apply Qcplus_le_mono_l.
    * apply Qcle_not_lt. etrans; [|exact Hx1].
      apply (Qcplus_le_mono_r _ _ (DataAnalysis.one_and_half * (q3 - q1))).
      replace (q1 - DataAnalysis.one_and_half * (q3 - q1)
               + DataAnalysis.one_and_half * (q3 - q1)) with q1 by ring.
      rewrite <- (Qcplus_0_r q1) at 1. by apply Qcplus_le_mono_l.
Qed.

Lemma fences_enclose_the_interquartile_range_witness :
  ∃ q1 q3,
    DataAnalysis.quantile DataAnalysis.quarter sample_readings = inr (Some q1)
    ∧ DataAnalysis.quantile DataAnalysis.three_quarters sample_readings = inr (Some q3)
    ∧ q1 ≤ q3.
Proof.
destruct (fences_enclose_the_interquartile_range sample_readings)
  as (Q1 & Q3 & H1 & H3 & Hspec); [by_compute|].
destruct Q1 as [q1|], Q3 as [q3|]; [|contradiction|contradiction|].
- exists q1, q3. split; [exact H1|]. split; [exact H3|]. by destruct Hspec as [Hle _].
- exfalso. assert (Hno : ¬ Forall (λ v : cell, v = NaN) sample_readings) by by_compute.
  by apply Hno.
Defined.

(** ** The size and the shape of the clusters *)

(** Distinct positions that all carry the label [l] are counted in the
    size of the cluster [l]. *)
Lemma cluster_size_ge (L : list Z) (l : Z) (idxs : list nat) :
  NoDup idxs → (∀ i, i ∈ idxs → L !! i = Some l) →
  (length idxs ≤ cluster_size l L)%nat.
Proof.
intros Hnd Hall.
set (L1 := map (λ i, if decide (i ∈ idxs) then 1%Z else 0%Z) (seq 0 (length L))).
assert (Hle : (length (filter (λ x, x = 1%Z) L1) ≤ cluster_size l L)%nat).
{ apply filter_length_le_pointwise.
  - unfold L1. by rewrite length_map, length_seq.
  - intros i Hi. unfold L1 in Hi. rewrite list_lookup_fmap in Hi.
    destruct (seq 0 (length L) !! i) as [j|] eqn:Hj; [|discriminate Hi].
    apply lookup_seq in Hj as [-> _]. simpl in Hi.
    destruct (decide (i ∈ idxs)) as [Hin|_]; [by apply Hall|discriminate Hi]. }
etrans; [|exact Hle].
assert (Hcount : ∀ js : list nat,
          length (filter (λ x, x = 1%Z) (map (λ i, if decide (i ∈ idxs) then 1%Z else 0%Z) js))
          = length (filter (λ i, i ∈ idxs) js)).
{ induction js as [|j js IH]; [reflexivity|].
  cbn [map]. rewrite !filter_cons. destruct (decide (j ∈ idxs)); simpl; by rewrite IH. }
unfold L1. rewrite Hcount. apply submseteq_length. apply NoDup_submseteq; [exact Hnd|].
intros i Hi. apply list_elem_of_filter. split; [exact Hi|].
apply elem_of_seq. specialize (Hall i Hi). apply lookup_lt_Some in Hall. lia.
Qed.

Section ClusterSize.

Variable is_core : nat → bool.
Variable nb : nat → list nat.
Variable n : nat.
Hypothesis nb_bound : ∀ i v, v ∈ nb i → (v < n)%nat.
Hypothesis nb_sym : ∀ i j, (i < n)%nat → j ∈ nb i → i ∈ nb j.
Hypothesis border_one_neighbour : ∀ p a b,
  (p < n)%nat → is_core p = false → a ∈ nb p → b ∈ nb p → a ≠ p → b ≠ p → a = b.

Variable L : list Z.
Hypothesis HL : dbscan_labelling is_core nb n L.

(** When a border point has one neighbour only, every point within reach
    of a core point carries its label. *)
Lemma core_neighbours_share_label c v l :
  (c < n)%nat → is_core c = true → L !! c = Some l → v ∈ nb c → L !! v = Some l.
Proof.
intros Hc Hcc Hl Hv.
destruct (labelling_reach is_core nb n L HL c v Hc Hcc Hv)
  as (lc & lv & Hlc & Hlv & Hne & Hvne & Hsame).
assert (lc = l) as -> by congruence.
destruct (is_core v) eqn:Hcv; [by rewrite Hlv, Hsame|].
destruct (labelling_border is_core nb n L HL v lv Hlv Hvne Hcv) as (c' & Hcc' & Hin' & Hlc').
assert (Hc' : (c' < n)%nat) by (by eapply labelling_lt).
assert (Hvn : (v < n)%nat) by (by eapply nb_bound).
assert (c = c') as <-.
{ apply (border_one_neighbour v c c' Hvn Hcv).
  - by apply nb_sym.
  - by apply nb_sym.
  - intros ->. congruence.
  - intros ->. congruence. }
congruence.
Qed.

Lemma cluster_holds_a_neighbourhood i l :
  L !! i = Some l → l ≠ (-1)%Z →
  ∃ c, is_core c = true ∧ (c < n)%nat ∧ L !! c = Some l
       ∧ ∀ v, v ∈ nb c → L !! v = Some l.
Proof.
intros Hi Hl.
assert (Hcore : ∃ c, is_core c = true ∧ L !! c = Some l).
{ destruct (is_core i) eqn:Hci; [by exists i|].
  destruct (labelling_border is_core nb n L HL i l Hi Hl Hci) as (c & Hc & _ & Hlc).
  by exists c. }
destruct Hcore as (c & Hcc & Hlc).
assert (Hc : (c < n)%nat) by (by eapply labelling_lt).
exists c. split; [exact Hcc|]. split; [exact Hc|]. split; [exact Hlc|].
intros v Hv. by apply (core_neighbours_share_label c v l).
Qed.

End ClusterSize.

(** X23. With [min_samples <= 3], as in [spatial_clustering], every
    cluster has at least [min_samples] records: it holds a record with at
    least [min_samples] records within [eps], and all of these are in the
    cluster. *)
Theorem clusters_have_min_samples_records (eps : Qc) (ms : nat)
    (data data' : DataFrame) (L : list Z) (l : Z) :
  PollutionTracer.clustering eps ms data = inr (data', L) → (ms ≤ 3)%nat →
  l ∈ L → l ≠ (-1)%Z → (ms ≤ cluster_size l L)%nat.
Proof.
intros Hrun Hms3 Hl Hne.
destruct (clustering_points eps ms data data' L Hrun)
  as (SM & pts & _ & _ & Hlen & Hpos & Hms & Hlab & _).
apply list_elem_of_lookup in Hl as [i Hi].
destruct (cluster_holds_a_neighbourhood _ _ (length pts)
            (radius_neighbors_bound eps (scale2 SM) pts)
            (radius_neighbors_sym eps (scale2 SM) pts)
            (λ p a b Hp Hnc, border_has_one_neighbour eps (scale2 SM) pts ms p a b Hpos Hms3 Hp Hnc)
            L Hlab i l Hi Hne) as (c & Hcc & Hc & Hlc & Hall).
apply bool_decide_eq_true_1 in Hcc. etrans; [exact Hcc|].
apply cluster_size_ge; [apply radius_neighbors_NoDup|exact Hall].
Qed.

Lemma clusters_have_min_samples_records_witness :
  ∃ data' L,
    PollutionTracer.spatial_clustering sample_data = inr (data', L)
    ∧ ∀ l, l ∈ L → l ≠ (-1)%Z → (3 ≤ cluster_size l L)%nat.
Proof.
assert (Hsome : (λ _, ()) <$> PollutionTracer.spatial_clustering sample_data = inr ())
  by (vm_compute; reflexivity).
destruct (PollutionTracer.spatial_clustering sample_data) as [e|[data' L]] eqn:Hrun;
  [discriminate Hsome|].
exists data', L. split; [reflexivity|]. intros l Hl Hne.
apply (clusters_have_min_samples_records PollutionTracer.eps_default 3 sample_data data' L l
         Hrun); [lia|exact Hl|exact Hne].
Defined.

(** X24. The clusters are the density-connected components: two records
    that each have at least [min_samples] records within [eps] carry the
    same label exactly when a chain of such records, each within [eps] of
    the next, joins them. *)
Theorem clusters_are_density_connected_components (eps : Qc) (ms : nat)
    (data data' : DataFrame) (L : list Z) :
  PollutionTracer.clustering eps ms data = inr (data', L) →
  ∃ SM pts,
    StandardScaler_fit_transform
      (map (λ r : Row, map (cell_at r) [col_lon; col_lat]) (rows data)) = inr SM
    ∧ all_finite (centred SM) = Some pts
    ∧ length pts = length (rows data)
    ∧ ∀ p q, (p < length (rows data))%nat → (q < length (rows data))%nat →
        (ms ≤ length (radius_neighbors eps (scale2 SM) pts p))%nat →
        (ms ≤ length (radius_neighbors eps (scale2 SM) pts q))%nat →
        (L !! p = L !! q
         ↔ density_connected
             (λ i, bool_decide (ms ≤ length (radius_neighbors eps (scale2 SM) pts i))%nat)
             (radius_neighbors eps (scale2 SM) pts) (length pts) p q).
Proof.
intros Hrun.
destruct (clustering_points eps ms data data' L Hrun)
  as (SM & pts & HSM & Hpts & Hlen & _ & _ & Hlab & _).
exists SM, pts. split; [exact HSM|]. split; [exact Hpts|]. split; [exact Hlen|].
intros p q Hp Hq Hcp Hcq. rewrite <- Hlen in Hp, Hq.
apply (bool_decide_eq_true_2 (ms ≤ length (radius_neighbors eps (scale2 SM) pts p))%nat) in Hcp.
apply (bool_decide_eq_true_2 (ms ≤ length (radius_neighbors eps (scale2 SM) pts q))%nat) in Hcq.
split.
- intros Heq.
  destruct (labelling_core _ _ _ L Hlab p Hp Hcp) as (l & Hl & Hne).
  apply (labelling_connected _ _ _ L Hlab p q l Hcp Hcq Hl); [congruence|exact Hne].
- intros Hconn.
  destruct (labelling_connected_same _ _ _ (radius_neighbors_bound eps (scale2 SM) pts)
              L Hlab p q Hconn Hp Hcp) as (l & Hlp & Hlq & _).
  congruence.
Qed.

Lemma clusters_are_density_connected_components_witness :
  ∃ data' L SM pts,
    PollutionTracer.clustering PollutionTracer.eps_default 3 sample_data = inr (data', L)
    ∧ all_finite (centred SM) = Some pts
    ∧ ∀ p q, (p < length (rows sample_data))%nat → (q < length (rows sample_data))%nat →
        (3 ≤ length (radius_neighbors PollutionTracer.eps_default (scale2 SM) pts p))%nat →
        (3 ≤ length (radius_neighbors PollutionTracer.eps_default (scale2 SM) pts q))%nat →
        (L !! p = L !! q
         ↔ density_connected
             (λ i, bool_decide (3 ≤ length (radius_neighbors PollutionTracer.eps_default
                                              (scale2 SM) pts i))%nat)
             (radius_neighbors PollutionTracer.eps_default (scale2 SM) pts) (length pts) p q).
Proof.
assert (Hsome : (λ _, ()) <$> PollutionTracer.clustering PollutionTracer.eps_default 3 sample_data
                = inr ()) by (vm_compute; reflexivity).
destruct (PollutionTracer.clustering PollutionTracer.eps_default 3 sample_data)
  as [e|[data' L]] eqn:Hrun; [discriminate Hsome|].
destruct (clusters_are_density_connected_components _ _ _ _ _ Hrun)
  as (SM & pts & _ & Hpts & _ & Hchar).
exists data', L, SM, pts. split; [reflexivity|]. split; [exact Hpts|exact Hchar].
Defined.

(** ** The clustering does not depend on the unit of the coordinates *)

Section DbscanExt.

Variable is_core1 is_core2 : nat → bool.
Variable nb1 nb2 : nat → list nat.
Hypothesis core_ext : ∀ i, is_core1 i = is_core2 i.
Hypothesis nb_ext : ∀ i, nb1 i = nb2 i.




End DbscanExt.



























